(** * micromark-extension-math: bracket-delimited math recognizers

    A shallow embedding of the two recognizers for [\( ... \)] (text) and
    [\[ ... \]] (flow) and of the resolver that normalizes the events of
    an accepted text run, followed by the properties established for them.

    - [math-parens-text.js] : [tokenizeParensMathText], [resolveMathText],
      [previous];
    - [math-bracket-flow.js] : [tokenizeMathBracketFlow],
      [tokenizeClosingFence], [tokenizeNonLazyContinuation]. *)

From Stdlib Require Import ZArith String Bool Lia.
From stdpp Require Import base tactics option numbers strings list.

Local Open Scope string_scope.
Local Open Scope list_scope.

(** ** Character codes and token types *)

(** A character code as the host tokenizer hands it to a state: a number,
    or [null] at the end of the input. *)
Definition Code : Type := option Z.

(** Modelled from the spec: the values of [codes] in micromark-util-symbol,
    which the sources import and which is not part of this repository.
    Ordinary characters are their code points; the end of input is [null];
    line endings and the tab and virtual space are negative sentinels. *)
Module codes.
Definition eof : Code := None.
Definition carriageReturn : Z := -5.
Definition lineFeed : Z := -4.
Definition carriageReturnLineFeed : Z := -3.
Definition horizontalTab : Z := -2.
Definition virtualSpace : Z := -1.
Definition space : Z := 32.
Definition leftParenthesis : Z := 40.
Definition rightParenthesis : Z := 41.
Definition leftSquareBracket : Z := 91.
Definition backslash : Z := 92.
Definition rightSquareBracket : Z := 93.
End codes.

(** Modelled from the spec: the names in [types] and [constants] of
    micromark-util-symbol that the sources use. *)
Module types.
Definition lineEnding : string := "lineEnding".
Definition characterEscape : string := "characterEscape".
Definition linePrefix : string := "linePrefix".
Definition whitespace : string := "whitespace".
Definition chunkString : string := "chunkString".
End types.

Module constants.
Definition tabSize : nat := 4.
End constants.

(** [code === codes.x] *)
Definition code_is (code : Code) (c : Z) : bool :=
  match code with
  | Some x => (x =? c)%Z
  | None => false
  end.

(** [code === codes.eof] *)
Definition is_eof (code : Code) : bool :=
  match code with
  | None => true
  | Some _ => false
  end.

(** Modelled from the spec: [markdownLineEnding] of micromark-util-character
    (not part of this repository): [code !== null && code < horizontalTab]. *)
Definition markdownLineEnding (code : Code) : bool :=
  match code with
  | Some x => (x <? codes.horizontalTab)%Z
  | None => false
  end.

(** Modelled from the spec: [markdownSpace] of micromark-util-character:
    a tab, a virtual space or a space. *)
Definition markdownSpace (code : Code) : bool :=
  code_is code codes.horizontalTab
  || code_is code codes.virtualSpace
  || code_is code codes.space.

Arguments markdownLineEnding : simpl never.
Arguments markdownSpace : simpl never.

(** ** Events, tokens and the tokenize context *)

Record Point := { line : Z; column : Z; offset : Z }.

(** A token is an object shared by its enter event and its exit event;
    [end] is not set until the token is exited. *)
Record Token := { type : string; start_ : Point; end_ : option Point }.

Inductive Phase := PEnter | PExit.

(** An event [[phase, token, context]]: the token is a reference into the
    heap of token objects, so that a write through one event is seen
    through every event that holds the same token. *)
Abbreviation Event := (Phase * nat)%type.

Record TokenizeContext := {
  events : list Event;
  heap : list Token;
  stack : list nat;
  now : Point;
  previousCode : Code
}.

(** What a state asks of [effects]. *)
Inductive Effect :=
| Enter (ty : string)
| Consume (code : Code)
| Exit (ty : string).

(** What a state returns: the next state, or the result of [ok(code)] or
    [nok(code)]; [Throw] is a failed [assert]. *)
Inductive Next (St : Type) :=
| Goto (s : St)
| Ok
| Nok
| Throw.
Arguments Goto {St} s.
Arguments Ok {St}.
Arguments Nok {St}.
Arguments Throw {St}.

(** ** The text recognizer: [tokenizeParensMathText] *)

(** [previous]: [code !== codes.backslash ||
    this.events[this.events.length - 1][1].type === types.characterEscape].
    Reading the tail of an empty event list is a [TypeError] ([None]). *)
Definition previous (self : TokenizeContext) (code : Code) : option bool :=
  if negb (code_is code codes.backslash) then Some true
  else
    match last (events self) with
    | None => None
    | Some (_, tok) =>
      match heap self !! tok with
      | None => None
      | Some t => Some (String.eqb (type t) types.characterEscape)
      end
    end.

(** The state functions of the recognizer. *)
Inductive TextState :=
| start
| openParenthesis
| between
| closeParenthesis
| data.

(** The result of calling a state: the effects it asked for, in order, the
    value of the closure variable [foundClosingParen] afterwards, and what
    it returned. *)
Definition Called : Type := list Effect * bool * Next TextState.

(** Effects done before a direct call [return f(code)]. *)
Definition before (es : list Effect) (r : Called) : Called :=
  (es ++ r.1.1, r.1.2, r.2).

(** [call depth self s found code] is the call [s(code)]; a state that ends
    in [return f(code)] calls [f] at once, with the same code, and [depth]
    bounds the chain of such calls (it is at most three long, see
    [call_depth]). *)
Fixpoint call (depth : nat) (self : TokenizeContext) (s : TextState)
    (foundClosingParen : bool) (code : Code) : Called :=
  match depth with
  | O => ([], foundClosingParen, Throw)
  | S d =>
    match s with
    | start =>
      if negb (code_is code codes.backslash) then
        ([], foundClosingParen, Throw)
      else
        match previous self (previousCode self) with
        | Some true =>
          ([Enter "mathText"; Enter "mathTextSequence"; Consume code],
           foundClosingParen, Goto openParenthesis)
        | _ => ([], foundClosingParen, Throw)
        end
    | openParenthesis =>
      if code_is code codes.leftParenthesis then
        ([Consume code; Exit "mathTextSequence"],
         foundClosingParen, Goto between)
      else ([], foundClosingParen, Nok)
    | between =>
      if is_eof code then
        if negb foundClosingParen then ([], foundClosingParen, Nok)
        else ([], foundClosingParen, Nok)
      else if code_is code codes.backslash then
        ([Enter "mathTextSequence"; Consume code],
         foundClosingParen, Goto closeParenthesis)
      else if code_is code codes.space then
        ([Enter "space"; Consume code; Exit "space"],
         foundClosingParen, Goto between)
      else if markdownLineEnding code then
        ([Enter types.lineEnding; Consume code; Exit types.lineEnding],
         foundClosingParen, Goto between)
      else
        before [Enter "mathTextData"] (call d self data foundClosingParen code)
    | closeParenthesis =>
      if code_is code codes.rightParenthesis then
        ([Consume code; Exit "mathTextSequence"; Exit "mathText"], true, Ok)
      else
        before [Enter "mathTextData"; Consume code; Exit "mathTextSequence"]
               (call d self data foundClosingParen code)
    | data =>
      if is_eof code || code_is code codes.space
         || code_is code codes.backslash || markdownLineEnding code
      then
        before [Exit "mathTextData"]
               (call d self between foundClosingParen code)
      else ([Consume code], foundClosingParen, Goto data)
    end
  end.

Definition step : TokenizeContext -> TextState -> bool -> Code -> Called :=
  call 3.

(** ** The host tokenizer, as far as the recognizers use it *)

(** How a run ends: [ok], [nok], a failed assertion, the main loop running
    out of chunks before the recognizer returned either, or the bound of
    the model being too small. *)
Inductive Outcome := Accepted | Rejected | Threw | Unfinished | OutOfFuel.

Definition is_consume (e : Effect) : bool :=
  match e with
  | Consume _ => true
  | _ => false
  end.

(** The number of [effects.consume] calls among the effects of a state. *)
Fixpoint consumed (es : list Effect) : nat :=
  match es with
  | [] => 0
  | e :: es' => (if is_consume e then 1 else 0) + consumed es'
  end.

(** Modelled from the spec: the main loop of the host tokenizer (micromark's
    [createTokenizer], not part of this repository). The chunks are the
    codes of the input, the last one [null]; the state is called with the
    code at the current position, every [consume] moves the position one
    chunk on, and the loop stops when the position is past the last chunk.
    The result is the effects asked for, how the run ended and the chunks
    that are left. *)
Fixpoint run (fuel : nat) (self : TokenizeContext) (s : TextState)
    (foundClosingParen : bool) (chunks : list Code)
    : list Effect * Outcome * list Code :=
  match fuel with
  | O => ([], OutOfFuel, chunks)
  | S f =>
    match chunks with
    | [] => ([], Unfinished, [])
    | code :: _ =>
      let '(es, found', next) := step self s foundClosingParen code in
      let rest := drop (consumed es) chunks in
      match next with
      | Goto s' =>
        let '(t, o, rest') := run f self s' found' rest in
        (es ++ t, o, rest')
      | Ok => (es, Accepted, rest)
      | Nok => (es, Rejected, rest)
      | Throw => (es, Threw, rest)
      end
    end
  end.

(** [tokenizeParensMathText(effects, ok, nok)] returns [start]; this is the
    run of the recognizer from there over the chunks. *)
Definition tokenizeParensMathText (self : TokenizeContext)
    (chunks : list Code) : list Effect * Outcome * list Code :=
  run (S (length chunks)) self start false chunks.

(** Modelled from the spec: [consume] moves the point ([now()]) past the
    code. *)
Definition advance (code : Code) (p : Point) : Point :=
  if markdownLineEnding code then
    {| line := line p + 1; column := 1;
       offset := offset p
                 + (if code_is code codes.carriageReturnLineFeed then 2 else 1) |}
  else if code_is code codes.virtualSpace then p
  else {| line := line p; column := column p + 1; offset := offset p + 1 |}.

Definition close_at (p : Point) (t : Token) : Token :=
  {| type := type t; start_ := start_ t; end_ := Some p |}.

(** Modelled from the spec: [enter], [consume] and [exit] of the host
    tokenizer. [enter(type)] makes a token that starts at the point, pushes
    it on the stack and adds its enter event; [exit(type)] pops the token on
    top of the stack, ends it at the point and adds its exit event (with no
    token to pop it fails, [None]); that [type] is the type of the popped
    token is what [well_nested] checks. *)
Definition effect (c : TokenizeContext) (e : Effect) : option TokenizeContext :=
  match e with
  | Enter ty =>
    Some {| events := events c ++ [(PEnter, length (heap c))];
            heap := heap c ++ [{| type := ty; start_ := now c; end_ := None |}];
            stack := length (heap c) :: stack c;
            now := now c;
            previousCode := previousCode c |}
  | Consume code =>
    Some {| events := events c; heap := heap c; stack := stack c;
            now := advance code (now c);
            previousCode := code |}
  | Exit _ =>
    match stack c with
    | [] => None
    | tok :: st =>
      Some {| events := events c ++ [(PExit, tok)];
              heap := alter (close_at (now c)) tok (heap c);
              stack := st;
              now := now c;
              previousCode := previousCode c |}
    end
  end.

Fixpoint effects (c : TokenizeContext) (es : list Effect)
    : option TokenizeContext :=
  match es with
  | [] => Some c
  | e :: es' =>
    match effect c e with
    | Some c' => effects c' es'
    | None => None
    end
  end.

(** The context a construct starts in: the events it adds are the ones its
    resolver is given. *)
Definition fresh (p : Point) (prev : Code) : TokenizeContext :=
  {| events := []; heap := []; stack := []; now := p; previousCode := prev |}.

(** ** Well-nested effects *)

(** The open types after the effects [es], innermost first, starting from
    the open types [open]; [None] when an exit does not name the innermost
    open type. *)
Fixpoint opens (es : list Effect) (open : list string) : option (list string) :=
  match es with
  | [] => Some open
  | Enter ty :: es' => opens es' (ty :: open)
  | Consume _ :: es' => opens es' open
  | Exit ty :: es' =>
    match open with
    | top :: open' => if String.eqb ty top then opens es' open' else None
    | [] => None
    end
  end.

(** Every exit closes the innermost open enter, of the same type, and
    nothing is left open. *)
Definition well_nested (es : list Effect) : bool :=
  match opens es [] with
  | Some [] => true
  | _ => false
  end.

(** ** The flow recognizer: [tokenizeMathBracketFlow] *)

(** What the recognizer reads of its context [self]: the events before the
    construct and their tokens, the point, [self.interrupt],
    [self.parser.lazy], [self.parser.constructs.disable.null] and the
    serializer the tail event carries. *)
Record FlowContext := {
  context : TokenizeContext;
  interrupt : bool;
  lazy : Z -> bool;
  disable_null : option (list string);
  sliceSerialize : Token -> string
}.

(** [tail && tail[1].type === types.linePrefix
      ? tail[2].sliceSerialize(tail[1], true).length : 0] *)
Definition initialSize (self : FlowContext) : nat :=
  match last (events (context self)) with
  | Some (_, tok) =>
    match heap (context self) !! tok with
    | Some t =>
      if String.eqb (type t) types.linePrefix
      then String.length (sliceSerialize self t)
      else 0
    | None => 0
    end
  | None => 0
  end.

(** The state of a run: the effects that stand (those of a failed attempt
    are taken back), the line of the point, and the closure variable
    [foundClosingBracket], which no attempt restores. *)
Record Run := {
  trace : list Effect;
  lineNo : Z;
  foundClosingBracket : bool
}.

(** The end of a run: [ok] with the input that is left, [nok], a failed
    assertion, or the bound of the model being too small. *)
Inductive FlowResult :=
| FOk (input : list Z) (r : Run)
| FNok
| FThrow
| FOutOfFuel.

(** A state: called at a position of the input (the codes from the point
    on; the empty list is the end of the input, where the code is [null]),
    it runs the recognizer on to its end. *)
Definition FlowState : Type := list Z -> Run -> FlowResult.

(** The code a state is called with. *)
Definition peek (input : list Z) : Code := head input.

Definition enter (ty : string) (r : Run) : Run :=
  {| trace := trace r ++ [Enter ty];
     lineNo := lineNo r;
     foundClosingBracket := foundClosingBracket r |}.

Definition exit (ty : string) (r : Run) : Run :=
  {| trace := trace r ++ [Exit ty];
     lineNo := lineNo r;
     foundClosingBracket := foundClosingBracket r |}.

Definition consume (x : Z) (r : Run) : Run :=
  {| trace := trace r ++ [Consume (Some x)];
     lineNo := if markdownLineEnding (Some x) then (lineNo r + 1)%Z
               else lineNo r;
     foundClosingBracket := foundClosingBracket r |}.

Definition found_it (r : Run) : Run :=
  {| trace := trace r; lineNo := lineNo r; foundClosingBracket := true |}.

(** What is left of the run [r'] of a failed attempt that started at [r]:
    the effects and the point are those of [r], the closure variable is as
    the attempt left it. *)
Definition restore (r r' : Run) : Run :=
  {| trace := trace r;
     lineNo := lineNo r;
     foundClosingBracket := foundClosingBracket r' |}.

(** Modelled from the spec: [effects.attempt(construct, returnState,
    bogusState)] of the host tokenizer: run the construct; when it ends in
    [ok] go on in [returnState] from where it stopped, when it ends in
    [nok] take back its effects and go on in [bogusState] from where it
    started. A construct is given here by its tokenizer, a function of its
    [ok] and [nok]. *)
Definition attempt (tokenize : FlowState -> FlowState -> FlowState)
    (returnState bogusState : FlowState) : FlowState :=
  fun input r =>
    tokenize returnState (fun _ r' => bogusState input (restore r r')) input r.

(** Modelled from the spec: [factorySpace(effects, ok, type, max)] of
    micromark-factory-space (not part of this repository): at a space, tab
    or virtual space, a token of [type] around at most [max - 1] of them
    (any number without [max]); then [ok]. [under size limit] is
    [size < limit], the limit being infinite when there is no [max]. *)
Definition under (size : nat) (limit : option nat) : bool :=
  match limit with
  | Some l => (size <? l)%nat
  | None => true
  end.

Fixpoint prefix (ok : FlowState) (ty : string) (limit : option nat)
    (size : nat) (input : list Z) (r : Run) : FlowResult :=
  match input with
  | x :: rest =>
    if markdownSpace (Some x) && under size limit
    then prefix ok ty limit (S size) rest (consume x r)
    else ok input (exit ty r)
  | [] => ok [] (exit ty r)
  end.

Definition factorySpace (ok : FlowState) (ty : string) (max : option nat)
    : FlowState :=
  fun input r =>
    let limit := match max with
                 | Some (S m) => Some m
                 | _ => None
                 end in
    if markdownSpace (peek input) then prefix ok ty limit 0 input (enter ty r)
    else ok input r.

(** *** [tokenizeNonLazyContinuation] *)

Definition lineStart (self : FlowContext) (ok nok : FlowState) : FlowState :=
  fun input r => if lazy self (lineNo r) then nok input r else ok input r.

Definition nonLazyContinuation_start (self : FlowContext)
    (ok nok : FlowState) : FlowState :=
  fun input r =>
    match input with
    | [] => ok input r
    | x :: rest =>
      if negb (markdownLineEnding (Some x)) then FThrow
      else
        lineStart self ok nok rest
          (exit types.lineEnding (consume x (enter types.lineEnding r)))
    end.

Definition tokenizeNonLazyContinuation (self : FlowContext)
    (ok nok : FlowState) : FlowState :=
  nonLazyContinuation_start self ok nok.

(** *** [tokenizeClosingFence] *)

Definition afterSequenceClose (ok nok : FlowState) : FlowState :=
  fun input r =>
    if is_eof (peek input) || markdownLineEnding (peek input)
    then ok input (exit "mathFlowFence" r)
    else nok input r.

(** [foundBackslash] is the local variable of [tokenizeClosingFence]. *)
Fixpoint sequenceClose (ok nok : FlowState) (foundBackslash : bool)
    (input : list Z) (r : Run) : FlowResult :=
  match input with
  | x :: rest =>
    if (x =? codes.backslash)%Z && negb foundBackslash then
      sequenceClose ok nok true rest (consume x r)
    else if (x =? codes.rightSquareBracket)%Z && foundBackslash then
      factorySpace (afterSequenceClose ok nok) types.whitespace None rest
        (exit "mathFlowFenceSequence" (consume x (found_it r)))
    else nok input r
  | [] => nok [] r
  end.

Definition beforeSequenceClose (ok nok : FlowState) : FlowState :=
  fun input r =>
    sequenceClose ok nok false input
      (enter "mathFlowFenceSequence" (enter "mathFlowFence" r)).

Definition tokenizeClosingFence (self : FlowContext) (ok nok : FlowState)
    : FlowState :=
  fun input r =>
    match disable_null self with
    | None => FThrow
    | Some disabled =>
      factorySpace (beforeSequenceClose ok nok) types.linePrefix
        (if existsb (String.eqb "codeIndented") disabled then None
         else Some constants.tabSize)
        input r
    end.

(** *** The states of [tokenizeMathBracketFlow], last one first *)

Definition after : FlowState :=
  fun input r =>
    if is_eof (peek input) && negb (foundClosingBracket r) then FNok
    else FOk input (exit "mathFlow" r).

Fixpoint contentChunk (beforeContentChunk : FlowState) (input : list Z)
    (r : Run) : FlowResult :=
  match input with
  | x :: rest =>
    if markdownLineEnding (Some x)
    then beforeContentChunk input (exit "mathFlowValue" r)
    else contentChunk beforeContentChunk rest (consume x r)
  | [] => beforeContentChunk [] (exit "mathFlowValue" r)
  end.

Definition contentStart (self : FlowContext) (beforeContentChunk : FlowState)
    : FlowState :=
  fun input r =>
    match initialSize self with
    | O => beforeContentChunk input r
    | S n =>
      factorySpace beforeContentChunk types.linePrefix (Some (S n + 1)) input r
    end.

Definition beforeNonLazyContinuation (self : FlowContext)
    (beforeContentChunk : FlowState) : FlowState :=
  attempt (tokenizeClosingFence self) after
          (contentStart self beforeContentChunk).

(** [beforeContentChunk] is where the lines of the content loop: [fuel]
    bounds the number of times it is called, which is at most once per code
    of the input and once more. *)
Fixpoint beforeContentChunk (fuel : nat) (self : FlowContext)
    (input : list Z) (r : Run) : FlowResult :=
  match fuel with
  | O => FOutOfFuel
  | S f =>
    if is_eof (peek input) then after input r
    else if markdownLineEnding (peek input) then
      attempt (tokenizeNonLazyContinuation self)
              (beforeNonLazyContinuation self (beforeContentChunk f self))
              after input r
    else
      contentChunk (beforeContentChunk f self) input (enter "mathFlowValue" r)
  end.

Definition metaAfter (fuel : nat) (self : FlowContext) : FlowState :=
  fun input r =>
    let r := exit "mathFlowFence" r in
    if interrupt self then FOk input r
    else
      attempt (tokenizeNonLazyContinuation self)
              (beforeNonLazyContinuation self (beforeContentChunk fuel self))
              after input r.

Fixpoint meta (metaAfter : FlowState) (input : list Z) (r : Run)
    : FlowResult :=
  match input with
  | x :: rest =>
    if markdownLineEnding (Some x) then
      metaAfter input (exit "mathFlowFenceMeta" (exit types.chunkString r))
    else if (x =? codes.rightSquareBracket)%Z then FNok
    else meta metaAfter rest (consume x r)
  | [] => metaAfter [] (exit "mathFlowFenceMeta" (exit types.chunkString r))
  end.

Definition metaBefore (metaAfter : FlowState) : FlowState :=
  fun input r =>
    if is_eof (peek input) || markdownLineEnding (peek input)
    then metaAfter input r
    else meta metaAfter input
              (enter types.chunkString (enter "mathFlowFenceMeta" r)).

Definition openBracket (metaAfter : FlowState) : FlowState :=
  fun input r =>
    match input with
    | x :: rest =>
      if (x =? codes.leftSquareBracket)%Z then
        factorySpace (metaBefore metaAfter) types.whitespace None rest
          (exit "mathFlowFenceSequence" (consume x r))
      else FNok
    | [] => FNok
    end.

Definition flow_start (metaAfter : FlowState) : FlowState :=
  fun input r =>
    match input with
    | x :: rest =>
      if (x =? codes.backslash)%Z then
        openBracket metaAfter rest
          (consume x (enter "mathFlowFenceSequence"
                        (enter "mathFlowFence" (enter "mathFlow" r))))
      else FThrow
    | [] => FThrow
    end.

(** [tokenizeMathBracketFlow(effects, ok, nok)] returns [start]; this is the
    run of the recognizer from there over the input. *)
Definition tokenizeMathBracketFlow (self : FlowContext) (input : list Z)
    : FlowResult :=
  flow_start (metaAfter (S (length input)) self) input
    {| trace := []; lineNo := line (now (context self));
       foundClosingBracket := false |}.

(** ** The resolver: [resolveMathText] *)

(** How a call of the resolver ends: it returns, it throws a [TypeError]
    (reading a property of [undefined]), or the bound of the model is too
    small. *)
Inductive Resolved (A : Type) :=
| Done (a : A)
| TypeError
| Diverged.
Arguments Done {A} a.
Arguments TypeError {A}.
Arguments Diverged {A}.

(** [events[i]], [undefined] ([None]) outside the array. *)
Definition event_at (events : list Event) (i : Z) : option Event :=
  if (i <? 0)%Z then None else events !! Z.to_nat i.

(** [events[i][1]], as the reference and the token it points to. *)
Definition token_at (events : list Event) (heap : list Token) (i : Z)
    : option (nat * Token) :=
  match event_at events i with
  | Some (_, tok) =>
    match heap !! tok with
    | Some t => Some (tok, t)
    | None => None
    end
  | None => None
  end.

(** [events[i][1].type] *)
Definition type_at (events : list Event) (heap : list Token) (i : Z)
    : option string :=
  match token_at events heap i with
  | Some (_, t) => Some (type t)
  | None => None
  end.

Definition with_type (ty : string) (t : Token) : Token :=
  {| type := ty; start_ := start_ t; end_ := end_ t |}.

Definition with_end (e : option Point) (t : Token) : Token :=
  {| type := type t; start_ := start_ t; end_ := e |}.

(** [events[i][1].type = ty] *)
Definition set_type (events : list Event) (heap : list Token) (i : Z)
    (ty : string) : option (list Token) :=
  match token_at events heap i with
  | Some (tok, t) => Some (<[tok := with_type ty t]> heap)
  | None => None
  end.

(** [events[i][1].end = events[j][1].end] *)
Definition copy_end (events : list Event) (heap : list Token) (i j : Z)
    : option (list Token) :=
  match token_at events heap i, token_at events heap j with
  | Some (tok, t), Some (_, u) => Some (<[tok := with_end (end_ u) t]> heap)
  | _, _ => None
  end.

(** [events.splice(from, count)], for [from] not negative: a negative [count]
    removes nothing. *)
Definition splice (events : list Event) (from count : Z) : list Event :=
  take (Z.to_nat from) events
  ++ drop (Z.to_nat from + Z.to_nat count) events.

Definition is_line_ending_or_space (ty : string) : bool :=
  String.eqb ty types.lineEnding || String.eqb ty "space".

(** The variables of [resolveMathText] between its two parts. *)
Record Window := {
  w_events : list Event;
  w_heap : list Token;
  headEnterIndex : Z;
  tailExitIndex : Z
}.

(** [while (++index < tailExitIndex)]: is there an event of type
    [mathTextData] after [index] and before [tailExitIndex]? *)
Fixpoint find_data (fuel : nat) (events : list Event) (heap : list Token)
    (tailExitIndex index : Z) : Resolved bool :=
  match fuel with
  | O => Diverged
  | S f =>
    let index := (index + 1)%Z in
    if (index <? tailExitIndex)%Z then
      match type_at events heap index with
      | None => TypeError
      | Some ty =>
        if String.eqb ty "mathTextData" then Done true
        else find_data f events heap tailExitIndex index
      end
    else Done false
  end.

(** The first part: if we start and end with an EOL or a space, and we
    have data, then we have padding. *)
Definition padding (events : list Event) (heap : list Token)
    : Resolved Window :=
  let tailExitIndex := (Z.of_nat (length events) - 4)%Z in
  let headEnterIndex := 3%Z in
  let unchanged :=
    Done {| w_events := events; w_heap := heap;
            headEnterIndex := headEnterIndex;
            tailExitIndex := tailExitIndex |} in
  match type_at events heap headEnterIndex with
  | None => TypeError
  | Some head =>
    if is_line_ending_or_space head then
      match type_at events heap tailExitIndex with
      | None => TypeError
      | Some tail =>
        if is_line_ending_or_space tail then
          match find_data (length events) events heap
                          tailExitIndex headEnterIndex with
          | Done true =>
            match set_type events heap tailExitIndex "mathTextPadding" with
            | None => TypeError
            | Some heap1 =>
              match set_type events heap1 headEnterIndex "mathTextPadding" with
              | None => TypeError
              | Some heap2 =>
                Done {| w_events := events; w_heap := heap2;
                        headEnterIndex := (headEnterIndex + 2)%Z;
                        tailExitIndex := (tailExitIndex - 2)%Z |}
              end
            end
          | Done false => unchanged
          | TypeError => TypeError
          | Diverged => Diverged
          end
        else unchanged
      end
    else unchanged
  end.

(** The second part: merge adjacent spaces and data. One round of
    [while (++index <= tailExitIndex)] per unit of [fuel]; [enter] is
    [undefined] ([None]) outside a run. *)
Fixpoint merge (fuel : nat) (events : list Event) (heap : list Token)
    (tailExitIndex index : Z) (enter : option Z)
    : Resolved (list Event * list Token) :=
  match fuel with
  | O => Diverged
  | S f =>
    let index := (index + 1)%Z in
    if (index <=? tailExitIndex)%Z then
      match enter with
      | None =>
        if (index =? tailExitIndex)%Z then
          merge f events heap tailExitIndex index None
        else
          match type_at events heap index with
          | None => TypeError
          | Some ty =>
            if String.eqb ty types.lineEnding
            then merge f events heap tailExitIndex index None
            else merge f events heap tailExitIndex index (Some index)
          end
      | Some enter =>
        let at_end :=
          if (index =? tailExitIndex)%Z then Some true
          else
            match type_at events heap index with
            | None => None
            | Some ty => Some (String.eqb ty types.lineEnding)
            end in
        match at_end with
        | None => TypeError
        | Some false => merge f events heap tailExitIndex index (Some enter)
        | Some true =>
          match set_type events heap enter "mathTextData" with
          | None => TypeError
          | Some heap1 =>
            if (index =? enter + 2)%Z then
              merge f events heap1 tailExitIndex index None
            else
              match copy_end events heap1 enter (index - 1) with
              | None => TypeError
              | Some heap2 =>
                merge f (splice events (enter + 2) (index - enter - 2)) heap2
                      (tailExitIndex - (index - enter - 2))%Z
                      (enter + 2)%Z None
              end
          end
        end
      end
    else Done (events, heap)
  end.

(** [resolveMathText(events)]: the events it returns, and the tokens as it
    leaves them. *)
Definition resolveMathText (events : list Event) (heap : list Token)
    : Resolved (list Event * list Token) :=
  match padding events heap with
  | Done w =>
    merge (S (length events)) (w_events w) (w_heap w)
          (tailExitIndex w + 1)%Z (headEnterIndex w - 1)%Z None
  | TypeError => TypeError
  | Diverged => Diverged
  end.

(** The tokens of the events in order, each event with its phase: what a
    reader of the event list sees. *)
Definition view (events : list Event) (heap : list Token)
    : list (Phase * option Token) :=
  map (fun e : Event => (e.1, heap !! e.2)) events.

(** ** Notions used to state the properties *)

(** [holds I Q S k]: a run that reaches the state [k] in a condition [I S]
    (with [S] the types that are open) and ends in [ok] ends as [Q] says. *)
Definition holds (I : list string -> Run -> Prop) (Q : list Z -> Run -> Prop)
    (S : list string) (k : FlowState) : Prop :=
  forall input r input' r',
    I S r -> k input r = FOk input' r' -> Q input' r'.

(** [settled Q k]: however the state [k] is reached, a run that ends in
    [ok] ends as [Q] says. *)
Definition settled (Q : list Z -> Run -> Prop) (k : FlowState) : Prop :=
  forall input r input' r', k input r = FOk input' r' -> Q input' r'.

(** [finishes n k]: called with fewer than [n] codes left, the state [k]
    ends within the bound of the model. *)
Definition finishes (n : nat) (k : FlowState) : Prop :=
  forall input r, length input < n -> k input r <> FOutOfFuel.

(** The open types of a run are [S]. *)
Definition open_types (S : list string) (r : Run) : Prop :=
  opens (trace r) [] = Some S.

(** The input is at the end of a line: at a line ending or at its end. *)
Definition at_eol (input : list Z) : Prop :=
  is_eof (peek input) || markdownLineEnding (peek input) = true.

(** No line ending among the codes. *)
Definition one_line (cs : list Z) : Prop :=
  Forall (fun x => markdownLineEnding (Some x) = false) cs.

(** The effects that [between] and [data] ask for over content without a
    backslash; [in_data] tells that the state is [data], with its
    [mathTextData] token open. *)
Fixpoint content_effects (in_data : bool) (content : list Z) : list Effect :=
  let leave := if in_data then [Exit "mathTextData"] else [] in
  match content with
  | [] => leave
  | x :: rest =>
    if (x =? codes.space)%Z then
      leave ++ [Enter "space"; Consume (Some x); Exit "space"]
            ++ content_effects false rest
    else if markdownLineEnding (Some x) then
      leave ++ [Enter types.lineEnding; Consume (Some x);
                Exit types.lineEnding]
            ++ content_effects false rest
    else
      (if in_data then [] else [Enter "mathTextData"])
        ++ [Consume (Some x)] ++ content_effects true rest
  end.

(** The effects of the opening and of the closing sequence. *)
Definition opening_effects : list Effect :=
  [Enter "mathText"; Enter "mathTextSequence";
   Consume (Some codes.backslash); Consume (Some codes.leftParenthesis);
   Exit "mathTextSequence"].

Definition closing_effects : list Effect :=
  [Enter "mathTextSequence"; Consume (Some codes.backslash);
   Consume (Some codes.rightParenthesis);
   Exit "mathTextSequence"; Exit "mathText"].

(** The number of events that effects add: one for each enter and exit. *)
Fixpoint emitted (es : list Effect) : nat :=
  match es with
  | [] => 0
  | e :: es' => (if is_consume e then 0 else 1) + emitted es'
  end.

(** The number of tokens that are open when a state of the text recognizer
    is called, and the least number of events a run adds from there on
    when it ends in [ok]. *)
Definition depth (s : TextState) : nat :=
  match s with
  | start => 0
  | between => 1
  | openParenthesis | closeParenthesis | data => 2
  end.

Definition need (s : TextState) : nat :=
  match s with
  | start => 6
  | openParenthesis => 4
  | between | data => 3
  | closeParenthesis => 2
  end.

(** The number of open tokens after effects, from [d] open tokens; [None]
    when an exit finds none open. *)
Fixpoint depth_after (es : list Effect) (d : nat) : option nat :=
  match es with
  | [] => Some d
  | Enter _ :: es' => depth_after es' (S d)
  | Consume _ :: es' => depth_after es' d
  | Exit _ :: es' =>
    match d with
    | O => None
    | S d' => depth_after es' d'
    end
  end.

(** The events of a context refer to tokens of its heap. *)
Definition refers (c : TokenizeContext) : Prop :=
  Forall (fun e : Event => e.2 < length (heap c)) (events c)
  /\ Forall (fun tok => tok < length (heap c)) (stack c).

(** ** Inputs used as examples *)

Definition origin : Point := {| line := 1; column := 1; offset := 0 |}.

(** The context at the start of some text. *)
Definition at_start : TokenizeContext := fresh origin None.

(** The context after the character escape [\\]: the last event is the exit
    of its [characterEscape] token and the previous code is the backslash
    that the escape stands for. *)
Definition after_character_escape : TokenizeContext :=
  {| events :=
       [(PEnter, 0); (PEnter, 1); (PExit, 1); (PEnter, 2); (PExit, 2);
        (PExit, 0)];
     heap :=
       [{| type := types.characterEscape; start_ := origin;
           end_ := Some {| line := 1; column := 3; offset := 2 |} |};
        {| type := "escapeMarker"; start_ := origin;
           end_ := Some {| line := 1; column := 2; offset := 1 |} |};
        {| type := "characterEscapeValue";
           start_ := {| line := 1; column := 2; offset := 1 |};
           end_ := Some {| line := 1; column := 3; offset := 2 |} |}];
     stack := [];
     now := {| line := 1; column := 3; offset := 2 |};
     previousCode := Some codes.backslash |}.

(** A flow context at the start of a document, interrupting or not. *)
Definition flow_at_start (interrupting : bool) : FlowContext :=
  {| context := at_start;
     interrupt := interrupting;
     lazy := fun _ => false;
     disable_null := Some [];
     sliceSerialize := fun _ => "" |}.

(** The codes of a string of ordinary characters. *)
Definition codes_of (s : string) : list Z :=
  map (fun a => Z.of_nat (Ascii.nat_of_ascii a)) (list_ascii_of_string s).

(** The chunks of a string that is the whole input. *)
Definition chunks_of (s : string) : list Code :=
  map Some (codes_of s) ++ [codes.eof].

(** The lines [\[] and [\]], and the lines [\[], [x] and [\]]. *)
Definition two_lines : list Z :=
  codes_of "\[" ++ [codes.lineFeed] ++ codes_of "\]".

Definition three_lines : list Z :=
  codes_of "\[" ++ [codes.lineFeed] ++ codes_of "x"
    ++ [codes.lineFeed] ++ codes_of "\]".

(** The events that the run over a text adds, and their tokens. *)
Definition run_events (s : string) : option (list Event * list Token) :=
  match effects at_start (tokenizeParensMathText at_start (chunks_of s)).1.1
  with
  | Some c => Some (events c, heap c)
  | None => None
  end.

Definition point (n : Z) : Point :=
  {| line := 1; column := 1 + n; offset := n |}.

Definition token (ty : string) (from to : Z) : Token :=
  {| type := ty; start_ := point from; end_ := Some (point to) |}.

(** The tokens of the run over [\( a \)], and the one over [\(a  b\)]. *)
Definition padded_heap : list Token :=
  [token "mathText" 0 7; token "mathTextSequence" 0 2; token "space" 2 3;
   token "mathTextData" 3 4; token "space" 4 5;
   token "mathTextSequence" 5 7].

Definition padded_inner : list (nat * Token) :=
  [(2, token "space" 2 3); (3, token "mathTextData" 3 4);
   (4, token "space" 4 5)].

Definition spaced_heap : list Token :=
  [token "mathText" 0 8; token "mathTextSequence" 0 2;
   token "mathTextData" 2 3; token "space" 3 4; token "space" 4 5;
   token "mathTextData" 5 6; token "mathTextSequence" 6 8].

Definition spaced_inner : list (nat * Token) :=
  [(2, token "mathTextData" 2 3); (3, token "space" 3 4);
   (4, token "space" 4 5); (5, token "mathTextData" 5 6)].

(** ** The events of an accepted run of the text recognizer, and what the
    resolver is to make of them *)

(** A span between the two sequences: the reference of its token, and the
    token. *)
Abbreviation Span := (nat * Token)%type.

(** The events of spans that follow one another: enter and exit of each. *)
Fixpoint flat (toks : list nat) : list Event :=
  match toks with
  | [] => []
  | tok :: toks' => (PEnter, tok) :: (PExit, tok) :: flat toks'
  end.

(** The events of a run that ended in [ok] and took no backslash for data:
    [mathText] around the opening [mathTextSequence], the spans of the
    content and the closing [mathTextSequence]. *)
Definition text_events (outer opening closing : nat) (inner : list nat)
    : list Event :=
  [(PEnter, outer); (PEnter, opening); (PExit, opening)]
    ++ flat inner
    ++ [(PEnter, closing); (PExit, closing); (PExit, outer)].

(** The tokens of such events: all different, those of the spans as
    [inner] gives them, of type [mathText] the outer one and of type
    [mathTextSequence] the two sequences. *)
Record shaped (heap : list Token) (outer opening closing : nat)
    (inner : list Span) : Prop := {
  shaped_NoDup : NoDup (outer :: opening :: closing :: map fst inner);
  shaped_outer : type <$> heap !! outer = Some "mathText";
  shaped_opening : type <$> heap !! opening = Some "mathTextSequence";
  shaped_closing : type <$> heap !! closing = Some "mathTextSequence";
  shaped_inner : Forall (fun s : Span => heap !! s.1 = Some s.2) inner
}.

(** The types of the spans that the recognizer makes of the content. *)
Definition content_type (t : Token) : Prop :=
  type t = "space" \/ type t = types.lineEnding \/ type t = "mathTextData".

Definition is_line_ending (t : Token) : bool :=
  String.eqb (type t) types.lineEnding.

Definition is_edge (t : Token) : bool := is_line_ending_or_space (type t).

Definition is_data (t : Token) : bool := String.eqb (type t) "mathTextData".

(** The spans strictly between the first and the last. *)
Definition middle {A : Type} (l : list A) : list A := removelast (tail l).

(** The condition of the first part: the first and the last span are a
    space or a line ending, and there is a [mathTextData] span strictly
    between them. *)
Definition padded (inner : list Span) : bool :=
  match head inner, last (tail inner) with
  | Some first, Some final =>
    is_edge first.2 && is_edge final.2
    && existsb (fun s : Span => is_data s.2) (middle inner)
  | _, _ => false
  end.

(** The run that is open, as a list of at most one span. *)
Definition run_of (cur : option Span) : list Span :=
  match cur with
  | Some c => [c]
  | None => []
  end.

(** The second part, as a function of the spans of the window: a run of
    spans that are not line endings becomes its first span, as
    [mathTextData], ending where the last span of the run ends; [cur] is
    the run that is open. *)
Fixpoint coalesce_from (cur : option Span) (spans : list Span) : list Span :=
  match spans with
  | [] => run_of cur
  | s :: rest =>
    if is_line_ending s.2 then run_of cur ++ s :: coalesce_from None rest
    else
      match cur with
      | None => coalesce_from (Some (s.1, with_type "mathTextData" s.2)) rest
      | Some c => coalesce_from (Some (c.1, with_end (end_ s.2) c.2)) rest
      end
  end.

Definition coalesce (spans : list Span) : list Span :=
  coalesce_from None spans.

Definition as_padding (s : Span) : Span :=
  (s.1, with_type "mathTextPadding" s.2).

(** The spans that the resolver leaves. *)
Definition resolve_spans (inner : list Span) : list Span :=
  if padded inner then
    match head inner, last (tail inner) with
    | Some first, Some final =>
      as_padding first :: coalesce (middle inner) ++ [as_padding final]
    | _, _ => inner
    end
  else coalesce inner.

(** The tokens after writing those of the spans, one after the other. *)
Definition write_all (spans : list Span) (heap : list Token) : list Token :=
  foldl (fun h (s : Span) => <[s.1 := s.2]> h) heap spans.

(** The tokens as the resolver leaves them. *)
Definition resolve_heap (inner : list Span) (heap : list Token)
    : list Token :=
  if padded inner then
    match head inner, last (tail inner) with
    | Some first, Some final =>
      write_all (coalesce (middle inner))
        (<[first.1 := with_type "mathTextPadding" first.2]>
           (<[final.1 := with_type "mathTextPadding" final.2]> heap))
    | _, _ => heap
    end
  else write_all (coalesce inner) heap.

(** What the specification says of the second part, in its words: every
    maximal run of adjacent spans that are not line endings is one
    [mathTextData] span, from the start of the first span of the run to the
    end of its last span; line endings are left as they are and no run
    crosses one. *)
Definition merged (first : Token) (others : list Token) : Token :=
  {| type := "mathTextData";
     start_ := start_ first;
     end_ := end_ (default first (last others)) |}.

Definition no_run_at (l : list Token) : Prop :=
  match l with
  | [] => True
  | t :: _ => is_line_ending t = true
  end.

Inductive coalesced : list Token -> list Token -> Prop :=
| coalesced_nil : coalesced [] []
| coalesced_line_ending t l l' :
    is_line_ending t = true ->
    coalesced l l' ->
    coalesced (t :: l) (t :: l')
| coalesced_run first others l l' :
    Forall (fun t => is_line_ending t = false) (first :: others) ->
    no_run_at l ->
    coalesced l l' ->
    coalesced (first :: others ++ l) (merged first others :: l').

(** What a reader of the events of a run sees: the tokens of [mathText],
    of the two sequences and of the spans between them. *)
Definition bracketed (outer opening closing : Token) (inner : list Token)
    : list (Phase * option Token) :=
  [(PEnter, Some outer); (PEnter, Some opening); (PExit, Some opening)]
    ++ concat (map (fun t => [(PEnter, Some t); (PExit, Some t)]) inner)
    ++ [(PEnter, Some closing); (PExit, Some closing); (PExit, Some outer)].

(** The spans of the window with the two padding spans around them, when
    the first part applies. *)
Definition with_edges (inner : list Span) (window : list Token)
    : list Token :=
  match head inner, last (tail inner) with
  | Some first, Some final =>
    with_type "mathTextPadding" first.2
      :: window ++ [with_type "mathTextPadding" final.2]
  | _, _ => window
  end.

(** Tokens that follow one another in the heap from the reference [n] on,
    as spans. *)
Fixpoint spans_at (n : nat) (toks : list Token) : list Span :=
  match toks with
  | [] => []
  | t :: toks' => (n, t) :: spans_at (S n) toks'
  end.

(** The context of a run of the text recognizer in the content: after the
    opening sequence and the spans of the tokens [toks], in the state
    [data] with the [mathTextData] token [open], or in the state [between]
    with none. *)
Definition content_context (t_outer t_opening : Token) (toks : list Token)
    (open : option Token) (p : Point) (prev : Code) : TokenizeContext :=
  {| events :=
       [(PEnter, 0); (PEnter, 1); (PExit, 1)]
         ++ flat (map fst (spans_at 2 toks))
         ++ match open with
            | Some _ => [(PEnter, 2 + length toks)]
            | None => []
            end;
     heap :=
       t_outer :: t_opening :: toks
         ++ match open with
            | Some d => [d]
            | None => []
            end;
     stack :=
       match open with
       | Some _ => [2 + length toks; 0]
       | None => [0]
       end;
     now := p;
     previousCode := prev |}.

(** ** Notions used to state further properties *)

(** The codes that effects consume, in order. *)
Fixpoint consumed_codes (es : list Effect) : list Code :=
  match es with
  | [] => []
  | Consume c :: es' => c :: consumed_codes es'
  | _ :: es' => consumed_codes es'
  end.

(** The run after further effects that stand. *)
Definition emit1 (r : Run) (e : Effect) : Run :=
  match e with
  | Enter ty => enter ty r
  | Exit ty => exit ty r
  | Consume (Some x) => consume x r
  | Consume None =>
    {| trace := trace r ++ [e]; lineNo := lineNo r;
       foundClosingBracket := foundClosingBracket r |}
  end.

Definition emit (es : list Effect) (r : Run) : Run := foldl emit1 r es.

(** Only spaces, tabs and virtual spaces among the codes. *)
Definition spaces (cs : list Z) : Prop :=
  Forall (fun x => markdownSpace (Some x) = true) cs.

(** The effects of consuming codes, and those of a token around codes:
    no token is made around no code. *)
Definition consumes (cs : list Z) : list Effect :=
  map (fun x => Consume (Some x)) cs.

Definition token_effects (ty : string) (cs : list Z) : list Effect :=
  match cs with
  | [] => []
  | _ => Enter ty :: consumes cs ++ [Exit ty]
  end.

(** The spaces that a line begins with, [limit - size] of them at most
    (any number without a limit), and the rest of the line. *)
Fixpoint leading (limit : option nat) (size : nat) (cs : list Z)
    : list Z * list Z :=
  match cs with
  | x :: cs' =>
    if markdownSpace (Some x) && under size limit
    then (x :: (leading limit (S size) cs').1, (leading limit (S size) cs').2)
    else ([], cs)
  | [] => ([], [])
  end.

(** A line of the content: the line ending before it and its codes, with
    no line ending and no right square bracket among them. *)
Definition content_line (l : Z * list Z) : Prop :=
  markdownLineEnding (Some l.1) = true
  /\ one_line l.2 /\ codes.rightSquareBracket ∉ l.2.

Definition content_lines (body : list (Z * list Z)) : list Z :=
  concat (map (fun l : Z * list Z => l.1 :: l.2) body).

(** The effects of the flow recognizer over the opening fence (the
    sequence, spaces [ws] and the meta text [m]), over a line of the
    content (of which at most [size] leading spaces are a [linePrefix]),
    and over the closing fence (after the spaces [pre], with the spaces
    [ws] after the sequence). *)
Definition opening_fence_effects (ws m : list Z) : list Effect :=
  [Enter "mathFlow"; Enter "mathFlowFence"; Enter "mathFlowFenceSequence";
   Consume (Some codes.backslash); Consume (Some codes.leftSquareBracket);
   Exit "mathFlowFenceSequence"]
    ++ token_effects types.whitespace ws
    ++ match m with
       | [] => []
       | _ =>
         Enter "mathFlowFenceMeta" :: token_effects types.chunkString m
           ++ [Exit "mathFlowFenceMeta"]
       end
    ++ [Exit "mathFlowFence"].

Definition line_ending_effects (e : Z) : list Effect :=
  [Enter types.lineEnding; Consume (Some e); Exit types.lineEnding].

Definition content_line_effects (size : nat) (l : Z * list Z)
    : list Effect :=
  line_ending_effects l.1
    ++ token_effects types.linePrefix (leading (Some size) 0 l.2).1
    ++ token_effects "mathFlowValue" (leading (Some size) 0 l.2).2.

Definition closing_fence_effects (e : Z) (pre ws : list Z) : list Effect :=
  line_ending_effects e
    ++ token_effects types.linePrefix pre
    ++ [Enter "mathFlowFence"; Enter "mathFlowFenceSequence";
        Consume (Some codes.backslash);
        Consume (Some codes.rightSquareBracket);
        Exit "mathFlowFenceSequence"]
    ++ token_effects types.whitespace ws
    ++ [Exit "mathFlowFence"].

(** Effects that consume no line ending. *)
Definition no_line_ending (es : list Effect) : Prop :=
  Forall (fun e => match e with
                   | Consume (Some x) => markdownLineEnding (Some x) = false
                   | _ => True
                   end) es.

(** [kept I k]: a run that reaches the state [k] at a position and in a
    condition that [I] holds of, and ends in [ok], ends at a position and
    in a condition that [I] holds of. *)
Definition kept (I : list Z -> Run -> Prop) (k : FlowState) : Prop :=
  forall input r input' r',
    I input r -> k input r = FOk input' r' -> I input' r'.

(** The effects that stand have consumed the codes of [whole] before
    [input]. *)
Definition consumed_so_far (whole input : list Z) (r : Run) : Prop :=
  map Some whole = consumed_codes (trace r) ++ map Some input.

(** The tokens are as many as they were and start where they did. *)
Definition same_starts (heap heap' : list Token) : Prop :=
  map start_ heap' = map start_ heap.

(** A run ends well when, if it ends in [ok], it does so at the end of a
    line, and when it ends in a failed assertion only if [throws] allows
    it. *)
Definition ends_well (throws : bool) (res : FlowResult) : Prop :=
  match res with
  | FOk input _ => at_eol input
  | FThrow => throws = true
  | _ => True
  end.

(** The runs from the state [k] end well: wherever it is called, or when
    it is called at the end of a line. *)
Definition anywhere (throws : bool) (k : FlowState) : Prop :=
  forall input r, ends_well throws (k input r).

Definition at_line_end (throws : bool) (k : FlowState) : Prop :=
  forall input r, at_eol input -> ends_well throws (k input r).

(** The point after codes, from the point [p]. *)
Definition point_after (p : Point) (content : list Z) : Point :=
  foldl (fun q x => advance (Some x) q) p content.

(** The tokens of content without a backslash, from the point [p] on: a
    token for each space and each line ending, and one [mathTextData]
    token for the codes between them; [open] is the [mathTextData] token
    that is open, if one is. *)
Fixpoint content_tokens (open : option Token) (p : Point) (content : list Z)
    : list Token :=
  let leave := match open with
               | Some d => [close_at p d]
               | None => []
               end in
  match content with
  | [] => leave
  | x :: rest =>
    if (x =? codes.space)%Z then
      leave ++ {| type := "space"; start_ := p;
                  end_ := Some (advance (Some x) p) |}
            :: content_tokens None (advance (Some x) p) rest
    else if markdownLineEnding (Some x) then
      leave ++ {| type := types.lineEnding; start_ := p;
                  end_ := Some (advance (Some x) p) |}
            :: content_tokens None (advance (Some x) p) rest
    else
      content_tokens
        (Some match open with
              | Some d => d
              | None => {| type := "mathTextData"; start_ := p;
                           end_ := None |}
              end)
        (advance (Some x) p) rest
  end.
(** ** Notions used to state what happens at the end of the input *)

(** [reaches self s found chunks s' found' chunks']: the run of the text
    recognizer that calls the state [s] with the chunks [chunks] left (and
    with [found] the closure variable) comes to call the state [s'] with
    the chunks [chunks'] left. As in [run], a state that returns a state
    moves the position on by the number of codes it consumed. *)
Inductive reaches (self : TokenizeContext)
    : TextState -> bool -> list Code -> TextState -> bool -> list Code
      -> Prop :=
| reaches_here s found chunks :
    reaches self s found chunks s found chunks
| reaches_next s found code chunks es found' s' s'' found'' chunks'' :
    step self s found code = (es, found', Goto s') ->
    reaches self s' found' (drop (consumed es) (code :: chunks))
            s'' found'' chunks'' ->
    reaches self s found (code :: chunks) s'' found'' chunks''.

(** A line of [whole] after the first begins, after spaces, with the
    closing sequence: a line ending, spaces, a backslash and a right square
    bracket follow one another in [whole]. *)
Definition fence_seen (whole : list Z) : Prop :=
  exists before e sp rest,
    whole
    = before ++ e :: sp
        ++ codes.backslash :: codes.rightSquareBracket :: rest
    /\ markdownLineEnding (Some e) = true
    /\ spaces sp.

(** The closure variable [foundClosingBracket] is set only if a line of
    [whole] begins with the closing sequence. *)
Definition flag_sound (whole : list Z) (r : Run) : Prop :=
  foundClosingBracket r = true -> fence_seen whole.

Definition flag_kept (whole : list Z) (res : FlowResult) : Prop :=
  match res with
  | FOk _ r => flag_sound whole r
  | _ => True
  end.

(** [input] is what is left of [whole] after a line ending and spaces, or
    nothing is left. *)
Definition line_start (whole input : list Z) : Prop :=
  input = []
  \/ exists before e sp,
       whole = before ++ e :: sp ++ input
       /\ markdownLineEnding (Some e) = true
       /\ spaces sp.

(** The runs from the state [k] keep [flag_sound]: wherever in [whole] it
    is called, when it is called at the start of a line, and whatever the
    position is (as for the state that a failed attempt goes on in, which
    goes back to where the attempt started). *)
Definition sound (whole : list Z) (k : FlowState) : Prop :=
  forall input r,
    input `suffix_of` whole -> flag_sound whole r ->
    flag_kept whole (k input r).

Definition sound_at_line_start (whole : list Z) (k : FlowState) : Prop :=
  forall input r,
    line_start whole input -> flag_sound whole r ->
    flag_kept whole (k input r).

Definition sound_on_failure (whole : list Z) (k : FlowState) : Prop :=
  forall input r, flag_sound whole r -> flag_kept whole (k input r).

(** * Properties *)

(** ** The text recognizer *)

(** The chain of direct calls is never longer than three
    ([closeParenthesis] calls [data], which calls [between]). *)
Lemma call_depth (d : nat) self s found code :
  call (3 + d) self s found code = call 3 self s found code.
Proof.
  destruct s, code as [x|]; cbn; try reflexivity;
    unfold code_is, markdownLineEnding, is_eof; cbn;
    repeat (case_match; cbn in *; try reflexivity; try congruence).
Qed.

(** Every state but [start] returns [nok] when it is called at the end of
    the input. *)
Lemma step_eof self s found :
  s <> start -> (step self s found codes.eof).2 = Nok.
Proof. intros Hs. destruct s, found; try reflexivity; congruence. Qed.

(** [start] asserts that it is called with a backslash. *)
Lemma start_asserts_backslash self found code :
  code <> Some codes.backslash -> (step self start found code).2 = Throw.
Proof.
  intros Hc. unfold step; cbn.
  destruct code as [x|]; cbn; [|reflexivity].
  destruct (Z.eqb_spec x codes.backslash); [congruence | reflexivity].
Qed.

(** A run whose next code is the end of the input ends in [nok]. *)
Lemma run_eof fuel self s found rest :
  s <> start -> (run (S fuel) self s found (codes.eof :: rest)).1.2 = Rejected.
Proof.
  intros Hs. cbn [run].
  pose proof (step_eof self s found Hs) as H.
  destruct (step self s found codes.eof) as [[es f'] nx]. cbn in H. subst nx.
  reflexivity.
Qed.

(** ** The flow recognizer *)

Lemma opens_app es1 es2 open :
  opens (es1 ++ es2) open =
  match opens es1 open with
  | Some open' => opens es2 open'
  | None => None
  end.
Proof.
  revert open. induction es1 as [|e es1 IH]; intros open; [reflexivity|].
  destruct e; cbn; auto.
  destruct open as [|top open']; [reflexivity|].
  destruct (String.eqb ty top); auto.
Qed.

Lemma open_types_enter S ty r :
  open_types S r -> open_types (ty :: S) (enter ty r).
Proof. unfold open_types; cbn. rewrite opens_app. by intros ->. Qed.

Lemma open_types_exit S ty r :
  open_types (ty :: S) r -> open_types S (exit ty r).
Proof.
  unfold open_types; cbn. rewrite opens_app. intros ->; cbn.
  by rewrite String.eqb_refl.
Qed.

Lemma open_types_consume S x r :
  open_types S r -> open_types S (consume x r).
Proof. unfold open_types; cbn. rewrite opens_app. by intros ->. Qed.

(** Conclude from a fact [holds I Q S k] (or [settled Q k]) about the state
    that goes on, once the equation of its run is the last premise. *)
Ltac goes_on fact :=
  let H := fresh "Hrun" in
  intros H; eapply fact; [.. | exact H]; eauto.

(** The states preserve any condition on runs that follows the open types. *)
Section Flow.
Context (self : FlowContext).
Context (I : list string -> Run -> Prop) (Q : list Z -> Run -> Prop).
Hypothesis I_enter : forall S ty r, I S r -> I (ty :: S) (enter ty r).
Hypothesis I_exit : forall S ty r, I (ty :: S) r -> I S (exit ty r).
Hypothesis I_consume : forall S x r, I S r -> I S (consume x r).
Hypothesis I_found_it : forall S r, I S r -> I S (found_it r).
Hypothesis I_restore : forall S r r', I S r -> I S (restore r r').
Hypothesis Q_after : holds I Q ["mathFlow"] after.

Lemma holds_prefix S k ty limit size :
  holds I Q S k -> holds I Q (ty :: S) (prefix k ty limit size).
Proof.
  intros Hk input. revert size.
  induction input as [|x input IH]; intros size r input' r' Hr; cbn.
  - goes_on Hk.
  - destruct (markdownSpace (Some x) && under size limit).
    + goes_on IH.
    + goes_on Hk.
Qed.

Lemma holds_factorySpace S k ty max :
  holds I Q S k -> holds I Q S (factorySpace k ty max).
Proof.
  intros Hk input r input' r' Hr. unfold factorySpace.
  destruct (markdownSpace (peek input)).
  - goes_on holds_prefix.
  - goes_on Hk.
Qed.

Lemma holds_attempt S tokenize returnState bogusState :
  (forall ok nok,
      holds I Q S ok -> settled Q nok -> holds I Q S (tokenize ok nok)) ->
  holds I Q S returnState -> holds I Q S bogusState ->
  holds I Q S (attempt tokenize returnState bogusState).
Proof.
  intros Htok Hret Hbogus input r input' r' Hr. unfold attempt.
  goes_on Htok.
  intros i1 r1 i2 r2. goes_on Hbogus.
Qed.

Lemma holds_tokenizeNonLazyContinuation S ok nok :
  holds I Q S ok -> settled Q nok ->
  holds I Q S (tokenizeNonLazyContinuation self ok nok).
Proof.
  intros Hok Hnok input r input' r' Hr.
  unfold tokenizeNonLazyContinuation, nonLazyContinuation_start, lineStart.
  destruct input as [|x rest]; [goes_on Hok|].
  destruct (negb (markdownLineEnding (Some x))); [discriminate|].
  destruct (lazy self _).
  - goes_on Hnok.
  - goes_on Hok.
Qed.

Lemma holds_afterSequenceClose S ok nok :
  holds I Q S ok -> settled Q nok ->
  holds I Q ("mathFlowFence" :: S) (afterSequenceClose ok nok).
Proof.
  intros Hok Hnok input r input' r' Hr. unfold afterSequenceClose.
  destruct (is_eof (peek input) || markdownLineEnding (peek input)).
  - goes_on Hok.
  - goes_on Hnok.
Qed.

Lemma holds_sequenceClose S ok nok foundBackslash :
  holds I Q S ok -> settled Q nok ->
  holds I Q ("mathFlowFenceSequence" :: "mathFlowFence" :: S)
        (sequenceClose ok nok foundBackslash).
Proof.
  intros Hok Hnok input. revert foundBackslash.
  induction input as [|x input IH]; intros fb r input' r' Hr; cbn.
  - goes_on Hnok.
  - destruct ((x =? codes.backslash)%Z && negb fb).
    + goes_on IH.
    + destruct ((x =? codes.rightSquareBracket)%Z && fb).
      * goes_on holds_factorySpace. apply holds_afterSequenceClose; auto.
      * goes_on Hnok.
Qed.

Lemma holds_beforeSequenceClose S ok nok :
  holds I Q S ok -> settled Q nok ->
  holds I Q S (beforeSequenceClose ok nok).
Proof.
  intros Hok Hnok input r input' r' Hr. unfold beforeSequenceClose.
  goes_on holds_sequenceClose.
Qed.

Lemma holds_tokenizeClosingFence S ok nok :
  holds I Q S ok -> settled Q nok ->
  holds I Q S (tokenizeClosingFence self ok nok).
Proof.
  intros Hok Hnok input r input' r' Hr. unfold tokenizeClosingFence.
  destruct (disable_null self) as [disabled|]; [|discriminate].
  goes_on holds_factorySpace. apply holds_beforeSequenceClose; auto.
Qed.

Lemma holds_contentChunk S k :
  holds I Q S k -> holds I Q ("mathFlowValue" :: S) (contentChunk k).
Proof.
  intros Hk input.
  induction input as [|x input IH]; intros r input' r' Hr; cbn.
  - goes_on Hk.
  - destruct (markdownLineEnding (Some x)).
    + goes_on Hk.
    + goes_on IH.
Qed.

Lemma holds_contentStart S k :
  holds I Q S k -> holds I Q S (contentStart self k).
Proof.
  intros Hk input r input' r' Hr. unfold contentStart.
  destruct (initialSize self).
  - goes_on Hk.
  - goes_on holds_factorySpace.
Qed.

Lemma holds_beforeNonLazyContinuation k :
  holds I Q ["mathFlow"] k ->
  holds I Q ["mathFlow"] (beforeNonLazyContinuation self k).
Proof.
  intros Hk. unfold beforeNonLazyContinuation.
  apply holds_attempt; auto using holds_contentStart.
  intros ok nok. apply holds_tokenizeClosingFence.
Qed.

Lemma holds_beforeContentChunk fuel :
  holds I Q ["mathFlow"] (beforeContentChunk fuel self).
Proof.
  induction fuel as [|f IH]; intros input r input' r' Hr; cbn; [discriminate|].
  destruct (is_eof (peek input)); [goes_on Q_after|].
  destruct (markdownLineEnding (peek input)).
  - goes_on holds_attempt; auto using holds_beforeNonLazyContinuation.
    intros ok nok. apply holds_tokenizeNonLazyContinuation.
  - goes_on holds_contentChunk.
Qed.

(** After the opening fence, when the construct does not interrupt. *)
Lemma holds_metaAfter fuel :
  interrupt self = false ->
  holds I Q ["mathFlowFence"; "mathFlow"] (metaAfter fuel self).
Proof.
  intros Hint input r input' r' Hr. unfold metaAfter. rewrite Hint.
  goes_on holds_attempt;
    auto using holds_beforeNonLazyContinuation, holds_beforeContentChunk.
  intros ok nok. apply holds_tokenizeNonLazyContinuation.
Qed.

Lemma holds_meta S k :
  holds I Q S k ->
  holds I Q (types.chunkString :: "mathFlowFenceMeta" :: S) (meta k).
Proof.
  intros Hk input.
  induction input as [|x input IH]; intros r input' r' Hr; cbn.
  - goes_on Hk.
  - destruct (markdownLineEnding (Some x)); [goes_on Hk|].
    destruct (x =? codes.rightSquareBracket)%Z; [discriminate|].
    goes_on IH.
Qed.

Lemma holds_metaBefore S k :
  holds I Q S k -> holds I Q S (metaBefore k).
Proof.
  intros Hk input r input' r' Hr. unfold metaBefore.
  destruct (is_eof (peek input) || markdownLineEnding (peek input)).
  - goes_on Hk.
  - goes_on holds_meta.
Qed.

(** The opening fence, up to the state [metaAfter]. *)
Lemma holds_flow_start k :
  holds I Q ["mathFlowFence"; "mathFlow"] k -> holds I Q [] (flow_start k).
Proof.
  intros Hk input r input' r' Hr. unfold flow_start, openBracket.
  destruct input as [|x input]; [discriminate|].
  destruct (x =? codes.backslash)%Z; [|discriminate].
  destruct input as [|y input]; [discriminate|].
  destruct (y =? codes.leftSquareBracket)%Z; [|discriminate].
  goes_on holds_factorySpace.
  - apply holds_metaBefore, Hk.
  - auto 10.
Qed.
End Flow.

Lemma line_ending_is_no_space x :
  markdownLineEnding (Some x) = true -> markdownSpace (Some x) = false.
Proof.
  unfold markdownLineEnding, markdownSpace, code_is, codes.horizontalTab,
    codes.virtualSpace, codes.space.
  intros H%Z.ltb_lt.
  rewrite !orb_false_iff, !Z.eqb_neq. lia.
Qed.

(** A [ ] ] on the opening line, after the leading spaces, ends the run of
    [meta] in [nok]. *)
Lemma meta_rejects k pre rest r :
  one_line pre ->
  meta k (pre ++ codes.rightSquareBracket :: rest) r = FNok.
Proof.
  intros Hpre. revert r.
  induction Hpre as [|x pre Hx Hpre IH]; intros r; cbn.
  - reflexivity.
  - rewrite Hx. destruct (x =? codes.rightSquareBracket)%Z; auto.
Qed.

Lemma metaBefore_rejects k pre rest r :
  one_line pre ->
  metaBefore k (pre ++ codes.rightSquareBracket :: rest) r = FNok.
Proof.
  intros Hpre. unfold metaBefore.
  destruct pre as [|x pre]; cbn.
  - reflexivity.
  - inversion Hpre as [|? ? Hx Hpre']; subst. rewrite Hx; cbn.
    destruct (x =? codes.rightSquareBracket)%Z; [reflexivity|].
    by apply meta_rejects.
Qed.

Lemma prefix_metaBefore_rejects k ty limit size pre rest r :
  one_line pre ->
  prefix (metaBefore k) ty limit size
         (pre ++ codes.rightSquareBracket :: rest) r = FNok.
Proof.
  intros Hpre. revert size r.
  induction Hpre as [|x pre Hx Hpre IH]; intros size r.
  - cbn. reflexivity.
  - cbn [app prefix].
    destruct (markdownSpace (Some x) && under size limit); [apply IH|].
    apply (metaBefore_rejects k (x :: pre)). by constructor.
Qed.

(** On the opening line, without a [ ] ], the run goes on in [metaAfter]
    at the end of the line. *)
Lemma meta_line k pre rest r :
  one_line pre -> codes.rightSquareBracket ∉ pre -> at_eol rest ->
  exists r', meta k (pre ++ rest) r = k rest r'
             /\ foundClosingBracket r' = foundClosingBracket r.
Proof.
  intros Hpre. revert r.
  induction Hpre as [|x pre Hx Hpre IH]; intros r Hno Heol.
  - cbn [app]. unfold at_eol in Heol.
    destruct rest as [|y rest]; cbn in *; [eauto|].
    rewrite Heol. eauto.
  - cbn. rewrite Hx.
    destruct (Z.eqb_spec x codes.rightSquareBracket) as [->|Hne].
    + exfalso. apply Hno. by left.
    + destruct (IH (consume x r)) as (r' & Heq & Hf); [by intros ?; apply Hno; right | done |].
      exists r'. by rewrite Heq.
Qed.

Lemma metaBefore_line k pre rest r :
  one_line pre -> codes.rightSquareBracket ∉ pre -> at_eol rest ->
  exists r', metaBefore k (pre ++ rest) r = k rest r'
             /\ foundClosingBracket r' = foundClosingBracket r.
Proof.
  intros Hpre Hno Heol. unfold metaBefore.
  destruct pre as [|x pre].
  - cbn [app]. unfold at_eol in Heol. rewrite Heol. eauto.
  - inversion Hpre as [|? ? Hx Hpre']; subst. cbn [app peek head is_eof].
    rewrite Hx. cbn [orb].
    destruct (meta_line k (x :: pre) rest
                (enter types.chunkString (enter "mathFlowFenceMeta" r)))
      as (r' & Heq & Hf); auto.
    exists r'. split; [exact Heq | by rewrite Hf].
Qed.

Lemma prefix_metaBefore_line k ty size pre rest r :
  one_line pre -> codes.rightSquareBracket ∉ pre -> at_eol rest ->
  exists r', prefix (metaBefore k) ty None size (pre ++ rest) r = k rest r'
             /\ foundClosingBracket r' = foundClosingBracket r.
Proof.
  intros Hpre. revert size r.
  induction Hpre as [|x pre Hx Hpre IH]; intros size r Hno Heol.
  - cbn [app]. destruct rest as [|y rest]; cbn [prefix].
    + destruct (metaBefore_line k [] [] (exit ty r)) as (r' & Heq & Hf);
        auto; [constructor|].
      exists r'. split; [exact Heq | by rewrite Hf].
    + assert (markdownSpace (Some y) = false) as ->.
      { apply line_ending_is_no_space. unfold at_eol in Heol. by cbn in Heol. }
      cbn [andb].
      destruct (metaBefore_line k [] (y :: rest) (exit ty r))
        as (r' & Heq & Hf); auto; [constructor|].
      exists r'. split; [exact Heq | by rewrite Hf].
  - cbn [app prefix].
    destruct (markdownSpace (Some x) && under size None).
    + destruct (IH (S size) (consume x r)) as (r' & Heq & Hf);
        [by intros ?; apply Hno; right | done |].
      exists r'. by rewrite Heq.
    + destruct (metaBefore_line k (x :: pre) rest (exit ty r))
        as (r' & Heq & Hf); auto; [by constructor|].
      exists r'. split; [exact Heq | by rewrite Hf].
Qed.

Lemma factorySpace_metaBefore_line k ty pre rest r :
  one_line pre -> codes.rightSquareBracket ∉ pre -> at_eol rest ->
  exists r', factorySpace (metaBefore k) ty None (pre ++ rest) r = k rest r'
             /\ foundClosingBracket r' = foundClosingBracket r.
Proof.
  intros Hpre Hno Heol. unfold factorySpace.
  destruct (markdownSpace (peek (pre ++ rest))).
  - destruct (prefix_metaBefore_line k ty 0 pre rest (enter ty r))
      as (r' & Heq & Hf); auto.
    exists r'. by rewrite Heq.
  - by apply metaBefore_line.
Qed.

(** C8. On the opening line of the flow construct, a [ ] ] anywhere after
    the opening sequence [\[] ends the run in [nok]: the whole construct is
    rejected. *)
Theorem meta_rejects_right_square_bracket self pre rest :
  one_line pre ->
  tokenizeMathBracketFlow self
    (codes.backslash :: codes.leftSquareBracket
       :: pre ++ codes.rightSquareBracket :: rest) = FNok.
Proof.
  intros Hpre. unfold tokenizeMathBracketFlow, flow_start, openBracket.
  cbn [Z.eqb codes.backslash codes.leftSquareBracket Pos.eqb].
  unfold factorySpace.
  destruct (markdownSpace _).
  - by apply prefix_metaBefore_rejects.
  - by apply metaBefore_rejects.
Qed.

(** The opening line [\[has]bracket]. *)
Lemma meta_rejects_right_square_bracket_witness :
  one_line [104; 97; 115]%Z /\
  tokenizeMathBracketFlow
    {| context := fresh {| line := 1; column := 1; offset := 0 |} None;
       interrupt := false; lazy := fun _ => false;
       disable_null := Some []; sliceSerialize := fun _ => "" |}
    ([92; 91] ++ [104; 97; 115] ++ 93 :: [98; 114; 97; 99; 107; 101; 116])%Z
  = FNok.
Proof.
  assert (one_line [104; 97; 115]%Z) as H by (repeat constructor).
  split; [exact H|].
  exact (meta_rejects_right_square_bracket _ _ _ H).
Defined.

(** C9. When the flow construct interrupts ([self.interrupt]), the run ends
    in [ok] at the end of the opening line, at the line ending or the end
    of the input, whatever follows: nothing after the line is read and no
    closing fence has been found. *)
Theorem interrupt_accepts_after_opening_line self pre rest :
  interrupt self = true ->
  one_line pre -> codes.rightSquareBracket ∉ pre -> at_eol rest ->
  exists r,
    tokenizeMathBracketFlow self
      (codes.backslash :: codes.leftSquareBracket :: pre ++ rest) = FOk rest r
    /\ foundClosingBracket r = false.
Proof.
  intros Hint Hpre Hno Heol.
  unfold tokenizeMathBracketFlow, flow_start, openBracket.
  cbn [Z.eqb codes.backslash codes.leftSquareBracket Pos.eqb].
  match goal with
  | |- context [factorySpace (metaBefore ?k) ?ty None _ ?r] =>
    destruct (factorySpace_metaBefore_line k ty pre rest r)
      as (r' & Heq & Hf); auto
  end.
  rewrite Heq. unfold metaAfter. rewrite Hint.
  eexists. split; [reflexivity|]. exact Hf.
Qed.

(** An opening line [\[x] that interrupts, before a line [y] and nothing
    else. *)
Lemma interrupt_accepts_after_opening_line_witness :
  exists r,
    tokenizeMathBracketFlow
      {| context := fresh {| line := 1; column := 1; offset := 0 |} None;
         interrupt := true; lazy := fun _ => false;
         disable_null := Some []; sliceSerialize := fun _ => "" |}
      ([92; 91] ++ [120] ++ [-4; 121])%Z
    = FOk [-4; 121]%Z r
    /\ foundClosingBracket r = false.
Proof.
  apply (interrupt_accepts_after_opening_line
           {| context := fresh {| line := 1; column := 1; offset := 0 |} None;
              interrupt := true; lazy := fun _ => false;
              disable_null := Some []; sliceSerialize := fun _ => "" |}
           [120]%Z [-4; 121]%Z).
  - reflexivity.
  - repeat constructor.
  - intros H. apply list_elem_of_In in H. cbn in H. intuition discriminate.
  - reflexivity.
Defined.

(** ** Runs of the text recognizer *)

(** Over content without a backslash, up to the closing sequence, the
    effects are those of [content_effects], and the run ends in [ok] right
    after the closing sequence. *)
Lemma run_content self content :
  codes.backslash ∉ content ->
  forall (in_data : bool) found rest fuel,
    length content + 2 <= fuel ->
    run fuel self (if in_data then data else between) found
        (map Some content
           ++ Some codes.backslash :: Some codes.rightParenthesis :: rest)
    = (content_effects in_data content ++ closing_effects, Accepted, rest).
Proof.
  induction content as [|x content IH]; intros Hno in_data found rest fuel Hfuel.
  - destruct fuel as [|[|fuel]]; cbn in Hfuel; try lia.
    destruct in_data; reflexivity.
  - apply not_elem_of_cons in Hno as [Hx Hno].
    destruct fuel as [|fuel]; cbn in Hfuel; [lia|].
    specialize (IH Hno).
    assert ((x =? codes.backslash)%Z = false) as Hb
      by (apply Z.eqb_neq; congruence).
    clear Hx; rename Hb into Hx.
    cbn [map app run]. unfold step.
    destruct in_data; cbn [call is_eof code_is orb negb before fst snd];
      rewrite Hx; cbn [orb];
      destruct (x =? codes.space)%Z eqn:Hs; cbn [orb].
    all: try destruct (markdownLineEnding (Some x)) eqn:Hle; cbn [orb].
    all: cbn [call is_eof code_is orb negb before fst snd app consumed
              is_consume Nat.add skipn].
    all: try rewrite Hx; try rewrite Hs; try rewrite Hle; cbn [orb].
    all: cbn [call is_eof code_is orb negb before fst snd app consumed
              is_consume Nat.add skipn].
    all: rewrite drop_0.
    all: first [rewrite (IH true found rest fuel) by lia
               | rewrite (IH false found rest fuel) by lia].
    all: cbn [content_effects]; rewrite Hs; try rewrite Hle.
    all: rewrite <- ?app_assoc; reflexivity.
Qed.

Lemma run_Goto fuel self s found code chunks es found' s' :
  step self s found code = (es, found', Goto s') ->
  run (S fuel) self s found (code :: chunks)
  = (let '(t, o, rest) :=
       run fuel self s' found' (drop (consumed es) (code :: chunks)) in
     (es ++ t, o, rest)).
Proof. intros H. cbn [run]. rewrite H. reflexivity. Qed.

(** The run over [\(], content without a backslash, and [\)]. *)
Lemma tokenize_content self content rest :
  previous self (previousCode self) = Some true ->
  codes.backslash ∉ content ->
  tokenizeParensMathText self
    (Some codes.backslash :: Some codes.leftParenthesis
       :: map Some content
       ++ Some codes.backslash :: Some codes.rightParenthesis :: rest)
  = (opening_effects ++ content_effects false content ++ closing_effects,
     Accepted, rest).
Proof.
  intros Hprev Hno. unfold tokenizeParensMathText.
  cbn [length].
  erewrite run_Goto; cycle 1.
  { unfold step. cbn. rewrite Hprev. reflexivity. }
  cbn [consumed is_consume Nat.add skipn].
  erewrite run_Goto; cycle 1.
  { reflexivity. }
  cbn [consumed is_consume Nat.add skipn].
  rewrite (run_content self content Hno false false rest).
  - reflexivity.
  - rewrite length_app, length_map. cbn. lia.
Qed.

Lemma opens_content content :
  forall (in_data : bool) S,
    opens (content_effects in_data content)
          ((if in_data then ["mathTextData"] else []) ++ S) = Some S.
Proof.
  induction content as [|x content IH]; intros in_data S.
  - destruct in_data; reflexivity.
  - cbn [content_effects].
    destruct (x =? codes.space)%Z; [|destruct (markdownLineEnding (Some x))];
      destruct in_data; cbn; first [apply (IH false S) | apply (IH true S)].
Qed.

Lemma well_nested_content content :
  well_nested (opening_effects ++ content_effects false content
                 ++ closing_effects) = true.
Proof.
  unfold well_nested. rewrite opens_app.
  change (opens opening_effects []) with (Some ["mathText"]).
  cbv beta iota. rewrite opens_app.
  pose proof (opens_content content false ["mathText"]) as H. cbn in H.
  rewrite H. reflexivity.
Qed.

(** *** Every run that ends in [ok] *)

Lemma emitted_app es1 es2 : emitted (es1 ++ es2) = emitted es1 + emitted es2.
Proof. induction es1 as [|e es1 IH]; cbn; [done | rewrite IH; lia]. Qed.

Lemma depth_after_app es1 es2 d :
  depth_after (es1 ++ es2) d =
  match depth_after es1 d with
  | Some d' => depth_after es2 d'
  | None => None
  end.
Proof.
  revert d. induction es1 as [|e es1 IH]; intros d; [reflexivity|].
  destruct e; cbn; auto. destruct d; auto.
Qed.

(** What one call of a state adds to the events, and leaves open. *)
Lemma step_need self s found code es found' next :
  step self s found code = (es, found', next) ->
  match next with
  | Goto s' => need s <= emitted es + need s'
  | Ok => need s <= emitted es
  | _ => True
  end.
Proof.
  destruct s, code as [x|]; unfold step; cbn;
    unfold code_is, markdownLineEnding, is_eof; cbn;
    repeat (case_match; cbn in *; try congruence);
    intros; unfold before in *; cbn in *; simplify_eq; cbn; lia.
Qed.

Lemma step_depth self s found code es found' next base :
  step self s found code = (es, found', next) ->
  match next with
  | Goto s' => depth_after es (base + depth s) = Some (base + depth s')
  | _ => is_Some (depth_after es (base + depth s))
  end.
Proof.
  destruct s, code as [x|]; unfold step; cbn;
    unfold code_is, markdownLineEnding, is_eof; cbn;
    repeat (case_match; cbn in *; try congruence);
    intros; unfold before in *; cbn in *; simplify_eq; cbn;
    rewrite ?Nat.add_0_r, ?Nat.add_1_r, ?Nat.add_succ_r; cbn; eauto.
Qed.

Lemma run_need self fuel :
  forall s found chunks t rest,
    run fuel self s found chunks = (t, Accepted, rest) ->
    need s <= emitted t.
Proof.
  induction fuel as [|fuel IH]; intros s found chunks t rest; cbn [run];
    [congruence|].
  destruct chunks as [|code chunks]; [congruence|].
  destruct (step self s found code) as [[es found'] next] eqn:Hstep.
  apply step_need in Hstep.
  destruct next as [s'| | |]; try congruence.
  destruct (run fuel self s' found' _) as [[t' o'] rest'] eqn:Hrun.
  intros [= <- -> <-]. apply IH in Hrun. rewrite emitted_app. lia.
Qed.

Lemma run_depth self fuel :
  forall s found chunks t o rest base,
    run fuel self s found chunks = (t, o, rest) ->
    is_Some (depth_after t (base + depth s)).
Proof.
  induction fuel as [|fuel IH]; intros s found chunks t o rest base; cbn [run].
  - intros [= <- <- <-]. cbn. eauto.
  - destruct chunks as [|code chunks]; [intros [= <- <- <-]; cbn; eauto|].
    destruct (step self s found code) as [[es found'] next] eqn:Hstep.
    apply (step_depth _ _ _ _ _ _ _ base) in Hstep.
    destruct next as [s'| | |]; try (intros [= <- <- <-]; exact Hstep).
    destruct (run fuel self s' found' _) as [[t' o'] rest'] eqn:Hrun.
    intros [= <- <- <-]. rewrite depth_after_app, Hstep.
    eapply IH, Hrun.
Qed.

(** *** The events of the effects *)

Lemma effects_defined es :
  forall c d,
    depth_after es (length (stack c)) = Some d ->
    exists c', effects c es = Some c' /\ length (stack c') = d.
Proof.
  induction es as [|e es IH]; intros c d; cbn.
  - intros [= <-]. eauto.
  - destruct e; cbn.
    + intros H. apply IH. exact H.
    + intros H. apply IH. exact H.
    + destruct (stack c) as [|tok st] eqn:Hst; cbn; [congruence|].
      intros H. apply IH. exact H.
Qed.

Lemma effects_events es :
  forall c c',
    effects c es = Some c' ->
    length (events c') = length (events c) + emitted es.
Proof.
  induction es as [|e es IH]; intros c c'; cbn.
  - intros [= <-]. lia.
  - destruct (effect c e) as [c1|] eqn:He; [|congruence].
    intros H. rewrite (IH _ _ H).
    destruct e; cbn in He.
    + injection He as <-. cbn. rewrite length_app. cbn. lia.
    + injection He as <-. cbn. lia.
    + destruct (stack c); [congruence|]. injection He as <-. cbn.
      rewrite length_app. cbn. lia.
Qed.

Lemma effect_refers c e c' : effect c e = Some c' -> refers c -> refers c'.
Proof.
  unfold refers. destruct e; cbn.
  - intros [= <-] [He Hs]; cbn. rewrite length_app; cbn.
    split; [apply Forall_app; split|constructor].
    + eapply Forall_impl; [exact He|]. cbn. intros; lia.
    + repeat constructor. cbn. lia.
    + lia.
    + eapply Forall_impl; [exact Hs|]. cbn. intros; lia.
  - intros [= <-] H; exact H.
  - destruct (stack c) as [|tok st] eqn:Hst; [congruence|].
    intros [= <-] [He Hs]; cbn. rewrite length_alter.
    inversion Hs; subst.
    split; [apply Forall_app; split|]; auto.
Qed.

Lemma effects_refers es :
  forall c c', effects c es = Some c' -> refers c -> refers c'.
Proof.
  induction es as [|e es IH]; intros c c'; cbn.
  - by intros [= <-].
  - destruct (effect c e) as [c1|] eqn:He; [|congruence].
    intros H Hc. eapply IH; [exact H|]. eapply effect_refers; eauto.
Qed.

Lemma type_at_defined c i :
  refers c -> (0 <= i < Z.of_nat (length (events c)))%Z ->
  is_Some (type_at (events c) (heap c) i).
Proof.
  intros [He _] Hi. unfold type_at, token_at, event_at.
  destruct (Z.ltb_spec i 0); [lia|].
  destruct (lookup_lt_is_Some_2 (events c) (Z.to_nat i)) as [[ph tok] Hev];
    [lia|].
  rewrite Hev.
  eapply Forall_lookup_1 in He; [|exact Hev]. cbn in He.
  destruct (lookup_lt_is_Some_2 (heap c) tok He) as [t Ht].
  rewrite Ht. eauto.
Qed.

(** C10. A run of the text recognizer that ends in [ok] has added at least
    six events, so that the reads of the resolver at the indices [3] and
    [length - 4] of its events find an event and its token. *)
Theorem accepted_run_has_six_events self chunks p prev :
  (tokenizeParensMathText self chunks).1.2 = Accepted ->
  exists c,
    effects (fresh p prev) (tokenizeParensMathText self chunks).1.1 = Some c
    /\ 6 <= length (events c)
    /\ is_Some (type_at (events c) (heap c) 3)
    /\ is_Some (type_at (events c) (heap c)
                        (Z.of_nat (length (events c)) - 4)).
Proof.
  unfold tokenizeParensMathText.
  destruct (run _ self start false chunks) as [[t o] rest] eqn:Hrun.
  cbn [fst snd]. intros ->.
  pose proof (run_need _ _ _ _ _ _ _ Hrun) as Hneed.
  destruct (run_depth _ _ _ _ _ _ _ _ 0 Hrun) as [d Hd].
  destruct (effects_defined t (fresh p prev) d Hd) as (c & Hc & _).
  pose proof (effects_events _ _ _ Hc) as Hlen. cbn in Hlen, Hneed.
  assert (refers c) as Href.
  { eapply effects_refers; [exact Hc|]. split; constructor. }
  exists c. split; [exact Hc|]. split; [lia|].
  split; apply type_at_defined; auto; lia.
Qed.

(** The run over [\(a\)]. *)
Lemma accepted_run_has_six_events_witness :
  exists c,
    effects (fresh {| line := 1; column := 1; offset := 0 |} None)
      (tokenizeParensMathText
         (fresh {| line := 1; column := 1; offset := 0 |} None)
         [Some 92; Some 40; Some 97; Some 92; Some 41; None]%Z).1.1 = Some c
    /\ 6 <= length (events c)
    /\ is_Some (type_at (events c) (heap c) 3)
    /\ is_Some (type_at (events c) (heap c)
                        (Z.of_nat (length (events c)) - 4)).
Proof.
  apply (accepted_run_has_six_events
           (fresh {| line := 1; column := 1; offset := 0 |} None)
           [Some 92; Some 40; Some 97; Some 92; Some 41; None]%Z).
  reflexivity.
Defined.

(** ** The claims about the recognizers *)

(** C3, as stated, fails: after the character escape [\\] the previous code
    is a backslash that comes from a character escape, and [previous]
    returns true, so that the construct may start there. *)
Lemma previous_after_character_escape :
  previous after_character_escape (previousCode after_character_escape)
  = Some true
  /\ previous after_character_escape (previousCode after_character_escape)
     <> Some false.
Proof. split; [reflexivity | discriminate]. Qed.

(** C3, amended. [previous] lets the text construct start whenever the
    previous code is not a backslash, whatever the events are: also at the
    start of a text, with no event and no previous code. When the previous
    code is a backslash it reads the last event, and lets the construct
    start when the token of that event is a character escape, and not when
    it is of another type. So it returns false only for a previous
    backslash after a last event whose token is not a character escape. *)
Theorem previous_permits self code :
  (code <> Some codes.backslash -> previous self code = Some true)
  /\ (forall ph tok t,
         code = Some codes.backslash ->
         last (events self) = Some (ph, tok) ->
         heap self !! tok = Some t ->
         (type t = types.characterEscape -> previous self code = Some true)
         /\ (type t <> types.characterEscape ->
             previous self code = Some false))
  /\ (previous self code = Some false ->
      code = Some codes.backslash
      /\ exists ph tok t,
           last (events self) = Some (ph, tok)
           /\ heap self !! tok = Some t
           /\ type t <> types.characterEscape).
Proof.
  unfold previous. split; [|split].
  - intros Hc. destruct code as [x|]; cbn; [|reflexivity].
    destruct (Z.eqb_spec x codes.backslash); [congruence | reflexivity].
  - intros ph tok t -> Hlast Htok. rewrite Hlast, Htok. split.
    + intros ->. reflexivity.
    + intros Ht. cbn. apply String.eqb_neq in Ht. by rewrite Ht.
  - intros H. destruct code as [x|]; [|discriminate H].
    unfold code_is in H.
    destruct (Z.eqb_spec x codes.backslash) as [Hx|]; [|discriminate H].
    subst x. split; [reflexivity|]. cbn in H.
    destruct (last (events self)) as [[ph tok]|]; [|discriminate].
    destruct (heap self !! tok) as [t|] eqn:Ht; [|discriminate].
    exists ph, tok, t. split; [reflexivity|]. split; [exact Ht|].
    intros Hty. rewrite Hty in H. discriminate.
Qed.

(** At the start of a text, where there is no event and no previous code,
    and after the character escape [\\], with the backslash as the
    previous code. *)
Lemma previous_permits_witness :
  previous at_start (previousCode at_start) = Some true
  /\ previous after_character_escape (Some codes.backslash) = Some true.
Proof.
  split.
  - destruct (previous_permits at_start (previousCode at_start))
      as (Hother & _ & _).
    apply Hother. discriminate.
  - destruct (previous_permits after_character_escape
                (Some codes.backslash)) as (_ & Hesc & _).
    destruct (Hesc PExit 0
                {| type := types.characterEscape; start_ := origin;
                   end_ := Some {| line := 1; column := 3; offset := 2 |} |}
                eq_refl eq_refl eq_refl) as [Htrue _].
    apply Htrue. reflexivity.
Defined.

(** C2. On the input [\(\ab\)] the state [closeParenthesis] is called with
    [a] after the backslash: it enters [mathTextData] after the backslash
    was consumed (the backslash stays in the [mathTextSequence] token),
    consumes [a], asks to exit [mathTextSequence] while [mathTextData] is
    the innermost open token, and calls [data] with the same [a], which
    consumes it again. The run goes on past [b], which no state is called
    with, and ends in [ok] with effects that are not well nested. *)
Lemma closeParenthesis_consumes_twice :
  step at_start closeParenthesis false (Some 97%Z)
  = ([Enter "mathTextData"; Consume (Some 97%Z); Exit "mathTextSequence";
      Consume (Some 97%Z)], false, Goto data)
  /\ tokenizeParensMathText at_start (chunks_of "\(\ab\)")
     = ([Enter "mathText"; Enter "mathTextSequence"; Consume (Some 92%Z);
         Consume (Some 40%Z); Exit "mathTextSequence";
         Enter "mathTextSequence"; Consume (Some 92%Z);
         Enter "mathTextData"; Consume (Some 97%Z); Exit "mathTextSequence";
         Consume (Some 97%Z);
         Exit "mathTextData"; Enter "mathTextSequence"; Consume (Some 92%Z);
         Consume (Some 41%Z); Exit "mathTextSequence"; Exit "mathText"],
        Accepted, [codes.eof])
  /\ well_nested (tokenizeParensMathText at_start (chunks_of "\(\ab\)")).1.1
     = false.
Proof. repeat split. Qed.


(** *** The text recognizer at the end of the input *)

(** A state that returns a state has consumed, and does not return
    [start]. *)
Lemma step_goes_on self s found code es found' s' :
  step self s found code = (es, found', Goto s') ->
  1 <= consumed es /\ s' <> start.
Proof.
  destruct s, code as [x|]; unfold step; cbn;
    unfold code_is, markdownLineEnding, is_eof; cbn;
    repeat (case_match; cbn in *; try congruence);
    intros; unfold before in *; cbn in *; simplify_eq;
    (split; [cbn; lia | discriminate]).
Qed.

Lemma reaches_not_start self s found chunks s' found' chunks' :
  reaches self s found chunks s' found' chunks' ->
  s <> start -> s' <> start.
Proof.
  induction 1 as [|s found code chunks es found' s' s'' found'' chunks''
                    Hstep _ IH]; [done|].
  intros _. apply IH. by destruct (step_goes_on _ _ _ _ _ _ _ Hstep).
Qed.

(** A run that comes to call a state at the end of the input ends in
    [nok]. *)
Lemma reaches_end_of_input self s found chunks s' found' chunks' :
  reaches self s found chunks s' found' chunks' ->
  forall rest fuel,
    chunks' = codes.eof :: rest -> s' <> start -> length chunks <= fuel ->
    (run fuel self s found chunks).1.2 = Rejected.
Proof.
  induction 1 as [s found chunks
                 |s found code chunks es found' s' s'' found'' chunks''
                    Hstep _ IH];
    intros rest fuel Heq Hs Hfuel.
  - subst chunks. destruct fuel as [|fuel]; [cbn in Hfuel; lia|].
    by apply run_eof.
  - destruct fuel as [|fuel]; [cbn in Hfuel; lia|].
    rewrite (run_Goto _ _ _ _ _ _ _ _ _ Hstep).
    destruct (step_goes_on _ _ _ _ _ _ _ Hstep) as [Hc _].
    specialize (IH rest fuel Heq Hs).
    destruct (run fuel self s' found' (drop (consumed es) (code :: chunks)))
      as [[t o] rest'].
    cbn [fst snd] in IH |- *. apply IH.
    rewrite length_drop. cbn [length] in Hfuel |- *. lia.
Qed.

(** Over content without a backslash the states [between] and [data] call
    one another, one code after the other. *)
Lemma reaches_content self content found chunks :
  codes.backslash ∉ content ->
  forall in_data : bool,
    exists in_data' : bool,
      reaches self (if in_data then data else between) found
              (map Some content ++ chunks)
              (if in_data' then data else between) found chunks.
Proof.
  induction content as [|x content IH]; intros Hno in_data.
  - exists in_data. apply reaches_here.
  - apply not_elem_of_cons in Hno as [Hx Hno].
    assert ((x =? codes.backslash)%Z = false) as Hb
      by (apply Z.eqb_neq; congruence).
    destruct (IH Hno true) as [d1 H1], (IH Hno false) as [d0 H0].
    destruct (x =? codes.space)%Z eqn:Hsp;
      [|destruct (markdownLineEnding (Some x)) eqn:Hle].
    + exists d0. cbn [map app]. destruct in_data.
      all: eapply reaches_next;
        [unfold step; cbn [call is_eof code_is orb negb before fst snd];
         rewrite ?Hb, ?Hsp; cbn [orb];
         cbn [call is_eof code_is orb negb before fst snd app];
         rewrite ?Hb, ?Hsp; reflexivity|].
      all: exact H0.
    + exists d0. cbn [map app]. destruct in_data.
      all: eapply reaches_next;
        [unfold step; cbn [call is_eof code_is orb negb before fst snd];
         rewrite ?Hb, ?Hsp, ?Hle; cbn [orb];
         cbn [call is_eof code_is orb negb before fst snd app];
         rewrite ?Hb, ?Hsp, ?Hle; reflexivity|].
      all: exact H0.
    + exists d1. cbn [map app]. destruct in_data.
      all: eapply reaches_next;
        [unfold step; cbn [call is_eof code_is orb negb before fst snd];
         rewrite ?Hb, ?Hsp, ?Hle; cbn [orb];
         cbn [call is_eof code_is orb negb before fst snd app];
         rewrite ?Hb, ?Hsp, ?Hle; reflexivity|].
      all: exact H1.
Qed.

(** *** The closure variable of the flow recognizer *)

Lemma after_at_end_of_input :
  holds (fun _ _ => True)
        (fun input r => input = [] -> foundClosingBracket r = true)
        ["mathFlow"] after.
Proof.
  intros input r input' r' _. unfold after.
  destruct input as [|x input]; cbn.
  - destruct (foundClosingBracket r) eqn:Hf; cbn; [|discriminate].
    intros [= <- <-] _. exact Hf.
  - intros [= <- <-]. discriminate.
Qed.

Lemma line_start_suffix whole input :
  line_start whole input -> input `suffix_of` whole.
Proof.
  intros [->|(before & e & sp & -> & _)]; [apply suffix_nil|].
  exists (before ++ e :: sp). by rewrite <- app_assoc.
Qed.

Section Fences.
Variable whole : list Z.

Lemma sound_after : sound whole after.
Proof.
  intros input r _ Hf. unfold after.
  destruct (is_eof (peek input) && negb (foundClosingBracket r));
    [exact I | exact Hf].
Qed.

Lemma sound_prefix k ty limit :
  sound whole k -> forall size, sound whole (prefix k ty limit size).
Proof.
  intros Hk size input. revert size.
  induction input as [|x rest IH]; intros size r Hsuf Hf; cbn [prefix].
  - by apply Hk.
  - destruct (markdownSpace (Some x) && under size limit).
    + apply IH; [by eapply suffix_cons_l | exact Hf].
    + by apply Hk.
Qed.

Lemma sound_factorySpace k ty max :
  sound whole k -> sound whole (factorySpace k ty max).
Proof.
  intros Hk input r Hsuf Hf. unfold factorySpace.
  destruct (markdownSpace (peek input)); [|by apply Hk].
  by apply sound_prefix.
Qed.

Lemma line_start_prefix k ty limit :
  sound_at_line_start whole k ->
  forall size, sound_at_line_start whole (prefix k ty limit size).
Proof.
  intros Hk size input. revert size.
  induction input as [|x rest IH]; intros size r Hls Hf; cbn [prefix].
  - by apply Hk.
  - destruct (markdownSpace (Some x)) eqn:Hx; cbn [andb]; [|by apply Hk].
    destruct (under size limit); [|by apply Hk].
    apply IH; [|exact Hf].
    destruct Hls as [|(before & e & sp & Hw & He & Hsp)]; [discriminate|].
    right. exists before, e, (sp ++ [x]).
    split; [by rewrite <- app_assoc|].
    split; [exact He|].
    apply Forall_app. split; [exact Hsp | by constructor].
Qed.

Lemma line_start_factorySpace k ty max :
  sound_at_line_start whole k ->
  sound_at_line_start whole (factorySpace k ty max).
Proof.
  intros Hk input r Hls Hf. unfold factorySpace.
  destruct (markdownSpace (peek input)); [|by apply Hk].
  by apply line_start_prefix.
Qed.

Lemma sound_afterSequenceClose ok nok :
  sound whole ok -> sound_on_failure whole nok ->
  sound whole (afterSequenceClose ok nok).
Proof.
  intros Hok Hnok input r Hsuf Hf. unfold afterSequenceClose.
  destruct (is_eof (peek input) || markdownLineEnding (peek input)).
  - by apply Hok.
  - by apply Hnok.
Qed.

(** The closure variable is set where the sequence is met at the start
    of a line. *)
Lemma line_start_sequenceClose ok nok :
  sound whole ok -> sound_on_failure whole nok ->
  sound_at_line_start whole (sequenceClose ok nok false).
Proof.
  intros Hok Hnok input r Hls Hf.
  destruct input as [|x [|y rest]]; cbn [sequenceClose].
  - by apply Hnok.
  - destruct (x =? codes.backslash)%Z; cbn [negb andb].
    + by apply Hnok.
    + rewrite andb_false_r. by apply Hnok.
  - destruct (Z.eqb_spec x codes.backslash) as [->|_]; cbn [negb andb].
    + rewrite andb_false_r.
      destruct (Z.eqb_spec y codes.rightSquareBracket) as [->|_];
        cbn [andb]; [|by apply Hnok].
      destruct Hls as [|(before & e & sp & Hw & He & Hsp)]; [discriminate|].
      apply sound_factorySpace.
      * by apply sound_afterSequenceClose.
      * exists (before ++ e :: sp
                  ++ [codes.backslash; codes.rightSquareBracket]).
        rewrite Hw, <- app_assoc. cbn [app]. by rewrite <- app_assoc.
      * intros _. by exists before, e, sp, rest.
    + rewrite andb_false_r. by apply Hnok.
Qed.

Lemma line_start_tokenizeClosingFence self ok nok :
  sound whole ok -> sound_on_failure whole nok ->
  sound_at_line_start whole (tokenizeClosingFence self ok nok).
Proof.
  intros Hok Hnok input r Hls Hf. unfold tokenizeClosingFence.
  destruct (disable_null self); [|exact I].
  apply line_start_factorySpace; [|done..].
  intros input' r' Hls' Hf'. unfold beforeSequenceClose.
  by apply line_start_sequenceClose.
Qed.

Lemma sound_tokenizeNonLazyContinuation self ok nok :
  sound_at_line_start whole ok -> sound_on_failure whole nok ->
  sound whole (tokenizeNonLazyContinuation self ok nok).
Proof.
  intros Hok Hnok input r Hsuf Hf.
  unfold tokenizeNonLazyContinuation, nonLazyContinuation_start.
  destruct input as [|x rest]; [apply Hok; [by left | done]|].
  destruct (markdownLineEnding (Some x)) eqn:Hx; cbn [negb]; [|exact I].
  unfold lineStart.
  destruct (lazy self _); [by apply Hnok|].
  apply Hok; [|exact Hf].
  right. destruct Hsuf as [before Hw]. exists before, x, [].
  split; [exact Hw|]. split; [exact Hx | constructor].
Qed.

Lemma sound_contentChunk k :
  sound whole k -> sound whole (contentChunk k).
Proof.
  intros Hk input.
  induction input as [|x rest IH]; intros r Hsuf Hf; cbn [contentChunk].
  - by apply Hk.
  - destruct (markdownLineEnding (Some x)); [by apply Hk|].
    apply IH; [by eapply suffix_cons_l | exact Hf].
Qed.

Lemma sound_contentStart self k :
  sound whole k -> sound whole (contentStart self k).
Proof.
  intros Hk input r Hsuf Hf. unfold contentStart.
  destruct (initialSize self); [by apply Hk|].
  by apply sound_factorySpace.
Qed.

(** A failed attempt at the closing fence leaves the closure variable as
    it set it. *)
Lemma line_start_beforeNonLazyContinuation self k :
  sound whole k ->
  sound_at_line_start whole (beforeNonLazyContinuation self k).
Proof.
  intros Hk input r Hls Hf. unfold beforeNonLazyContinuation, attempt.
  apply line_start_tokenizeClosingFence; [apply sound_after| |done..].
  intros input' r' Hf'.
  apply sound_contentStart; [exact Hk | by apply line_start_suffix|].
  exact Hf'.
Qed.

Lemma sound_continuation self k :
  sound whole k ->
  sound whole (attempt (tokenizeNonLazyContinuation self)
                       (beforeNonLazyContinuation self k) after).
Proof.
  intros Hk input r Hsuf Hf. unfold attempt.
  apply sound_tokenizeNonLazyContinuation; [| |done..].
  - by apply line_start_beforeNonLazyContinuation.
  - intros input' r' Hf'. by apply sound_after.
Qed.

Lemma sound_beforeContentChunk fuel self :
  sound whole (beforeContentChunk fuel self).
Proof.
  induction fuel as [|fuel IH]; intros input r Hsuf Hf;
    cbn [beforeContentChunk]; [exact I|].
  destruct (is_eof (peek input)); [by apply sound_after|].
  destruct (markdownLineEnding (peek input)).
  - by apply sound_continuation.
  - by apply sound_contentChunk.
Qed.

Lemma sound_metaAfter fuel self : sound whole (metaAfter fuel self).
Proof.
  intros input r Hsuf Hf. unfold metaAfter.
  destruct (interrupt self); [exact Hf|].
  apply sound_continuation; [apply sound_beforeContentChunk|done..].
Qed.

Lemma sound_meta k : sound whole k -> sound whole (meta k).
Proof.
  intros Hk input.
  induction input as [|x rest IH]; intros r Hsuf Hf; cbn [meta].
  - by apply Hk.
  - destruct (markdownLineEnding (Some x)); [by apply Hk|].
    destruct (x =? codes.rightSquareBracket)%Z; [exact I|].
    apply IH; [by eapply suffix_cons_l | exact Hf].
Qed.

Lemma sound_metaBefore k : sound whole k -> sound whole (metaBefore k).
Proof.
  intros Hk input r Hsuf Hf. unfold metaBefore.
  destruct (is_eof (peek input) || markdownLineEnding (peek input));
    [by apply Hk|].
  by apply sound_meta.
Qed.

Lemma sound_openBracket k : sound whole k -> sound whole (openBracket k).
Proof.
  intros Hk input r Hsuf Hf. unfold openBracket.
  destruct input as [|x rest]; [exact I|].
  destruct (x =? codes.leftSquareBracket)%Z; [|exact I].
  apply sound_factorySpace;
    [by apply sound_metaBefore | by eapply suffix_cons_l | exact Hf].
Qed.

Lemma sound_flow_start k : sound whole k -> sound whole (flow_start k).
Proof.
  intros Hk input r Hsuf Hf. unfold flow_start.
  destruct input as [|x rest]; [exact I|].
  destruct (x =? codes.backslash)%Z; [|exact I].
  apply sound_openBracket; [exact Hk | by eapply suffix_cons_l | exact Hf].
Qed.
End Fences.

(** The closure variable is set at the end of a run only if a line of the
    input begins, after spaces, with the closing sequence. *)
Lemma flag_needs_sequence self input input' r :
  tokenizeMathBracketFlow self input = FOk input' r ->
  foundClosingBracket r = true -> fence_seen input.
Proof.
  intros Hrun.
  pose proof (sound_flow_start input _
                (sound_metaAfter input (S (length input)) self) input
                {| trace := []; lineNo := line (now (context self));
                   foundClosingBracket := false |}) as H.
  unfold tokenizeMathBracketFlow in Hrun. rewrite Hrun in H.
  apply H; [done | discriminate].
Qed.



(** C1, as stated, fails: the flow construct that interrupts ends in [ok]
    after the opening line of [\[] and leaves [mathFlow] open. *)
Lemma interrupt_leaves_mathFlow_open :
  exists r,
    tokenizeMathBracketFlow (flow_at_start true)
      (codes_of "\[" ++ [codes.lineFeed] ++ codes_of "a")
    = FOk ([codes.lineFeed] ++ codes_of "a") r
    /\ trace r
       = [Enter "mathFlow"; Enter "mathFlowFence";
          Enter "mathFlowFenceSequence"; Consume (Some 92%Z);
          Consume (Some 91%Z); Exit "mathFlowFenceSequence";
          Exit "mathFlowFence"]
    /\ well_nested (trace r) = false.
Proof. eexists. repeat split. Qed.

Lemma after_closes_mathFlow :
  holds open_types (fun _ r => open_types [] r) ["mathFlow"] after.
Proof.
  intros input r input' r' Hr. unfold after.
  destruct (is_eof (peek input) && negb (foundClosingBracket r));
    [discriminate|].
  intros [= <- <-]. by apply open_types_exit.
Qed.

(** C1, amended. The effects of a run that ends in [ok] are well nested,
    every exit closing the innermost open enter, of its type, and nothing
    left open, for the text recognizer on [\(], content without a
    backslash and [\)] (the runs in which no backslash is taken for data),
    and for the flow recognizer when it does not interrupt; when it
    interrupts, its effects are closed but for [mathFlow], which is left
    open. *)
Theorem accepted_runs_are_well_nested :
  (forall self content rest,
      previous self (previousCode self) = Some true ->
      codes.backslash ∉ content ->
      exists t,
        tokenizeParensMathText self
          (Some codes.backslash :: Some codes.leftParenthesis
             :: map Some content
             ++ Some codes.backslash :: Some codes.rightParenthesis :: rest)
        = (t, Accepted, rest)
        /\ well_nested t = true)
  /\ (forall self input input' r,
         interrupt self = false ->
         tokenizeMathBracketFlow self input = FOk input' r ->
         well_nested (trace r) = true)
  /\ (forall self input input' r,
         interrupt self = true ->
         tokenizeMathBracketFlow self input = FOk input' r ->
         opens (trace r) [] = Some ["mathFlow"]).
Proof.
  split; [|split].
  - intros self content rest Hprev Hno. eexists. split.
    + by apply tokenize_content.
    + apply well_nested_content.
  - intros self input input' r Hint Hrun.
    unfold tokenizeMathBracketFlow in Hrun.
    assert (open_types [] r) as Hr.
    { eapply (holds_flow_start open_types (fun _ r => open_types [] r));
        [..| exact Hrun];
        auto using open_types_enter, open_types_exit, open_types_consume.
      - apply holds_metaAfter;
          auto using open_types_enter, open_types_exit, open_types_consume,
            after_closes_mathFlow.
      - reflexivity. }
    unfold well_nested. by rewrite Hr.
  - intros self input input' r Hint Hrun.
    unfold tokenizeMathBracketFlow in Hrun.
    eapply (holds_flow_start open_types
              (fun _ r => open_types ["mathFlow"] r));
      [..| exact Hrun];
      auto using open_types_enter, open_types_exit, open_types_consume.
    + intros i1 r1 i2 r2 Hr1. unfold metaAfter. rewrite Hint.
      intros [= <- <-]. by apply open_types_exit.
    + reflexivity.
Qed.

(** The runs over [\( a \)], and over [\[], [x], [\]] of three lines,
    interrupting or not. *)
Lemma accepted_runs_are_well_nested_witness :
  (exists t,
      tokenizeParensMathText at_start (chunks_of "\( a \)")
      = (t, Accepted, [codes.eof])
      /\ well_nested t = true)
  /\ (exists input' r,
         tokenizeMathBracketFlow (flow_at_start false)
           three_lines = FOk input' r
         /\ well_nested (trace r) = true)
  /\ (exists input' r,
         tokenizeMathBracketFlow (flow_at_start true)
           three_lines = FOk input' r
         /\ opens (trace r) [] = Some ["mathFlow"]).
Proof.
  destruct accepted_runs_are_well_nested as (Htext & Hflow & Hint).
  split; [|split].
  - apply (Htext at_start (codes_of " a ") [codes.eof]).
    + reflexivity.
    + intros H. apply list_elem_of_In in H. cbn in H. intuition discriminate.
  - eexists _, _. split; [vm_compute; reflexivity|].
    eapply (Hflow (flow_at_start false) three_lines); [reflexivity|].
    vm_compute; reflexivity.
  - eexists _, _. split; [vm_compute; reflexivity|].
    eapply (Hint (flow_at_start true) three_lines); [reflexivity|].
    vm_compute; reflexivity.
Defined.

(** ** The resolver *)

(** *** Reading the events *)

Lemma length_flat toks : length (flat toks) = 2 * length toks.
Proof. induction toks as [|tok toks IH]; cbn; [done | rewrite IH; lia]. Qed.

Lemma flat_app toks1 toks2 : flat (toks1 ++ toks2) = flat toks1 ++ flat toks2.
Proof. induction toks1 as [|tok toks1 IH]; cbn; [done | by rewrite IH]. Qed.

Lemma flat_lookup toks k tok :
  toks !! k = Some tok ->
  flat toks !! (2 * k) = Some (PEnter, tok)
  /\ flat toks !! (2 * k + 1) = Some (PExit, tok).
Proof.
  revert k. induction toks as [|tok' toks IH]; intros k H; [done|].
  destruct k as [|k].
  - injection H as ->. split; reflexivity.
  - replace (2 * S k) with (S (S (2 * k))) by lia.
    replace (S (S (2 * k)) + 1) with (S (S (2 * k + 1))) by lia.
    exact (IH k H).
Qed.

Lemma lookup_enter done toks post k tok :
  toks !! k = Some tok ->
  (done ++ flat toks ++ post) !! (length done + 2 * k) = Some (PEnter, tok).
Proof.
  intros H. rewrite lookup_app_r by lia.
  replace (length done + 2 * k - length done) with (2 * k) by lia.
  apply lookup_app_l_Some. by apply flat_lookup.
Qed.

Lemma lookup_exit done toks post k tok :
  toks !! k = Some tok ->
  (done ++ flat toks ++ post) !! (length done + 2 * k + 1) = Some (PExit, tok).
Proof.
  intros H. rewrite lookup_app_r by lia.
  replace (length done + 2 * k + 1 - length done) with (2 * k + 1) by lia.
  apply lookup_app_l_Some. by apply flat_lookup.
Qed.

Lemma token_at_lookup events heap i n ph tok t :
  i = Z.of_nat n ->
  events !! n = Some (ph, tok) -> heap !! tok = Some t ->
  token_at events heap i = Some (tok, t).
Proof.
  intros -> He Ht. unfold token_at, event_at.
  destruct (Z.ltb_spec (Z.of_nat n) 0); [lia|].
  by rewrite Nat2Z.id, He, Ht.
Qed.

Lemma type_at_lookup events heap i n ph tok t :
  i = Z.of_nat n ->
  events !! n = Some (ph, tok) -> heap !! tok = Some t ->
  type_at events heap i = Some (type t).
Proof.
  intros Hi He Ht. unfold type_at.
  by rewrite (token_at_lookup _ _ _ _ _ _ _ Hi He Ht).
Qed.

(** *** One round of the loop of the second part *)

Lemma merge_stop fuel events heap T i enter :
  (T < i + 1)%Z ->
  merge (S fuel) events heap T i enter = Done (events, heap).
Proof.
  intros H. cbn [merge].
  destruct (Z.leb_spec (i + 1) T); [lia | reflexivity].
Qed.

Lemma merge_at_tail fuel events heap T i :
  (i + 1 = T)%Z ->
  merge (S fuel) events heap T i None = merge fuel events heap T (i + 1) None.
Proof.
  intros H. cbn [merge].
  destruct (Z.leb_spec (i + 1) T); [|lia].
  destruct (Z.eqb_spec (i + 1) T); [reflexivity | lia].
Qed.

Lemma merge_skip fuel events heap T i ty :
  (i + 1 < T)%Z ->
  type_at events heap (i + 1) = Some ty ->
  merge (S fuel) events heap T i None
  = merge fuel events heap T (i + 1)
          (if String.eqb ty types.lineEnding then None else Some (i + 1)%Z).
Proof.
  intros H Hty. cbn [merge].
  destruct (Z.leb_spec (i + 1) T); [|lia].
  destruct (Z.eqb_spec (i + 1) T); [lia|].
  rewrite Hty. by destruct (String.eqb ty types.lineEnding).
Qed.

Lemma merge_within fuel events heap T i enter ty :
  (i + 1 < T)%Z ->
  type_at events heap (i + 1) = Some ty ->
  String.eqb ty types.lineEnding = false ->
  merge (S fuel) events heap T i (Some enter)
  = merge fuel events heap T (i + 1) (Some enter).
Proof.
  intros H Hty Hle. cbn [merge].
  destruct (Z.leb_spec (i + 1) T); [|lia].
  destruct (Z.eqb_spec (i + 1) T); [lia|].
  by rewrite Hty, Hle.
Qed.

(** The end of a run, at the end of the window or at a line ending. *)
Lemma merge_end fuel events heap T i enter heap1 :
  (i + 1 <= T)%Z ->
  ((i + 1 = T)%Z \/ type_at events heap (i + 1) = Some types.lineEnding) ->
  set_type events heap enter "mathTextData" = Some heap1 ->
  merge (S fuel) events heap T i (Some enter)
  = if (i + 1 =? enter + 2)%Z then
      merge fuel events heap1 T (i + 1) None
    else
      match copy_end events heap1 enter (i + 1 - 1) with
      | None => TypeError
      | Some heap2 =>
        merge fuel (splice events (enter + 2) (i + 1 - enter - 2)) heap2
              (T - (i + 1 - enter - 2)) (enter + 2) None
      end.
Proof.
  intros H Hend Hset. cbn [merge].
  destruct (Z.leb_spec (i + 1) T); [|lia].
  assert ((if (i + 1 =? T)%Z then Some true
           else match type_at events heap (i + 1) with
                | Some ty => Some (String.eqb ty types.lineEnding)
                | None => None
                end) = Some true) as ->.
  { destruct (Z.eqb_spec (i + 1) T); [reflexivity|].
    destruct Hend as [? | ->]; [lia | reflexivity]. }
  by rewrite Hset.
Qed.

(** *** The whole loop, over spans that follow one another *)

Lemma splice_flat done h gone rest from count :
  from = Z.of_nat (length done + 2) ->
  count = Z.of_nat (2 * length gone) ->
  splice (done ++ flat (h :: gone) ++ rest) from count
  = done ++ flat [h] ++ rest.
Proof.
  intros -> ->. unfold splice. rewrite !Nat2Z.id. cbn [flat app].
  replace (length done + 2 + 2 * length gone)
    with (length done + (2 + 2 * length gone)) by lia.
  rewrite take_app_add, drop_app_add. simpl.
  rewrite take_0, <- app_assoc. simpl. do 3 f_equal.
  rewrite drop_app_length'; [done|]. rewrite length_flat. lia.
Qed.

Lemma head_cons_inv {A} (l : list A) x :
  head l = Some x -> exists l', l = x :: l'.
Proof. destruct l; [done|]. intros [= ->]. eauto. Qed.

(** The end of the run of the spans [prev ++ [g]], which starts with [h]:
    the first span of the run is left, as [mathTextData], ending where [g]
    ends. *)
Lemma merge_close fuel done post heap (h g : Span) prev spans :
  head (prev ++ [g]) = Some h ->
  NoDup (map fst (prev ++ [g]) ++ map fst spans) ->
  Forall (fun s : Span => heap !! s.1 = Some s.2) ((prev ++ [g]) ++ spans) ->
  no_run_at (map snd spans) ->
  merge (S fuel)
        (done ++ flat (map fst (prev ++ [g]) ++ map fst spans) ++ post) heap
        (Z.of_nat (length done + 2 * length (prev ++ [g]) + 2 * length spans))
        (Z.of_nat (length done + 2 * length prev + 1))
        (Some (Z.of_nat (length done)))
  = merge fuel (done ++ flat (h.1 :: map fst spans) ++ post)
          (<[h.1 := {| type := "mathTextData"; start_ := start_ h.2;
                       end_ := end_ g.2 |}]> heap)
          (Z.of_nat (length done + 2 + 2 * length spans))
          (Z.of_nat (length done + 2)) None.
Proof.
  intros Hhead Hnd Hheap Hnext.
  destruct (head_cons_inv _ _ Hhead) as [gone Hseen].
  assert (length gone = length prev) as Hlen.
  { apply (f_equal length) in Hseen. rewrite length_app in Hseen.
    cbn in Hseen. lia. }
  pose proof Hheap as Hh. rewrite Hseen in Hh.
  apply Forall_app in Hh as [Hh Hspans]. apply Forall_cons in Hh as [Hh _].
  assert (heap !! g.1 = Some g.2) as Hg.
  { apply Forall_app in Hheap as [Hs _]. apply Forall_app in Hs as [_ Hs].
    by inversion Hs. }
  set (E := done ++ flat (map fst (prev ++ [g]) ++ map fst spans) ++ post).
  assert (token_at E heap (Z.of_nat (length done)) = Some (h.1, h.2)) as Hat.
  { eapply (token_at_lookup _ _ _ (length done + 2 * 0)); [lia | | exact Hh].
    apply lookup_enter. rewrite Hseen. reflexivity. }
  rewrite length_app. cbn [length].
  erewrite merge_end; cycle 1.
  - lia.
  - destruct spans as [|s spans]; [left; cbn [length]; lia | right].
    cbn in Hnext. apply String.eqb_eq in Hnext. rewrite <- Hnext.
    apply Forall_cons in Hspans as [Hs _].
    eapply (type_at_lookup _ _ _ (length done + 2 * length (prev ++ [g])));
      [rewrite length_app; cbn [length]; lia | | exact Hs].
    apply lookup_enter. cbn [map]. apply list_lookup_middle.
    by rewrite length_map.
  - unfold set_type. rewrite Hat. reflexivity.
  - destruct prev as [|p prev].
    + cbn in Hseen. injection Hseen as <- <-.
      match goal with
      | |- context [(?a =? ?b)%Z] => destruct (Z.eqb_spec a b) as [_|Hne]
      end; [|cbn [length] in Hne; lia].
      cbn [length]. f_equal; lia.
    + cbn in Hseen. injection Hseen as -> <-.
      match goal with
      | |- context [(?a =? ?b)%Z] => destruct (Z.eqb_spec a b) as [He|_]
      end; [cbn [length] in He; lia|].
      assert (h.1 <> g.1) as Hne.
      { cbn in Hnd. apply NoDup_cons in Hnd as [Hnot _].
        intros Heq. apply Hnot. rewrite Heq, map_app.
        apply elem_of_app; left. apply elem_of_app; right.
        by left. }
      unfold copy_end.
      erewrite (token_at_lookup E _ _ (length done + 2 * 0) PEnter h.1);
        [| lia | apply lookup_enter; reflexivity
         | apply list_lookup_insert_eq; by eapply lookup_lt_Some].
      erewrite (token_at_lookup E _ _
                  (length done + 2 * length (h :: prev) + 1) PExit g.1 g.2);
        [| lia
         | apply lookup_exit; rewrite map_app, <- app_assoc; cbn [map app];
           apply (list_lookup_middle (map fst (h :: prev)));
           by rewrite length_map
         | by rewrite list_lookup_insert_ne].
      rewrite list_insert_insert_eq.
      unfold E.
      change (map fst ((h :: prev) ++ [g]) ++ map fst spans)
        with ((h.1 :: map fst (prev ++ [g])) ++ map fst spans).
      rewrite flat_app, <- app_assoc.
      erewrite (splice_flat done h.1 (map fst (prev ++ [g])));
        [| cbn [length]; lia
         | rewrite length_map, length_app; cbn [length]; lia].
      cbn [flat app]. f_equal; lia.
Qed.

Lemma merge_close_at fuel done post heap (h g : Span) prev spans E T i e :
  head (prev ++ [g]) = Some h ->
  NoDup (map fst (prev ++ [g]) ++ map fst spans) ->
  Forall (fun s : Span => heap !! s.1 = Some s.2) ((prev ++ [g]) ++ spans) ->
  no_run_at (map snd spans) ->
  E = done ++ flat (map fst (prev ++ [g]) ++ map fst spans) ++ post ->
  T = Z.of_nat (length done + 2 * length (prev ++ [g]) + 2 * length spans) ->
  i = Z.of_nat (length done + 2 * length prev + 1) ->
  e = Z.of_nat (length done) ->
  merge (S fuel) E heap T i (Some e)
  = merge fuel (done ++ flat (h.1 :: map fst spans) ++ post)
          (<[h.1 := {| type := "mathTextData"; start_ := start_ h.2;
                       end_ := end_ g.2 |}]> heap)
          (Z.of_nat (length done + 2 + 2 * length spans))
          (Z.of_nat (length done + 2)) None.
Proof. intros ? ? ? ? -> -> -> ->. by apply merge_close. Qed.

Lemma write_all_cons s spans heap :
  write_all (s :: spans) heap = write_all spans (<[s.1 := s.2]> heap).
Proof. reflexivity. Qed.

Lemma not_line_ending (t : Token) :
  is_line_ending t = false -> String.eqb (type t) types.lineEnding = false.
Proof. done. Qed.

(** The loop over the spans that are left, outside a run (first part) and
    in the run of the spans [prev ++ [g]], which starts with [h] (second
    part). *)
Lemma merge_runs spans :
  (forall fuel done post heap E T i,
      NoDup (map fst spans) ->
      Forall (fun s : Span => heap !! s.1 = Some s.2) spans ->
      2 * length spans + 2 <= fuel ->
      E = done ++ flat (map fst spans) ++ post ->
      T = Z.of_nat (length done + 2 * length spans) ->
      i = (Z.of_nat (length done) - 1)%Z ->
      merge fuel E heap T i None
      = Done (done ++ flat (map fst (coalesce_from None spans)) ++ post,
              write_all (coalesce_from None spans) heap))
  /\ (forall fuel done post heap (h g : Span) prev E T i e,
         head (prev ++ [g]) = Some h ->
         is_line_ending g.2 = false ->
         NoDup (map fst (prev ++ [g]) ++ map fst spans) ->
         Forall (fun s : Span => heap !! s.1 = Some s.2)
                ((prev ++ [g]) ++ spans) ->
         2 * length spans + 3 <= fuel ->
         E = done ++ flat (map fst (prev ++ [g]) ++ map fst spans) ++ post ->
         T = Z.of_nat (length done + 2 * length (prev ++ [g])
                       + 2 * length spans) ->
         i = Z.of_nat (length done + 2 * length prev) ->
         e = Z.of_nat (length done) ->
         merge fuel E heap T i (Some e)
         = Done (done
                   ++ flat (map fst
                              (coalesce_from
                                 (Some (h.1, {| type := "mathTextData";
                                                start_ := start_ h.2;
                                                end_ := end_ g.2 |}))
                                 spans))
                   ++ post,
                 write_all
                   (coalesce_from
                      (Some (h.1, {| type := "mathTextData";
                                     start_ := start_ h.2;
                                     end_ := end_ g.2 |}))
                      spans)
                   heap)).
Proof.
  induction spans as [|s spans [IHA IHB]].
  - split.
    + intros fuel done post heap E T i _ _ Hfuel -> -> ->.
      destruct fuel as [|[|fuel]]; cbn in Hfuel; try lia.
      rewrite merge_at_tail by (cbn [length]; lia).
      rewrite merge_stop by (cbn [length]; lia).
      reflexivity.
    + intros fuel done post heap h g prev E T i e
        Hhead Hg Hnd Hheap Hfuel -> -> -> ->.
      destruct fuel as [|[|[|fuel]]]; cbn in Hfuel; try lia.
      assert (heap !! g.1 = Some g.2) as Hgl.
      { apply Forall_app in Hheap as [Hs _]. apply Forall_app in Hs as [_ Hs].
        by inversion Hs. }
      erewrite merge_within;
        [| rewrite length_app; cbn [length]; lia
         | eapply (type_at_lookup _ _ _ (length done + 2 * length prev + 1));
           [lia | | exact Hgl];
           apply lookup_exit; rewrite map_app, <- app_assoc; cbn [map app];
           apply list_lookup_middle; by rewrite length_map
         | by apply not_line_ending].
      erewrite (merge_close_at _ done post heap h g prev []);
        [| done | done | done | exact I | reflexivity | reflexivity | lia
         | reflexivity].
      rewrite merge_stop by (cbn [length]; lia).
      reflexivity.
  - split.
    + intros fuel done post heap E T i Hnd Hheap Hfuel -> -> ->.
      cbn [length] in Hfuel.
      destruct fuel as [|fuel]; [lia|].
      apply NoDup_cons in Hnd as [Hs Hnd].
      apply Forall_cons in Hheap as [Hsl Hheap]. cbn [fst snd] in Hsl.
      erewrite merge_skip;
        [| cbn [length]; lia
         | eapply (type_at_lookup _ _ _ (length done + 2 * 0));
           [lia | apply lookup_enter; reflexivity | exact Hsl]].
      cbn [coalesce_from]. unfold is_line_ending.
      destruct (String.eqb (type s.2) types.lineEnding) eqn:Hle.
      * destruct fuel as [|fuel]; [lia|].
        erewrite merge_skip;
          [| cbn [length]; lia
           | eapply (type_at_lookup _ _ _ (length done + 2 * 0 + 1));
             [lia | apply lookup_exit; reflexivity | exact Hsl]].
        rewrite Hle.
        erewrite (IHA fuel (done ++ [(PEnter, s.1); (PExit, s.1)]) post heap);
          [| done | done | lia
           | cbn [map flat app]; by rewrite <- app_assoc
           | rewrite length_app; cbn [length]; lia
           | rewrite length_app; cbn [length]; lia].
        cbn [run_of app map fst flat]. rewrite <- app_assoc.
        rewrite write_all_cons, list_insert_id by done. reflexivity.
      * erewrite (IHB fuel done post heap s s []);
          [| reflexivity | exact Hle | by constructor | by constructor | lia
           | reflexivity | cbn [length app]; lia | cbn [length]; lia | lia].
        reflexivity.
    + intros fuel done post heap h g prev E T i e
        Hhead Hg Hnd Hheap Hfuel -> -> -> ->.
      cbn [length] in Hfuel.
      destruct fuel as [|fuel]; [lia|].
      assert (heap !! g.1 = Some g.2) as Hgl.
      { apply Forall_app in Hheap as [Hs' _].
        apply Forall_app in Hs' as [_ Hs']. by inversion Hs'. }
      assert (heap !! s.1 = Some s.2) as Hsl.
      { apply Forall_app in Hheap as [_ Hs']. by inversion Hs'. }
      destruct (head_cons_inv _ _ Hhead) as [gone Hseen].
      assert (h.1 ∉ map fst (s :: spans)) as Hh.
      { rewrite Hseen in Hnd. cbn [map app] in Hnd.
        apply NoDup_cons in Hnd as [Hnot _].
        intros Hin. apply Hnot. apply elem_of_app. by right. }
      erewrite merge_within;
        [| rewrite length_app; cbn [length]; lia
         | eapply (type_at_lookup _ _ _ (length done + 2 * length prev + 1));
           [lia | | exact Hgl];
           apply lookup_exit; rewrite map_app, <- app_assoc; cbn [map app];
           apply list_lookup_middle; by rewrite length_map
         | by apply not_line_ending].
      cbn [coalesce_from run_of]. unfold is_line_ending.
      destruct (String.eqb (type s.2) types.lineEnding) eqn:Hle.
      * destruct fuel as [|[|fuel]]; try lia.
        erewrite (merge_close_at _ done post heap h g prev (s :: spans));
          [| done | done | done | exact Hle | reflexivity | reflexivity | lia
           | reflexivity].
        assert (forall i t, i <> h.1 -> heap !! i = Some t ->
                  <[h.1 := {| type := "mathTextData"; start_ := start_ h.2;
                              end_ := end_ g.2 |}]> heap !! i = Some t)
          as Hkeep.
        { intros j t Hj Hjt. by rewrite list_lookup_insert_ne. }
        assert (s.1 <> h.1) as Hsh.
        { intros Heq. apply Hh. rewrite <- Heq. cbn [map]. by left. }
        erewrite merge_skip;
          [| cbn [length]; lia
           | eapply (type_at_lookup _ _ _ (length done + 2 * 1 + 1));
             [lia | apply lookup_exit; reflexivity | by apply Hkeep]].
        rewrite Hle.
        erewrite (IHA fuel
                    (done ++ [(PEnter, h.1); (PExit, h.1);
                              (PEnter, s.1); (PExit, s.1)]) post);
          [| apply NoDup_app in Hnd as (_ & _ & Hnd);
             by apply NoDup_cons in Hnd as [_ Hnd]
           | apply Forall_app in Hheap as [_ Hsp];
             apply Forall_cons in Hsp as [_ Hsp];
             apply Forall_forall; intros x Hx;
             apply Hkeep;
             [ intros Heq; apply Hh; rewrite <- Heq; cbn [map]; right;
               apply list_elem_of_fmap; eauto
             | by eapply Forall_forall in Hsp ]
           | lia
           | cbn [map flat app]; by rewrite <- app_assoc
           | rewrite length_app; cbn [length]; lia
           | rewrite length_app; cbn [length]; lia].
        cbn [app map fst flat]. rewrite <- app_assoc.
        rewrite !write_all_cons. cbn [fst snd].
        rewrite (list_insert_id _ s.1) by (by apply Hkeep). reflexivity.
      * destruct fuel as [|fuel]; [lia|].
        erewrite merge_within;
          [| rewrite length_app; cbn [length]; lia
           | eapply (type_at_lookup _ _ _
                       (length done + 2 * length (prev ++ [g])));
             [rewrite length_app; cbn [length]; lia | | exact Hsl];
             apply lookup_enter; cbn [map]; apply list_lookup_middle;
             by rewrite length_map
           | exact Hle].
        erewrite (IHB fuel done post heap h s (prev ++ [g]));
          [| rewrite Hseen; reflexivity | exact Hle
           | by rewrite (map_app _ (prev ++ [g])), <- app_assoc
           | by rewrite <- app_assoc
           | lia
           | by rewrite (map_app _ (prev ++ [g])), <- app_assoc
           | rewrite !length_app; cbn [length]; lia
           | rewrite !length_app; cbn [length]; lia
           | reflexivity].
        reflexivity.
Qed.

(** *** The first part *)

Lemma find_data_segment seg :
  forall fuel done post heap E T i,
    Forall (fun e : Event => is_Some (heap !! e.2)) seg ->
    length seg < fuel ->
    E = done ++ seg ++ post ->
    T = Z.of_nat (length done + length seg) ->
    i = (Z.of_nat (length done) - 1)%Z ->
    find_data fuel E heap T i
    = Done (existsb (fun e : Event =>
                       match heap !! e.2 with
                       | Some t => is_data t
                       | None => false
                       end) seg).
Proof.
  induction seg as [|[ph tok] seg IH];
    intros fuel done post heap E T i Hseg Hfuel -> -> ->;
    (destruct fuel as [|fuel]; [cbn in Hfuel; lia|]); cbn [find_data].
  - destruct (Z.ltb_spec (Z.of_nat (length done) - 1 + 1)
                         (Z.of_nat (length done + length (@nil Event))));
      [cbn [length] in *; lia | reflexivity].
  - destruct (Z.ltb_spec (Z.of_nat (length done) - 1 + 1)
                (Z.of_nat (length done + length ((ph, tok) :: seg))));
      [|cbn [length] in *; lia].
    apply Forall_cons in Hseg as [[t Ht] Hseg]. cbn [snd] in Ht.
    erewrite (type_at_lookup _ _ _ (length done) ph tok t);
      [| lia | by apply list_lookup_middle | exact Ht].
    cbn [existsb snd]. rewrite Ht. unfold is_data at 1.
    destruct (String.eqb (type t) "mathTextData"); [reflexivity|].
    cbn [orb].
    apply (IH fuel (done ++ [(ph, tok)]) post); auto.
    + cbn [length] in Hfuel. lia.
    + by rewrite <- app_assoc.
    + rewrite length_app. cbn [length]. lia.
    + rewrite length_app. cbn [length]. lia.
Qed.

Lemma existsb_flat (heap : list Token) (spans : list Span) :
  Forall (fun s : Span => heap !! s.1 = Some s.2) spans ->
  existsb (fun e : Event =>
             match heap !! e.2 with
             | Some t => is_data t
             | None => false
             end) (flat (map fst spans))
  = existsb (fun s : Span => is_data s.2) spans.
Proof.
  induction 1 as [|s spans Hs _ IH]; [reflexivity|].
  cbn [map flat existsb snd]. rewrite Hs, IH.
  by destruct (is_data s.2).
Qed.

Lemma edge_is_no_data t : is_edge t = true -> is_data t = false.
Proof.
  unfold is_edge, is_line_ending_or_space, is_data.
  intros [H|H]%orb_true_iff; apply String.eqb_eq in H; by rewrite H.
Qed.

(** A list is empty, has one element, or has a first and a last element
    and the elements between them. *)
Lemma list_ends {A} (l : list A) :
  l = [] \/ (exists x, l = [x]) \/ (exists x mid z, l = x :: mid ++ [z]).
Proof.
  destruct l as [|x l]; [by left | right].
  destruct (last l) as [z|] eqn:Hlast.
  - apply last_Some in Hlast as [mid ->]. right. eauto.
  - apply last_None in Hlast as ->. left. eauto.
Qed.

Lemma padded_ends (f z : Span) mid :
  padded (f :: mid ++ [z])
  = is_edge f.2 && is_edge z.2
    && existsb (fun s : Span => is_data s.2) mid.
Proof.
  unfold padded, middle. cbn [head tail]. rewrite last_snoc.
  by rewrite removelast_last.
Qed.


Lemma shaped_fence (heap : list Token) (tok : nat) :
  type <$> heap !! tok = Some "mathTextSequence" ->
  exists t, heap !! tok = Some t /\ type t = "mathTextSequence".
Proof. destruct (heap !! tok) as [t|]; [|done]. intros [= H]. eauto. Qed.

(** The first part on the events of an accepted run: the window and the
    tokens it leaves. *)
Lemma padding_shaped heap outer opening closing inner :
  shaped heap outer opening closing inner ->
  padding (text_events outer opening closing (map fst inner)) heap
  = Done {| w_events := text_events outer opening closing (map fst inner);
            w_heap :=
              if padded inner then
                match head inner, last (tail inner) with
                | Some f, Some z =>
                  <[f.1 := with_type "mathTextPadding" f.2]>
                    (<[z.1 := with_type "mathTextPadding" z.2]> heap)
                | _, _ => heap
                end
              else heap;
            headEnterIndex := if padded inner then 5 else 3;
            tailExitIndex :=
              Z.of_nat (length (text_events outer opening closing
                                            (map fst inner))) - 4
              - (if padded inner then 2 else 0) |}.
Proof.
  intros [Hnd _ _ Hclosing Hinner].
  destruct (shaped_fence _ _ Hclosing) as (tc & Htc & Htype).
  unfold padding.
  destruct (list_ends inner) as [->|[[f ->]|(f & mid & z & ->)]].
  - cbn [map text_events flat app].
    erewrite (type_at_lookup _ _ 3 3 PEnter closing tc);
      [| done | reflexivity | exact Htc].
    rewrite Htype. cbn. f_equal.
  - rewrite Forall_singleton in Hinner. cbn [map text_events flat app fst].
    erewrite (type_at_lookup _ _ 3 3 PEnter f.1 f.2);
      [| done | reflexivity | exact Hinner].
    destruct (is_line_ending_or_space (type f.2)) eqn:Hf; [|cbn; f_equal].
    erewrite (type_at_lookup _ _ _ 4 PExit f.1 f.2);
      [| reflexivity | reflexivity | exact Hinner].
    rewrite Hf. cbn. f_equal.
  - pose proof Hinner as Hall.
    apply Forall_cons in Hinner as [Hf Hinner].
    apply Forall_app in Hinner as [Hmid Hz].
    rewrite Forall_singleton in Hz. cbn [fst snd] in Hf, Hz.
    assert (f.1 <> z.1) as Hfz.
    { cbn [map] in Hnd. do 3 apply NoDup_cons in Hnd as [_ Hnd].
      apply NoDup_cons in Hnd as [Hnot _]. intros Heq. apply Hnot.
      rewrite Heq, map_app. apply elem_of_app. right. by left. }
    rewrite padded_ends. cbn [head tail]. rewrite last_snoc.
    set (E := text_events outer opening closing (map fst (f :: mid ++ [z]))).
    assert (length E = 2 * length mid + 10) as Hlen.
    { unfold E, text_events. rewrite !length_app, length_flat, length_map.
      cbn [length]. rewrite length_app. cbn [length]. lia. }
    rewrite Hlen.
    assert (token_at E heap 3 = Some (f.1, f.2)) as Hat3.
    { eapply (token_at_lookup _ _ _ (3 + 2 * 0)); [done | | exact Hf].
      apply (lookup_enter [_; _; _]). reflexivity. }
    assert (forall h, h !! z.1 = Some z.2 ->
              token_at E h (Z.of_nat (2 * length mid + 10) - 4)
              = Some (z.1, z.2)) as Hatz.
    { intros h Hh.
      eapply (token_at_lookup _ _ _ (3 + 2 * (S (length mid)) + 1));
        [lia | | exact Hh].
      apply (lookup_exit [_; _; _]). cbn [map lookup].
      rewrite map_app. apply list_lookup_middle. by rewrite length_map. }
    unfold type_at at 1. rewrite Hat3.
    change (is_line_ending_or_space (type f.2)) with (is_edge f.2).
    destruct (is_edge f.2) eqn:Hef; [|cbn [andb]; by rewrite Z.sub_0_r].
    unfold type_at at 1. rewrite (Hatz heap Hz).
    change (is_line_ending_or_space (type z.2)) with (is_edge z.2).
    destruct (is_edge z.2) eqn:Hez; [|cbn [andb]; by rewrite Z.sub_0_r].
    cbn [andb].
    erewrite (find_data_segment
                ((PExit, f.1) :: flat (map fst mid) ++ [(PEnter, z.1)])
                _ [(PEnter, outer); (PEnter, opening); (PExit, opening);
                   (PEnter, f.1)]
                [(PExit, z.1); (PEnter, closing); (PExit, closing);
                 (PExit, outer)]);
      [ | | | | | reflexivity].
    + cbn [existsb snd]. rewrite Hf, (edge_is_no_data _ Hef). cbn [orb].
      rewrite existsb_app, (existsb_flat heap mid Hmid).
      cbn [existsb snd]. rewrite Hz, (edge_is_no_data _ Hez).
      rewrite !orb_false_r.
      destruct (existsb (fun s : Span => is_data s.2) mid);
        [|by rewrite Z.sub_0_r].
      unfold set_type. rewrite (Hatz heap Hz).
      erewrite (token_at_lookup _ _ 3 (3 + 2 * 0) PEnter f.1 f.2);
        [| done | apply (lookup_enter [_; _; _]); reflexivity
         | by rewrite list_lookup_insert_ne].
      reflexivity.
    + constructor; [cbn [snd]; by rewrite Hf|].
      apply Forall_app. split; [|repeat constructor; cbn [snd]; by rewrite Hz].
      clear -Hmid. induction Hmid as [|s mid Hs _ IH]; [constructor|].
      cbn [map flat]. repeat constructor; cbn [snd]; try by rewrite Hs.
      exact IH.
    + cbn [length]. rewrite length_app, length_flat, length_map.
      cbn [length]. lia.
    + unfold E, text_events. cbn [map flat app]. rewrite map_app, flat_app.
      cbn [map flat app]. by rewrite <- !app_assoc.
    + cbn [length]. rewrite length_app, length_flat, length_map.
      cbn [length]. lia.
Qed.

Lemma padded_inv inner :
  padded inner = true ->
  exists f mid z,
    inner = f :: mid ++ [z]
    /\ is_edge f.2 = true /\ is_edge z.2 = true
    /\ existsb (fun s : Span => is_data s.2) mid = true.
Proof.
  destruct (list_ends inner) as [->|[[f ->]|(f & mid & z & ->)]];
    [discriminate | discriminate |].
  rewrite padded_ends. intros [[Hf Hz]%andb_true_iff Hd]%andb_true_iff.
  eauto 10.
Qed.

(** *** The resolver on the events of an accepted run *)

(** On the events of an accepted run the resolver returns, and leaves the
    spans of [resolve_spans], with their tokens. *)
Lemma resolveMathText_shaped heap outer opening closing inner :
  shaped heap outer opening closing inner ->
  resolveMathText (text_events outer opening closing (map fst inner)) heap
  = Done (text_events outer opening closing (map fst (resolve_spans inner)),
          resolve_heap inner heap).
Proof.
  intros Hshaped. unfold resolveMathText.
  rewrite (padding_shaped _ _ _ _ _ Hshaped).
  cbn [w_events w_heap headEnterIndex tailExitIndex].
  destruct Hshaped as [Hnd _ _ _ Hinner].
  unfold resolve_spans, resolve_heap.
  destruct (padded inner) eqn:Hp.
  - destruct (padded_inv _ Hp) as (f & mid & z & -> & _).
    cbn [head tail]. rewrite last_snoc.
    unfold middle. cbn [tail]. rewrite removelast_last.
    cbn [map] in Hnd. do 3 apply NoDup_cons in Hnd as [_ Hnd].
    apply NoDup_cons in Hnd as [Hf Hnd]. rewrite map_app in Hf, Hnd.
    apply NoDup_app in Hnd as (Hnd & Hz & _).
    apply Forall_cons in Hinner as [_ Hinner].
    apply Forall_app in Hinner as [Hmid _].
    erewrite (proj1 (merge_runs mid) _
                [(PEnter, outer); (PEnter, opening); (PExit, opening);
                 (PEnter, f.1); (PExit, f.1)]
                [(PEnter, z.1); (PExit, z.1); (PEnter, closing);
                 (PExit, closing); (PExit, outer)]);
      [ | exact Hnd | | | | | ].
    + unfold coalesce, text_events. cbn [map flat app fst as_padding].
      rewrite map_app, flat_app. cbn [map flat app fst as_padding].
      by rewrite <- !app_assoc.
    + apply Forall_forall. intros s Hs.
      assert (s.1 ∈ map fst mid) as Hin by (apply list_elem_of_fmap; eauto).
      rewrite !list_lookup_insert_ne.
      * by eapply Forall_forall in Hmid.
      * intros Heq. apply (Hz s.1); [exact Hin | rewrite <- Heq; by left].
      * intros Heq. apply Hf. rewrite Heq. apply elem_of_app. by left.
    + unfold text_events. rewrite !length_app, length_flat, length_map.
      cbn [length]. rewrite length_app. cbn [length]. lia.
    + unfold text_events. cbn [map flat app fst]. rewrite map_app, flat_app.
      cbn [map flat app fst]. by rewrite <- !app_assoc.
    + unfold text_events. rewrite !length_app, length_flat, length_map.
      cbn [length]. rewrite length_app. cbn [length]. lia.
    + cbn [length]. lia.
  - erewrite (proj1 (merge_runs inner) _
                [(PEnter, outer); (PEnter, opening); (PExit, opening)]
                [(PEnter, closing); (PExit, closing); (PExit, outer)]);
      [ reflexivity | | exact Hinner | | reflexivity | | ].
    + cbn [map] in Hnd. by do 3 apply NoDup_cons in Hnd as [_ Hnd].
    + unfold text_events. rewrite !length_app, length_flat, length_map.
      cbn [length]. lia.
    + unfold text_events. rewrite !length_app, length_flat, length_map.
      cbn [length]. lia.
    + cbn [length]. lia.
Qed.

(** *** The spans and the tokens that the resolver leaves *)

Lemma coalesce_from_ids spans :
  forall cur,
    map fst (coalesce_from cur spans)
    `sublist_of` map fst (run_of cur) ++ map fst spans.
Proof.
  induction spans as [|s spans IH]; intros cur; cbn [coalesce_from map].
  - by rewrite app_nil_r.
  - destruct (is_line_ending s.2).
    + rewrite map_app. apply sublist_app; [done|]. cbn [map].
      apply sublist_skip. apply (IH None).
    + destruct cur as [c|]; cbn [run_of map app].
      * etrans; [apply (IH (Some (c.1, with_end (end_ s.2) c.2)))|].
        cbn [run_of map app fst]. apply sublist_skip. by apply sublist_cons.
      * apply (IH (Some (s.1, with_type "mathTextData" s.2))).
Qed.

Lemma coalesce_ids spans :
  map fst (coalesce spans) `sublist_of` map fst spans.
Proof. apply (coalesce_from_ids spans None). Qed.

(** The second part leaves line endings and [mathTextData] spans only. *)
Lemma coalesce_from_types spans :
  forall cur,
    (forall c, cur = Some c -> type c.2 = "mathTextData") ->
    Forall (fun s : Span =>
              is_line_ending s.2 = true \/ type s.2 = "mathTextData")
           (coalesce_from cur spans).
Proof.
  induction spans as [|s spans IH]; intros cur Hcur; cbn [coalesce_from].
  - destruct cur as [c|]; cbn; [|constructor].
    constructor; [right; by apply Hcur | constructor].
  - destruct (is_line_ending s.2) eqn:Hle.
    + apply Forall_app. split.
      * destruct cur as [c|]; cbn; [|constructor].
        constructor; [right; by apply Hcur | constructor].
      * constructor; [by left|]. apply IH. discriminate.
    + destruct cur as [c|]; apply IH; intros c' [= <-]; cbn; auto.
Qed.

Lemma length_write_all spans heap :
  length (write_all spans heap) = length heap.
Proof.
  revert heap. induction spans as [|s spans IH]; intros heap; [done|].
  rewrite write_all_cons, IH. apply length_insert.
Qed.

Lemma write_all_lookup_ne spans (heap : list Token) i :
  i ∉ map fst spans -> write_all spans heap !! i = heap !! i.
Proof.
  revert heap. induction spans as [|s spans IH]; intros heap Hi; [done|].
  cbn [map] in Hi. apply not_elem_of_cons in Hi as [Hne Hi].
  rewrite write_all_cons, IH by done. by apply list_lookup_insert_ne.
Qed.

Lemma write_all_lookup spans (heap : list Token) (s : Span) :
  NoDup (map fst spans) -> s ∈ spans -> s.1 < length heap ->
  write_all spans heap !! s.1 = Some s.2.
Proof.
  revert heap. induction spans as [|s' spans IH]; intros heap Hnd Hin Hlt.
  - by apply elem_of_nil in Hin.
  - cbn [map] in Hnd. apply NoDup_cons in Hnd as [Hnot Hnd].
    rewrite write_all_cons.
    apply elem_of_cons in Hin as [->|Hin].
    + rewrite write_all_lookup_ne by done. by apply list_lookup_insert_eq.
    + apply IH; auto. by rewrite length_insert.
Qed.

Lemma write_all_id spans (heap : list Token) :
  Forall (fun s : Span => heap !! s.1 = Some s.2) spans ->
  write_all spans heap = heap.
Proof.
  induction 1 as [|s spans Hs _ IH]; [done|].
  by rewrite write_all_cons, list_insert_id.
Qed.

Lemma resolve_spans_ids inner :
  map fst (resolve_spans inner) `sublist_of` map fst inner.
Proof.
  unfold resolve_spans. destruct (padded inner) eqn:Hp.
  - destruct (padded_inv _ Hp) as (f & mid & z & -> & _).
    cbn [head tail]. rewrite last_snoc. unfold middle. cbn [tail].
    rewrite removelast_last. cbn [map]. apply sublist_skip.
    rewrite !map_app. apply sublist_app; [apply coalesce_ids | done].
  - apply coalesce_ids.
Qed.

Lemma coalesce_elem_of (spans : list Span) (s : Span) :
  s ∈ coalesce spans -> s.1 ∈ map fst spans.
Proof.
  intros Hs. eapply elem_of_sublist; [|apply coalesce_ids].
  by apply list_elem_of_fmap_2.
Qed.

Lemma lookup_lt_heap (heap : list Token) (spans : list Span) i :
  Forall (fun s : Span => heap !! s.1 = Some s.2) spans ->
  i ∈ map fst spans -> i < length heap.
Proof.
  intros Hall (s & -> & Hs)%list_elem_of_fmap_1.
  eapply lookup_lt_Some. by eapply Forall_forall in Hall.
Qed.

Lemma write_all_coalesce (heap : list Token) (spans : list Span) :
  NoDup (map fst spans) ->
  Forall (fun s : Span => heap !! s.1 = Some s.2) spans ->
  Forall (fun s : Span => write_all (coalesce spans) heap !! s.1 = Some s.2)
         (coalesce spans).
Proof.
  intros Hnd Hall. apply Forall_forall. intros s Hs.
  apply write_all_lookup; [| exact Hs |].
  - eapply sublist_NoDup; [exact Hnd | apply coalesce_ids].
  - eapply lookup_lt_heap; [exact Hall | by apply coalesce_elem_of].
Qed.

(** The tokens of the spans that the resolver leaves are as
    [resolve_spans] gives them. *)
Lemma resolve_heap_lookup heap outer opening closing inner :
  shaped heap outer opening closing inner ->
  Forall (fun s : Span => resolve_heap inner heap !! s.1 = Some s.2)
         (resolve_spans inner).
Proof.
  intros [Hnd _ _ _ Hinner].
  cbn [map] in Hnd. do 3 apply NoDup_cons in Hnd as [_ Hnd].
  unfold resolve_spans, resolve_heap.
  destruct (padded inner) eqn:Hp; [|by apply write_all_coalesce].
  destruct (padded_inv _ Hp) as (f & mid & z & -> & _).
  cbn [head tail]. rewrite last_snoc. unfold middle. cbn [tail].
  rewrite removelast_last.
  cbn [map] in Hnd. apply NoDup_cons in Hnd as [Hf Hnd].
  rewrite map_app in Hf, Hnd. apply NoDup_app in Hnd as (Hnd & Hz & _).
  apply Forall_cons in Hinner as [Hfl Hinner].
  apply Forall_app in Hinner as [Hmid Hzl]. rewrite Forall_singleton in Hzl.
  cbn [fst snd] in Hfl, Hzl.
  assert (f.1 ∉ map fst mid) as Hfm.
  { intros H. apply Hf. apply elem_of_app. by left. }
  assert (z.1 ∉ map fst mid) as Hzm.
  { intros H. apply (Hz _ H). by left. }
  assert (f.1 <> z.1) as Hfz.
  { intros H. apply Hf. apply elem_of_app. right. rewrite H. by left. }
  assert (Forall (fun s : Span =>
                    <[f.1 := with_type "mathTextPadding" f.2]>
                      (<[z.1 := with_type "mathTextPadding" z.2]> heap)
                    !! s.1 = Some s.2) mid) as Hmid'.
  { apply Forall_forall. intros s Hs.
    assert (s.1 ∈ map fst mid) as Hin by (by apply list_elem_of_fmap_2).
    rewrite !list_lookup_insert_ne by congruence.
    by eapply Forall_forall in Hmid. }
  constructor; [|apply Forall_app; split; [|constructor; [|constructor]]].
  - cbn [as_padding fst snd]. rewrite write_all_lookup_ne.
    + apply list_lookup_insert_eq. rewrite length_insert.
      by eapply lookup_lt_Some.
    + intros H. apply Hfm. eapply elem_of_sublist; [exact H|].
      apply coalesce_ids.
  - by apply write_all_coalesce.
  - cbn [as_padding fst snd]. rewrite write_all_lookup_ne.
    + rewrite list_lookup_insert_ne by done.
      apply list_lookup_insert_eq. by eapply lookup_lt_Some.
    + intros H. apply Hzm. eapply elem_of_sublist; [exact H|].
      apply coalesce_ids.
Qed.

(** The resolver writes to tokens of the spans only. *)
Lemma resolve_heap_other (heap : list Token) (inner : list Span) i :
  i ∉ map fst inner -> resolve_heap inner heap !! i = heap !! i.
Proof.
  intros Hi. unfold resolve_heap.
  destruct (padded inner) eqn:Hp.
  - destruct (padded_inv _ Hp) as (f & mid & z & -> & _).
    cbn [head tail]. rewrite last_snoc. unfold middle. cbn [tail].
    rewrite removelast_last.
    cbn [map] in Hi. rewrite map_app in Hi.
    apply not_elem_of_cons in Hi as [Hf Hi].
    apply not_elem_of_app in Hi as [Hmid Hz].
    apply not_elem_of_cons in Hz as [Hz _].
    rewrite write_all_lookup_ne.
    + by rewrite !list_lookup_insert_ne.
    + intros H. apply Hmid. eapply elem_of_sublist; [exact H|].
      apply coalesce_ids.
  - apply write_all_lookup_ne. intros H. apply Hi.
    eapply elem_of_sublist; [exact H | apply coalesce_ids].
Qed.

(** What the resolver returns has the shape of what it was given. *)
Lemma shaped_resolve heap outer opening closing inner :
  shaped heap outer opening closing inner ->
  shaped (resolve_heap inner heap) outer opening closing
         (resolve_spans inner).
Proof.
  intros Hs. pose proof (resolve_heap_lookup _ _ _ _ _ Hs) as Hl.
  destruct Hs as [Hnd Ho Ha Hc Hinner].
  pose proof Hnd as Hnd'.
  apply NoDup_cons in Hnd' as [Hout Hnd'].
  apply NoDup_cons in Hnd' as [Hop Hnd'].
  apply NoDup_cons in Hnd' as [Hcl _].
  split.
  - eapply sublist_NoDup; [exact Hnd|].
    do 3 apply sublist_skip. apply resolve_spans_ids.
  - rewrite resolve_heap_other; [done|]. intros H. apply Hout. by do 2 right.
  - rewrite resolve_heap_other; [done|]. intros H. apply Hop. by right.
  - by rewrite resolve_heap_other.
  - exact Hl.
Qed.

Lemma view_flat (heap : list Token) (spans : list Span) :
  Forall (fun s : Span => heap !! s.1 = Some s.2) spans ->
  view (flat (map fst spans)) heap
  = concat (map (fun t => [(PEnter, Some t); (PExit, Some t)])
                (map snd spans)).
Proof.
  induction 1 as [|s spans Hs _ IH]; [done|].
  cbn [map flat view concat app fst snd]. rewrite Hs. f_equal. f_equal.
  exact IH.
Qed.

(** What a reader sees of events of the shape of an accepted run. *)
Lemma view_shaped heap outer opening closing inner t_outer t_opening t_closing :
  shaped heap outer opening closing inner ->
  heap !! outer = Some t_outer ->
  heap !! opening = Some t_opening ->
  heap !! closing = Some t_closing ->
  view (text_events outer opening closing (map fst inner)) heap
  = bracketed t_outer t_opening t_closing (map snd inner).
Proof.
  intros [_ _ _ _ Hinner] Ho Ha Hc.
  unfold view, text_events, bracketed. rewrite !map_app.
  cbn [map fst snd]. rewrite Ho, Ha, Hc. do 4 f_equal.
  by apply view_flat.
Qed.

(** *** The second part, run by run *)

Lemma with_end_same (t : Token) : with_end (end_ t) t = t.
Proof. by destruct t. Qed.

Lemma with_type_same (t : Token) :
  type t = "mathTextData" -> with_type "mathTextData" t = t.
Proof. destruct t; cbn. by intros ->. Qed.

(** A list of spans starts with a run of spans that are not line endings,
    which ends at a line ending or at the end of the list. *)
Lemma run_split (spans : list Span) :
  exists run rest,
    spans = run ++ rest
    /\ Forall (fun s : Span => is_line_ending s.2 = false) run
    /\ no_run_at (map snd rest).
Proof.
  induction spans as [|s spans (run & rest & -> & Hrun & Hrest)].
  - exists [], []. by repeat split.
  - destruct (is_line_ending s.2) eqn:Hle.
    + exists [], (s :: run ++ rest). repeat split; [constructor | exact Hle].
    + exists (s :: run), rest. repeat split; [by constructor | exact Hrest].
Qed.

Lemma coalesce_from_run run :
  forall rest c,
    Forall (fun s : Span => is_line_ending s.2 = false) run ->
    no_run_at (map snd rest) ->
    coalesce_from (Some c) (run ++ rest)
    = (c.1, with_end (end_ (default c.2 (last (map snd run)))) c.2)
        :: coalesce_from None rest.
Proof.
  induction run as [|s run IH]; intros rest c Hrun Hrest.
  - cbn [app map last default]. rewrite with_end_same.
    destruct rest as [|t rest]; cbn [coalesce_from run_of];
      [by destruct c|].
    cbn in Hrest. rewrite Hrest. by destruct c.
  - apply Forall_cons in Hrun as [Hs Hrun].
    cbn [app coalesce_from]. rewrite Hs, (IH rest _ Hrun Hrest).
    cbn [fst snd map]. f_equal. f_equal.
    destruct (map snd run) as [|t l] eqn:Hl; [reflexivity|].
    rewrite last_cons_cons. unfold with_end; cbn.
    destruct (last (t :: l)) eqn:Hlast; [reflexivity|].
    by apply last_None in Hlast.
Qed.

Lemma coalesce_line_ending s spans :
  is_line_ending s.2 = true -> coalesce (s :: spans) = s :: coalesce spans.
Proof. intros H. unfold coalesce. cbn [coalesce_from]. by rewrite H. Qed.

(** A run becomes one [mathTextData] span, from the start of its first
    span to the end of its last span. *)
Lemma coalesce_run (s : Span) run rest :
  Forall (fun s : Span => is_line_ending s.2 = false) (s :: run) ->
  no_run_at (map snd rest) ->
  coalesce (s :: run ++ rest)
  = (s.1, merged s.2 (map snd run)) :: coalesce rest.
Proof.
  intros [Hs Hrun]%Forall_cons Hrest. unfold coalesce.
  cbn [coalesce_from]. rewrite Hs, (coalesce_from_run run rest _ Hrun Hrest).
  cbn [fst snd]. f_equal. f_equal. unfold merged, with_end, with_type; cbn.
  by destruct (last (map snd run)).
Qed.

Lemma no_run_at_coalesce rest :
  no_run_at (map snd rest) -> no_run_at (map snd (coalesce rest)).
Proof.
  destruct rest as [|t rest]; [done|]. intros H.
  change (is_line_ending t.2 = true) in H.
  rewrite (coalesce_line_ending _ _ H). exact H.
Qed.

(** The second part does what the specification says of it. *)
Lemma coalesce_coalesced (spans : list Span) :
  coalesced (map snd spans) (map snd (coalesce spans)).
Proof.
  remember (length spans) as n eqn:Hn. revert spans Hn.
  induction n as [n IH] using lt_wf_ind; intros spans ->.
  destruct spans as [|s spans]; [constructor|].
  destruct (is_line_ending s.2) eqn:Hle.
  - rewrite (coalesce_line_ending _ _ Hle). cbn [map].
    constructor; [exact Hle|]. eapply IH; [|reflexivity]. cbn; lia.
  - destruct (run_split spans) as (run & rest & -> & Hrun & Hrest).
    rewrite coalesce_run by (by try constructor).
    cbn [map fst snd]. rewrite map_app.
    constructor.
    + constructor; [exact Hle|]. apply Forall_fmap.
      eapply Forall_impl; [exact Hrun|]. done.
    + exact Hrest.
    + eapply IH; [|reflexivity]. cbn [length]. rewrite length_app. lia.
Qed.

(** The second part changes nothing of what it has made. *)
Lemma coalesce_coalesce (spans : list Span) :
  coalesce (coalesce spans) = coalesce spans.
Proof.
  remember (length spans) as n eqn:Hn. revert spans Hn.
  induction n as [n IH] using lt_wf_ind; intros spans ->.
  destruct spans as [|s spans]; [done|].
  destruct (is_line_ending s.2) eqn:Hle.
  - rewrite (coalesce_line_ending _ _ Hle).
    rewrite (coalesce_line_ending _ _ Hle). f_equal.
    eapply IH; [|reflexivity]. cbn; lia.
  - destruct (run_split spans) as (run & rest & -> & Hrun & Hrest).
    rewrite coalesce_run by (by try constructor).
    rewrite (coalesce_run _ [] (coalesce rest));
      [| by repeat constructor | by apply no_run_at_coalesce].
    cbn [map fst snd]. f_equal.
    eapply IH; [|reflexivity]. cbn [length]. rewrite length_app. lia.
Qed.

Lemma coalesce_head (s : Span) spans :
  exists t rest, coalesce (s :: spans) = (s.1, t) :: rest.
Proof.
  destruct (is_line_ending s.2) eqn:Hle.
  - rewrite (coalesce_line_ending _ _ Hle). destruct s. eauto.
  - destruct (run_split spans) as (run & rest & -> & Hrun & Hrest).
    rewrite coalesce_run by (by try constructor). eauto.
Qed.

Lemma coalesce_types (spans : list Span) :
  Forall (fun s : Span =>
            is_line_ending s.2 = true \/ type s.2 = "mathTextData")
         (coalesce spans).
Proof. apply coalesce_from_types. discriminate. Qed.

Lemma not_padding (t : Token) :
  is_line_ending t = true \/ type t = "mathTextData" \/ is_edge t = true ->
  type t <> "mathTextPadding".
Proof.
  unfold is_line_ending, is_edge, is_line_ending_or_space.
  intros [H|[H|H]] Ht; rewrite Ht in H; discriminate.
Qed.

(** ** The claims about the resolver *)

Lemma elem_of_text_events ph i outer opening closing toks :
  (ph, i) ∈ text_events outer opening closing toks ->
  i = outer \/ i = opening \/ i = closing \/ i ∈ toks.
Proof.
  unfold text_events. rewrite !elem_of_app, !elem_of_cons.
  intros [H|[H|H]].
  - destruct H as [H|[H|[H|H]]]; simplify_eq; auto.
    by apply elem_of_nil in H.
  - do 3 right. induction toks as [|tok toks IH]; cbn [flat] in H.
    + by apply elem_of_nil in H.
    + rewrite !elem_of_cons in H. destruct H as [H|[H|H]]; simplify_eq.
      * by left.
      * by left.
      * right. by apply IH.
  - destruct H as [H|[H|[H|H]]]; simplify_eq; auto.
    by apply elem_of_nil in H.
Qed.

Lemma shaped_examples :
  shaped padded_heap 0 1 5 padded_inner
  /\ shaped spaced_heap 0 1 6 spaced_inner.
Proof.
  split; split; try reflexivity;
    try (repeat constructor; cbn; rewrite ?elem_of_cons, ?elem_of_nil;
         intuition lia).
Qed.

(** The examples are the events of the runs over [\( a \)] and [\(a  b\)]. *)
Lemma run_events_examples :
  run_events "\( a \)"
  = Some (text_events 0 1 5 (map fst padded_inner), padded_heap)
  /\ run_events "\(a  b\)"
     = Some (text_events 0 1 6 (map fst spaced_inner), spaced_heap).
Proof. split; vm_compute; reflexivity. Qed.

(** C5. On the events of an accepted run, the resolver makes
    [mathTextPadding] of the first and of the last span between the
    sequences when both are a space or a line ending and there is a
    [mathTextData] span strictly between them ([padded]); and a token of
    the events it returns is of type [mathTextPadding] only then, and only
    if it is the token of the first or of the last span: without the
    condition, as for content of spaces only, no span becomes padding. *)
Theorem padding_at_the_edges heap outer opening closing inner :
  shaped heap outer opening closing inner ->
  exists events' heap',
    resolveMathText (text_events outer opening closing (map fst inner)) heap
    = Done (events', heap')
    /\ (padded inner = true ->
        exists f mid z,
          inner = f :: mid ++ [z]
          /\ token_at events' heap' 3
             = Some (f.1, with_type "mathTextPadding" f.2)
          /\ token_at events' heap' (Z.of_nat (length events') - 4)
             = Some (z.1, with_type "mathTextPadding" z.2))
    /\ (forall ph i t,
           (ph, i) ∈ events' -> heap' !! i = Some t ->
           type t = "mathTextPadding" ->
           padded inner = true
           /\ (head (map fst inner) = Some i
               \/ last (map fst inner) = Some i)).
Proof.
  intros Hs. eexists _, _.
  split; [by apply resolveMathText_shaped|].
  pose proof (resolve_heap_lookup _ _ _ _ _ Hs) as Hl.
  pose proof (coalesce_types inner) as Htypes.
  split.
  - intros Hp. destruct (padded_inv _ Hp) as (f & mid & z & -> & _).
    exists f, mid, z. split; [reflexivity|].
    unfold resolve_spans in *. rewrite Hp in *.
    cbn [head tail] in *. rewrite last_snoc in *. unfold middle in *.
    cbn [tail] in *. rewrite removelast_last in *.
    apply Forall_cons in Hl as [Hf Hl].
    apply Forall_app in Hl as [_ Hz]. rewrite Forall_singleton in Hz.
    split.
    + eapply (token_at_lookup _ _ _ (3 + 2 * 0)); [done | | exact Hf].
      apply (lookup_enter [_; _; _]). reflexivity.
    + eapply (token_at_lookup _ _ _
                (3 + 2 * length (as_padding f :: coalesce mid) + 1));
        [| | exact Hz].
      * unfold text_events. rewrite !length_app, length_flat, length_map.
        cbn [length]. rewrite length_app. cbn [length]. lia.
      * apply (lookup_exit [_; _; _]). cbn [map].
        rewrite map_app. cbn [map].
        apply (list_lookup_middle (_ :: _)). cbn [length].
        by rewrite length_map.
  - intros ph i t Hin Hi Ht.
    destruct Hs as [Hnd Ho Ha Hc Hinner].
    pose proof Hnd as Hnd'.
    apply NoDup_cons in Hnd' as [Hout Hnd'].
    apply NoDup_cons in Hnd' as [Hop Hnd'].
    apply NoDup_cons in Hnd' as [Hcl Hnd'].
    apply elem_of_text_events in Hin as [->|[->|[->|Hin]]].
    + rewrite resolve_heap_other in Hi; [|intros H; apply Hout; by do 2 right].
      rewrite Hi in Ho. injection Ho as Ho. rewrite Ho in Ht. discriminate.
    + rewrite resolve_heap_other in Hi; [|intros H; apply Hop; by right].
      rewrite Hi in Ha. injection Ha as Ha. rewrite Ha in Ht. discriminate.
    + rewrite resolve_heap_other in Hi by done.
      rewrite Hi in Hc. injection Hc as Hc. rewrite Hc in Ht. discriminate.
    + apply list_elem_of_fmap_1 in Hin as (s & -> & Hin).
      eapply Forall_forall in Hl; [|exact Hin].
      rewrite Hl in Hi. injection Hi as <-.
      unfold resolve_spans in Hin.
      destruct (padded inner) eqn:Hp.
      * split; [reflexivity|].
        destruct (padded_inv _ Hp) as (f & mid & z & -> & _).
        cbn [head tail] in Hin. rewrite last_snoc in Hin.
        unfold middle in Hin. cbn [tail] in Hin.
        rewrite removelast_last in Hin.
        apply elem_of_cons in Hin as [->|Hin]; [by left|].
        apply elem_of_app in Hin as [Hin|Hin].
        -- pose proof (coalesce_types mid) as Hmid.
           eapply Forall_forall in Hmid; [|exact Hin].
           exfalso. eapply not_padding; [|exact Ht]. tauto.
        -- apply list_elem_of_singleton in Hin as ->. right.
           cbn [map]. rewrite map_app. cbn [map].
           apply (last_snoc z.1 (f.1 :: map fst mid)).
      * eapply Forall_forall in Htypes; [|exact Hin].
        exfalso. eapply not_padding; [|exact Ht]. tauto.
Qed.

(** The events of [\( a \)]: the two spaces become padding. *)
Lemma padding_at_the_edges_witness :
  exists events' heap',
    resolveMathText (text_events 0 1 5 (map fst padded_inner)) padded_heap
    = Done (events', heap')
    /\ token_at events' heap' 3
       = Some (2, token "mathTextPadding" 2 3)
    /\ token_at events' heap' (Z.of_nat (length events') - 4)
       = Some (4, token "mathTextPadding" 4 5).
Proof.
  destruct (padding_at_the_edges padded_heap 0 1 5 padded_inner
              (proj1 shaped_examples))
    as (events' & heap' & Hres & Hpad & _).
  exists events', heap'. split; [exact Hres|].
  destruct (Hpad eq_refl) as (f & mid & z & Hinner & Hf & Hz).
  assert (f = (2, token "space" 2 3) /\ z = (4, token "space" 4 5))
    as [-> ->].
  { unfold padded_inner in Hinner.
    destruct mid as [|m mid]; [discriminate|].
    destruct mid as [|m' mid]; [by injection Hinner as <- <- <-|].
    destruct mid; discriminate. }
  by split.
Defined.




(** C7, as stated, fails: on the events of the run over [\( a \)] the
    resolver makes padding of the two spaces; given what it returned, it
    takes the padding spans for a run with the data, and leaves one
    [mathTextData] span: eight events where there were twelve. *)
Lemma resolver_is_not_idempotent :
  exists events heap events1 heap1 events2 heap2,
    run_events "\( a \)" = Some (events, heap)
    /\ resolveMathText events heap = Done (events1, heap1)
    /\ resolveMathText events1 heap1 = Done (events2, heap2)
    /\ length events1 = 12 /\ length events2 = 8
    /\ (events2, heap2) <> (events1, heap1).
Proof.
  eexists _, _, _, _, _, _.
  split; [vm_compute; reflexivity|].
  split; [vm_compute; reflexivity|].
  split; [vm_compute; reflexivity|].
  repeat split. discriminate.
Qed.

Lemma edge_is_no_padding (t : Token) :
  is_edge (with_type "mathTextPadding" t) = false.
Proof. reflexivity. Qed.

(** C7, amended. On the events of an accepted run the resolver returns, and
    so it does on what it returned; the second call changes nothing
    exactly when the condition of the first part ([padded]) holds neither
    of the spans of the run nor of the spans that the first call leaves. *)
Theorem resolver_twice heap outer opening closing inner :
  shaped heap outer opening closing inner ->
  exists events1 heap1 events2 heap2,
    resolveMathText (text_events outer opening closing (map fst inner)) heap
    = Done (events1, heap1)
    /\ resolveMathText events1 heap1 = Done (events2, heap2)
    /\ ((events2, heap2) = (events1, heap1)
        <-> padded inner = false /\ padded (resolve_spans inner) = false).
Proof.
  intros Hs.
  pose proof (shaped_resolve _ _ _ _ _ Hs) as Hs1.
  pose proof (resolve_heap_lookup _ _ _ _ _ Hs) as Hl1.
  pose proof (resolve_heap_lookup _ _ _ _ _ Hs1) as Hl2.
  eexists _, _, _, _.
  split; [by apply resolveMathText_shaped|].
  split; [by apply resolveMathText_shaped|].
  split.
  - intros [= _ Hheap].
    rewrite Hheap in Hl2.
    destruct (padded (resolve_spans inner)) eqn:Hp1.
    + (* the first call leaves spans that the first part applies to *)
      exfalso.
      destruct (padded_inv _ Hp1) as (f & mid & z & Heq & Hf & _).
      unfold resolve_spans at 1 in Hl2. rewrite Hp1, Heq in Hl2.
      cbn [head tail] in Hl2. rewrite last_snoc in Hl2.
      apply Forall_cons in Hl2 as [Hf2 _]. cbn [as_padding fst snd] in Hf2.
      rewrite Heq in Hl1. apply Forall_cons in Hl1 as [Hf1 _].
      rewrite Hf1 in Hf2. injection Hf2 as Hf2.
      rewrite Hf2 in Hf. by rewrite edge_is_no_padding in Hf.
    + destruct (padded inner) eqn:Hp; [exfalso | done].
      (* the first call made padding, which the second call merges *)
      destruct (padded_inv _ Hp) as (f & mid & z & -> & _).
      unfold resolve_spans at 1 in Hl2. rewrite Hp1 in Hl2.
      unfold resolve_spans in Hl1, Hl2. rewrite Hp in Hl1, Hl2.
      cbn [head tail] in Hl1, Hl2. rewrite last_snoc in Hl1, Hl2.
      destruct (coalesce_head (as_padding f)
                  (coalesce (middle (f :: mid ++ [z])) ++ [as_padding z]))
        as (t & rest & Hhead).
      pose proof (coalesce_types
                    (as_padding f
                       :: coalesce (middle (f :: mid ++ [z]))
                       ++ [as_padding z])) as Htypes.
      rewrite Hhead in Hl2, Htypes.
      apply Forall_cons in Hl2 as [Hf2 _].
      apply Forall_cons in Htypes as [Ht _].
      apply Forall_cons in Hl1 as [Hf1 _].
      cbn [as_padding fst snd] in Hf1, Hf2, Ht.
      rewrite Hf1 in Hf2. injection Hf2 as <-.
      destruct Ht as [Ht|Ht]; discriminate.
  - intros [Hp Hp1]. f_equal.
    + unfold resolve_spans at 1. rewrite Hp1.
      unfold resolve_spans. rewrite Hp. by rewrite coalesce_coalesce.
    + unfold resolve_heap at 1. rewrite Hp1.
      unfold resolve_spans at 1. rewrite Hp, coalesce_coalesce.
      apply write_all_id. unfold resolve_spans in Hl1. by rewrite Hp in Hl1.
Qed.

(** The events of [\(a  b\)]: the second call changes nothing. *)
Lemma resolver_twice_witness :
  exists events1 heap1 events2 heap2,
    resolveMathText (text_events 0 1 6 (map fst spaced_inner)) spaced_heap
    = Done (events1, heap1)
    /\ resolveMathText events1 heap1 = Done (events2, heap2)
    /\ (events2, heap2) = (events1, heap1).
Proof.
  destruct (resolver_twice spaced_heap 0 1 6 spaced_inner
              (proj2 shaped_examples))
    as (events1 & heap1 & events2 & heap2 & H1 & H2 & Hiff).
  exists events1, heap1, events2, heap2.
  split; [exact H1|]. split; [exact H2|].
  apply Hiff. split; reflexivity.
Defined.

(** ** From the recognizer to the resolver *)

Lemma effects_app es1 es2 c :
  effects c (es1 ++ es2)
  = match effects c es1 with
    | Some c' => effects c' es2
    | None => None
    end.
Proof.
  revert c. induction es1 as [|e es1 IH]; intros c; cbn; [done|].
  destruct (effect c e); [apply IH | done].
Qed.

Lemma spans_at_app n toks1 toks2 :
  spans_at n (toks1 ++ toks2)
  = spans_at n toks1 ++ spans_at (n + length toks1) toks2.
Proof.
  revert n. induction toks1 as [|t toks1 IH]; intros n; cbn.
  - by rewrite Nat.add_0_r.
  - rewrite IH. do 3 f_equal. lia.
Qed.

Lemma snd_spans_at n toks : map snd (spans_at n toks) = toks.
Proof.
  revert n. induction toks as [|t toks IH]; intros n; cbn; [done|].
  by rewrite IH.
Qed.

Lemma fst_spans_at n toks : map fst (spans_at n toks) = seq n (length toks).
Proof.
  revert n. induction toks as [|t toks IH]; intros n; cbn; [done|].
  by rewrite IH.
Qed.

Lemma length_spans_at n toks : length (spans_at n toks) = length toks.
Proof.
  revert n. induction toks as [|t toks IH]; intros n; cbn; [done|].
  by rewrite IH.
Qed.

(** The context after one more span. *)
Lemma content_context_snoc t0 t1 toks t p prev :
  {| events := ([(PEnter, 0); (PEnter, 1); (PExit, 1)]
                  ++ flat (map fst (spans_at 2 toks))
                  ++ [(PEnter, 2 + length toks)])
                 ++ [(PExit, 2 + length toks)];
     heap := t0 :: t1 :: toks ++ [t];
     stack := [0];
     now := p;
     previousCode := prev |}
  = content_context t0 t1 (toks ++ [t]) None p prev.
Proof.
  unfold content_context. f_equal.
  - rewrite spans_at_app, map_app, flat_app. cbn [spans_at map flat fst].
    rewrite app_nil_r, <- !app_assoc. reflexivity.
  - by rewrite app_nil_r.
Qed.

Lemma leave_data t0 t1 toks d p prev :
  effect (content_context t0 t1 toks (Some d) p prev) (Exit "mathTextData")
  = Some (content_context t0 t1 (toks ++ [close_at p d]) None p prev).
Proof.
  unfold effect. cbn [stack content_context events heap now previousCode].
  rewrite <- content_context_snoc. do 2 f_equal.
  change (alter (close_at p) (2 + length toks) (t0 :: t1 :: toks ++ [d]))
    with (t0 :: t1 :: alter (close_at p) (length toks) (toks ++ [d])).
  do 2 f_equal.
  rewrite <- (Nat.add_0_r (length toks)) at 1.
  by rewrite alter_app_r.
Qed.

Lemma enter_data t0 t1 toks p prev :
  effect (content_context t0 t1 toks None p prev) (Enter "mathTextData")
  = Some (content_context t0 t1 toks
            (Some {| type := "mathTextData"; start_ := p; end_ := None |})
            p prev).
Proof.
  unfold effect, content_context.
  cbn [stack events heap now previousCode]. rewrite !app_nil_r.
  cbn [length]. by rewrite <- !app_assoc.
Qed.

Lemma consume_in_content t0 t1 toks open p prev code :
  effect (content_context t0 t1 toks open p prev) (Consume code)
  = Some (content_context t0 t1 toks open (advance code p) code).
Proof. reflexivity. Qed.

(** A span of one code, entered and left in the state [between]. *)
Lemma whole_span ty t0 t1 toks p prev code :
  effects (content_context t0 t1 toks None p prev)
          [Enter ty; Consume code; Exit ty]
  = Some (content_context t0 t1
            (toks ++ [{| type := ty; start_ := p;
                         end_ := Some (advance code p) |}])
            None (advance code p) code).
Proof.
  cbn [effects effect content_context stack events heap now previousCode].
  rewrite <- content_context_snoc, !app_nil_r. cbn [length app].
  do 2 f_equal.
  change (alter ?f (S (S ?n)) (t0 :: t1 :: ?l))
    with (t0 :: t1 :: alter f n l).
  do 2 f_equal.
  rewrite <- (Nat.add_0_r (length toks)) at 1.
  by rewrite alter_app_r.
Qed.

Lemma effects_leave t0 t1 toks (open : option Token) p prev :
  Forall content_type toks ->
  (forall d, open = Some d -> type d = "mathTextData") ->
  exists toks1,
    effects (content_context t0 t1 toks open p prev)
            (if match open with Some _ => true | None => false end
             then [Exit "mathTextData"] else [])
    = Some (content_context t0 t1 toks1 None p prev)
    /\ Forall content_type toks1.
Proof.
  intros Htoks Hopen. destruct open as [d|].
  - exists (toks ++ [close_at p d]). cbn [effects]. rewrite leave_data.
    split; [reflexivity|]. apply Forall_app. split; [exact Htoks|].
    constructor; [|constructor]. do 2 right. cbn. by apply Hopen.
  - exists toks. by split.
Qed.

(** The effects over the content leave the spans of the content, one
    after the other, and the recognizer in the state [between]. *)
Lemma effects_content content :
  forall t0 t1 toks (open : option Token) p prev,
    Forall content_type toks ->
    (forall d, open = Some d -> type d = "mathTextData") ->
    exists toks' p' prev',
      effects (content_context t0 t1 toks open p prev)
              (content_effects match open with Some _ => true | None => false end
                               content)
      = Some (content_context t0 t1 toks' None p' prev')
      /\ Forall content_type toks'.
Proof.
  induction content as [|x content IH];
    intros t0 t1 toks open p prev Htoks Hopen; cbn [content_effects].
  - destruct (effects_leave t0 t1 toks open p prev Htoks Hopen)
      as (toks1 & Heq & Htoks1).
    eauto.
  - destruct (x =? codes.space)%Z; [|destruct (markdownLineEnding (Some x))].
    + destruct (effects_leave t0 t1 toks open p prev Htoks Hopen)
        as (toks1 & Heq & Htoks1).
      rewrite effects_app, Heq.
      rewrite (effects_app [_; _; _]), whole_span.
      apply (IH _ _ _ None); [|discriminate].
      apply Forall_app. split; [exact Htoks1|].
      constructor; [|constructor]. by left.
    + destruct (effects_leave t0 t1 toks open p prev Htoks Hopen)
        as (toks1 & Heq & Htoks1).
      rewrite effects_app, Heq.
      rewrite (effects_app [_; _; _]), whole_span.
      apply (IH _ _ _ None); [|discriminate].
      apply Forall_app. split; [exact Htoks1|].
      constructor; [|constructor]. right. by left.
    + destruct open as [d|].
      * cbn [app effects]. rewrite consume_in_content.
        apply (IH _ _ _ (Some d)); auto.
      * cbn [app effects]. rewrite enter_data, consume_in_content.
        apply (IH _ _ _ (Some _)); auto. by intros d [= <-].
Qed.

Lemma spans_at_lookup toks :
  forall n (before after : list Token),
    length before = n ->
    Forall (fun s : Span => (before ++ toks ++ after) !! s.1 = Some s.2)
           (spans_at n toks).
Proof.
  induction toks as [|t toks IH]; intros n before after Hn; cbn [spans_at].
  - constructor.
  - constructor.
    + cbn [fst snd]. by apply list_lookup_middle.
    + specialize (IH (S n) (before ++ [t]) after).
      rewrite <- !app_assoc in IH. apply IH.
      rewrite length_app. cbn [length]. lia.
Qed.

(** The effects of the closing sequence, after the content. *)
Lemma effects_closing t0 t1 toks p prev :
  effects (content_context t0 t1 toks None p prev) closing_effects
  = Some
      {| events :=
           text_events 0 1 (2 + length toks) (map fst (spans_at 2 toks));
         heap :=
           close_at (advance (Some codes.rightParenthesis)
                       (advance (Some codes.backslash) p)) t0
             :: t1 :: toks
             ++ [{| type := "mathTextSequence"; start_ := p;
                    end_ := Some (advance (Some codes.rightParenthesis)
                                    (advance (Some codes.backslash) p)) |}];
         stack := [];
         now := advance (Some codes.rightParenthesis)
                  (advance (Some codes.backslash) p);
         previousCode := Some codes.rightParenthesis |}.
Proof.
  unfold closing_effects, content_context.
  cbn [effects effect stack events heap now previousCode].
  rewrite !app_nil_r. cbn [length]. do 2 f_equal.
  - unfold text_events. by rewrite <- !app_assoc.
  - change (S (S (length toks))) with (length (t0 :: t1 :: toks)).
    rewrite <- (Nat.add_0_r (length (t0 :: t1 :: toks))), alter_app_r.
    reflexivity.
Qed.

(** The events of a run of the text recognizer that ends in [ok] without
    taking a backslash for data have the shape that the properties of the
    resolver are stated for, with spans of the types [space], [lineEnding]
    and [mathTextData]. *)
Lemma accepted_events_shaped self content rest p prev :
  previous self (previousCode self) = Some true ->
  codes.backslash ∉ content ->
  exists c inner,
    effects (fresh p prev)
      (tokenizeParensMathText self
         (Some codes.backslash :: Some codes.leftParenthesis
            :: map Some content
            ++ Some codes.backslash :: Some codes.rightParenthesis :: rest)).1.1
    = Some c
    /\ events c = text_events 0 1 (2 + length inner) (map fst inner)
    /\ shaped (heap c) 0 1 (2 + length inner) inner
    /\ Forall (fun s : Span => content_type s.2) inner.
Proof.
  intros Hprev Hno. rewrite (tokenize_content self content rest Hprev Hno).
  cbn [fst]. rewrite effects_app.
  change (effects (fresh p prev) opening_effects)
    with (Some (content_context
                  {| type := "mathText"; start_ := p; end_ := None |}
                  {| type := "mathTextSequence"; start_ := p;
                     end_ := Some (advance (Some codes.leftParenthesis)
                                     (advance (Some codes.backslash) p)) |}
                  [] None
                  (advance (Some codes.leftParenthesis)
                     (advance (Some codes.backslash) p))
                  (Some codes.leftParenthesis))).
  cbv beta iota. rewrite effects_app.
  match goal with
  | |- context [effects (content_context ?t0 ?t1 [] None ?q ?pv)
                        (content_effects false content)] =>
    destruct (effects_content content t0 t1 [] None q pv)
      as (toks & p' & prev' & Heq & Htoks); [constructor | discriminate |]
  end.
  cbv beta iota in Heq. rewrite Heq, effects_closing.
  eexists _, (spans_at 2 toks).
  split; [reflexivity|].
  cbn [events heap]. rewrite length_spans_at.
  split; [reflexivity|]. split.
  - split.
    + rewrite fst_spans_at.
      apply NoDup_cons; split.
      { rewrite !elem_of_cons, elem_of_seq. lia. }
      apply NoDup_cons; split.
      { rewrite !elem_of_cons, elem_of_seq. lia. }
      apply NoDup_cons; split; [|apply NoDup_seq].
      rewrite elem_of_seq. lia.
    + reflexivity.
    + reflexivity.
    + change (2 + length toks) with (S (S (length toks))).
      rewrite !lookup_cons. by rewrite list_lookup_middle.
    + apply (spans_at_lookup toks 2 [_; _] [_]). reflexivity.
  - apply Forall_forall. intros s Hs.
    apply (list_elem_of_fmap_2 snd) in Hs. rewrite snd_spans_at in Hs.
    by eapply Forall_forall in Htoks.
Qed.

(** End to end: the resolver, given the events of such a run, ends, and its
    result is the one [resolve_spans] and [resolve_heap] describe. *)
Lemma accepted_run_resolves self content rest p prev :
  previous self (previousCode self) = Some true ->
  codes.backslash ∉ content ->
  exists c inner,
    effects (fresh p prev)
      (tokenizeParensMathText self
         (Some codes.backslash :: Some codes.leftParenthesis
            :: map Some content
            ++ Some codes.backslash :: Some codes.rightParenthesis :: rest)).1.1
    = Some c
    /\ resolveMathText (events c) (heap c)
       = Done (text_events 0 1 (2 + length inner)
                 (map fst (resolve_spans inner)),
               resolve_heap inner (heap c)).
Proof.
  intros Hprev Hno.
  destruct (accepted_events_shaped self content rest p prev Hprev Hno)
    as (c & inner & Hc & Hev & Hshaped & _).
  exists c, inner. split; [exact Hc|].
  rewrite Hev. by apply resolveMathText_shaped.
Qed.

(** * The bounds of the model are large enough *)

(** ** The flow recognizer *)

Lemma finishes_after n : finishes n after.
Proof.
  intros input r _. unfold after.
  by destruct (is_eof (peek input) && negb (foundClosingBracket r)).
Qed.

Lemma finishes_prefix n ok ty limit size :
  finishes n ok -> finishes n (prefix ok ty limit size).
Proof.
  intros Hok input. revert size.
  induction input as [|x input IH]; intros size r Hn; cbn [prefix].
  - by apply Hok.
  - destruct (markdownSpace (Some x) && under size limit).
    + apply IH. cbn [length] in Hn. lia.
    + by apply Hok.
Qed.

Lemma finishes_factorySpace n ok ty max :
  finishes n ok -> finishes n (factorySpace ok ty max).
Proof.
  intros Hok input r Hn. unfold factorySpace.
  destruct (markdownSpace (peek input)); [|by apply Hok].
  by apply (finishes_prefix n ok ty _ 0 Hok).
Qed.

Lemma finishes_afterSequenceClose n ok nok :
  finishes n ok -> finishes n nok -> finishes n (afterSequenceClose ok nok).
Proof.
  intros Hok Hnok input r Hn. unfold afterSequenceClose.
  destruct (is_eof (peek input) || markdownLineEnding (peek input));
    [by apply Hok | by apply Hnok].
Qed.

Lemma finishes_sequenceClose n ok nok foundBackslash :
  finishes n ok -> finishes n nok ->
  finishes n (sequenceClose ok nok foundBackslash).
Proof.
  intros Hok Hnok input. revert foundBackslash.
  induction input as [|x input IH]; intros fb r Hn; cbn [sequenceClose].
  - by apply Hnok.
  - cbn [length] in Hn.
    destruct ((x =? codes.backslash)%Z && negb fb); [apply IH; lia|].
    destruct ((x =? codes.rightSquareBracket)%Z && fb); [|by apply Hnok].
    apply finishes_factorySpace with (n := n); [|lia].
    by apply finishes_afterSequenceClose.
Qed.

Lemma finishes_tokenizeClosingFence n self ok nok :
  finishes n ok -> finishes n nok ->
  finishes n (tokenizeClosingFence self ok nok).
Proof.
  intros Hok Hnok input r Hn. unfold tokenizeClosingFence.
  destruct (disable_null self); [|discriminate].
  apply finishes_factorySpace with (n := n); [|done].
  intros input' r' Hn'. unfold beforeSequenceClose.
  by apply finishes_sequenceClose with (n := n).
Qed.

Lemma finishes_contentStart n self beforeContentChunk :
  finishes n beforeContentChunk ->
  finishes n (contentStart self beforeContentChunk).
Proof.
  intros Hk input r Hn. unfold contentStart.
  destruct (initialSize self); [by apply Hk|].
  by apply finishes_factorySpace with (n := n).
Qed.

Lemma finishes_beforeNonLazyContinuation n self beforeContentChunk :
  finishes n beforeContentChunk ->
  finishes n (beforeNonLazyContinuation self beforeContentChunk).
Proof.
  intros Hk input r Hn. unfold beforeNonLazyContinuation, attempt.
  apply finishes_tokenizeClosingFence with (n := n); [|  |done].
  - apply finishes_after.
  - intros _ r' _. by apply finishes_contentStart with (n := n).
Qed.

Lemma finishes_contentChunk n beforeContentChunk :
  finishes n beforeContentChunk ->
  finishes n (contentChunk beforeContentChunk).
Proof.
  intros Hk input.
  induction input as [|x input IH]; intros r Hn; cbn [contentChunk].
  - by apply Hk.
  - destruct (markdownLineEnding (Some x)); [by apply Hk|].
    apply IH. cbn [length] in Hn. lia.
Qed.

(** After a line ending, and when the opening line ends the input, the
    rest of the run is within the bound when the content is. *)
Lemma continuation_finishes n self beforeContentChunk input r :
  finishes n beforeContentChunk ->
  length input <= n -> 0 < n ->
  attempt (tokenizeNonLazyContinuation self)
          (beforeNonLazyContinuation self beforeContentChunk)
          after input r
  <> FOutOfFuel.
Proof.
  intros Hk Hn Hpos.
  unfold attempt, tokenizeNonLazyContinuation, nonLazyContinuation_start.
  destruct input as [|x rest].
  - by apply finishes_beforeNonLazyContinuation with (n := n).
  - destruct (negb (markdownLineEnding (Some x))); [discriminate|].
    unfold lineStart. cbn [length] in Hn.
    match goal with |- context [lazy self ?l] => destruct (lazy self l) end.
    + apply (finishes_after (S (S (length rest)))). cbn [length]. lia.
    + apply finishes_beforeNonLazyContinuation with (n := n); [done|lia].
Qed.

Lemma finishes_beforeContentChunk fuel self :
  finishes fuel (beforeContentChunk fuel self).
Proof.
  induction fuel as [|f IH]; intros input r Hn; [lia|].
  cbn [beforeContentChunk].
  destruct (is_eof (peek input)) eqn:Heof; [by apply (finishes_after (S f))|].
  destruct input as [|x rest]; [discriminate|]. cbn [length] in Hn.
  destruct (markdownLineEnding (peek (x :: rest))) eqn:Heol.
  - destruct f as [|f]; [lia|].
    apply continuation_finishes with (n := S f); [done | cbn; lia | lia].
  - cbn [contentChunk]. cbn [peek] in Heol.
    change (markdownLineEnding (Some x)) with
      (markdownLineEnding (peek (x :: rest))).
    rewrite Heol.
    apply finishes_contentChunk with (n := f); [done|lia].
Qed.

Lemma finishes_metaAfter fuel self : finishes fuel (metaAfter fuel self).
Proof.
  intros input r Hn. unfold metaAfter.
  destruct (interrupt self); [discriminate|].
  apply continuation_finishes with (n := fuel); [|lia|lia].
  apply finishes_beforeContentChunk.
Qed.

Lemma finishes_meta n metaAfter : finishes n metaAfter -> finishes n (meta metaAfter).
Proof.
  intros Hk input.
  induction input as [|x input IH]; intros r Hn; cbn [meta].
  - by apply Hk.
  - destruct (markdownLineEnding (Some x)); [by apply Hk|].
    destruct (x =? codes.rightSquareBracket)%Z; [discriminate|].
    apply IH. cbn [length] in Hn. lia.
Qed.

Lemma finishes_metaBefore n metaAfter :
  finishes n metaAfter -> finishes n (metaBefore metaAfter).
Proof.
  intros Hk input r Hn. unfold metaBefore.
  destruct (is_eof (peek input) || markdownLineEnding (peek input));
    [by apply Hk | by apply finishes_meta with (n := n)].
Qed.

Lemma finishes_flow_start n metaAfter :
  finishes n metaAfter -> finishes n (flow_start metaAfter).
Proof.
  intros Hk input r Hn. unfold flow_start, openBracket.
  destruct input as [|x [|y rest]]; try discriminate;
    destruct (x =? codes.backslash)%Z; try discriminate.
  destruct (y =? codes.leftSquareBracket)%Z; [|discriminate].
  apply finishes_factorySpace with (n := n);
    [by apply finishes_metaBefore|].
  cbn [length] in Hn. lia.
Qed.

(** The bound that [tokenizeMathBracketFlow] gives the content loop is
    never reached: every run of the flow recognizer ends in [ok], in [nok]
    or in a failed assertion. *)
Lemma tokenizeMathBracketFlow_finishes self input :
  tokenizeMathBracketFlow self input <> FOutOfFuel.
Proof.
  unfold tokenizeMathBracketFlow.
  apply finishes_flow_start with (n := S (length input)); [|lia].
  apply finishes_metaAfter.
Qed.

(** ** The text recognizer *)

(** A state that returns a state has consumed the code it was called
    with. *)
Lemma step_consumes self s found code es found' s' :
  step self s found code = (es, found', Goto s') -> 1 <= consumed es.
Proof.
  destruct s, code as [x|]; unfold step; cbn;
    unfold code_is, markdownLineEnding, is_eof; cbn;
    repeat (case_match; cbn in *; try congruence);
    intros; unfold before in *; cbn in *; simplify_eq; cbn; lia.
Qed.

Lemma run_finishes fuel self s found chunks :
  length chunks < fuel -> (run fuel self s found chunks).1.2 <> OutOfFuel.
Proof.
  revert s found chunks.
  induction fuel as [|f IH]; intros s found chunks Hn; [lia|].
  cbn [run]. destruct chunks as [|code chunks]; [discriminate|].
  destruct (step self s found code) as [[es found'] next] eqn:Hstep.
  destruct next as [s'| | |]; try discriminate.
  apply step_consumes in Hstep.
  specialize (IH s' found' (drop (consumed es) (code :: chunks))).
  destruct (run f self s' found' (drop (consumed es) (code :: chunks)))
    as [[t o] rest'].
  apply IH. rewrite length_drop. cbn [length] in *. lia.
Qed.

(** The bound that [tokenizeParensMathText] gives the main loop is never
    reached: every run of the text recognizer ends in [ok], in [nok], in a
    failed assertion, or with the chunks used up. *)
Lemma tokenizeParensMathText_finishes self chunks :
  (tokenizeParensMathText self chunks).1.2 <> OutOfFuel.
Proof. apply run_finishes. lia. Qed.

(** ** The resolver *)

Lemma find_data_finishes fuel events heap tailExitIndex index :
  (tailExitIndex - index <= Z.of_nat fuel)%Z -> 0 < fuel ->
  find_data fuel events heap tailExitIndex index <> Diverged.
Proof.
  revert index.
  induction fuel as [|f IH]; intros index Hn Hpos; [lia|].
  cbn [find_data].
  destruct (Z.ltb_spec (index + 1) tailExitIndex); [|discriminate].
  destruct (type_at events heap (index + 1)); [|discriminate].
  destruct (String.eqb _ _); [discriminate|].
  apply IH; lia.
Qed.

(** The first part returns, and the window it leaves is within the
    events. *)
Lemma padding_window events heap :
  match padding events heap with
  | Done w =>
    (tailExitIndex w - headEnterIndex w + 2 < Z.of_nat (S (length events)))%Z
  | TypeError => True
  | Diverged => False
  end.
Proof.
  unfold padding.
  destruct (type_at events heap 3) as [hd|] eqn:Hhd; [|done].
  assert (find_data (length events) events heap
            (Z.of_nat (length events) - 4) 3 <> Diverged) as Hfind.
  { apply find_data_finishes; [lia|].
    destruct events; [discriminate Hhd | cbn [length]; lia]. }
  repeat case_match; simplify_eq; try done;
    cbn [tailExitIndex headEnterIndex]; lia.
Qed.

Lemma merge_finishes fuel :
  forall events heap tailExitIndex index enter,
    (tailExitIndex - index < Z.of_nat fuel)%Z -> 0 < fuel ->
    merge fuel events heap tailExitIndex index enter <> Diverged.
Proof.
  induction fuel as [|f IH]; intros events heap tl index enter Hn Hpos;
    [lia|].
  cbn [merge].
  destruct (Z.leb_spec (index + 1) tl); [|discriminate].
  assert (forall events heap enter,
             merge f events heap tl (index + 1) enter <> Diverged) as Hnext
    by (intros; apply IH; lia).
  destruct enter as [enter|].
  - destruct (if (index + 1 =? tl)%Z then Some true
              else match type_at events heap (index + 1) with
                   | Some ty => Some (String.eqb ty types.lineEnding)
                   | None => None
                   end) as [[|]|]; [|apply Hnext|discriminate].
    destruct (set_type events heap enter "mathTextData"); [|discriminate].
    destruct (index + 1 =? enter + 2)%Z; [apply Hnext|].
    destruct (copy_end _ _ _ _); [|discriminate].
    apply IH; lia.
  - destruct (index + 1 =? tl)%Z; [apply Hnext|].
    destruct (type_at events heap (index + 1)); [|discriminate].
    destruct (String.eqb _ _); apply Hnext.
Qed.

(** The bounds that [resolveMathText] gives its two loops are never
    reached: every call returns or throws a [TypeError]. *)
Lemma resolveMathText_finishes events heap :
  resolveMathText events heap <> Diverged.
Proof.
  unfold resolveMathText.
  pose proof (padding_window events heap) as Hw.
  destruct (padding events heap) as [w| |]; [|discriminate|done].
  apply merge_finishes; lia.
Qed.

(** * Further properties of the text recognizer *)

(** ** Every run that ends in [ok] spans [\(] to [\)] *)

(** Only [between] returns [closeParenthesis], after it has entered the
    sequence and consumed a backslash. *)
Lemma step_to_closeParenthesis self s found code es found' :
  step self s found code = (es, found', Goto closeParenthesis) ->
  exists es',
    es = es' ++ [Enter "mathTextSequence"; Consume (Some codes.backslash)].
Proof.
  destruct s, code as [x|]; unfold step; cbn;
    unfold code_is, markdownLineEnding, is_eof; cbn;
    repeat (case_match; cbn in *; try congruence);
    intros; unfold before in *; cbn in *; simplify_eq;
    repeat match goal with
           | H : (_ =? _)%Z = true |- _ => apply Z.eqb_eq in H; subst
           end.
  all: first [ by exists []
             | by eexists [_]
             | by eexists [_; _]
             | by eexists [_; _; _]
             | by eexists [_; _; _; _] ].
Qed.

(** Only [closeParenthesis] returns [ok], on a right parenthesis. *)
Lemma step_Ok self s found code es found' :
  step self s found code = (es, found', Ok) ->
  s = closeParenthesis
  /\ es = [Consume (Some codes.rightParenthesis); Exit "mathTextSequence";
           Exit "mathText"].
Proof.
  destruct s, code as [x|]; unfold step; cbn;
    unfold code_is, markdownLineEnding, is_eof; cbn;
    repeat (case_match; cbn in *; try congruence);
    intros; unfold before in *; cbn in *; simplify_eq;
    repeat match goal with
           | H : (_ =? _)%Z = true |- _ => apply Z.eqb_eq in H; subst
           end; done.
Qed.

Lemma run_S fuel self s found code chunks :
  run (S fuel) self s found (code :: chunks)
  = (let '(es, found', next) := step self s found code in
     let rest := drop (consumed es) (code :: chunks) in
     match next with
     | Goto s' =>
       let '(t, o, rest') := run fuel self s' found' rest in
       (es ++ t, o, rest')
     | Ok => (es, Accepted, rest)
     | Nok => (es, Rejected, rest)
     | Throw => (es, Threw, rest)
     end).
Proof. reflexivity. Qed.

Lemma run_closing self fuel :
  forall s found chunks t rest,
    run fuel self s found chunks = (t, Accepted, rest) ->
    (exists mid, t = mid ++ closing_effects)
    \/ (s = closeParenthesis
        /\ t = [Consume (Some codes.rightParenthesis);
                Exit "mathTextSequence"; Exit "mathText"]).
Proof.
  induction fuel as [|fuel IH]; intros s found chunks t rest; cbn [run];
    [congruence|].
  destruct chunks as [|code chunks]; [congruence|].
  destruct (step self s found code) as [[es found'] next] eqn:Hstep.
  destruct next as [s'| | |]; try congruence.
  - destruct (run fuel self s' found' _) as [[t' o'] rest'] eqn:Hrun.
    intros [= <- -> <-]. left.
    destruct (IH _ _ _ _ _ Hrun) as [[mid ->]|[-> ->]].
    + exists (es ++ mid). by rewrite app_assoc.
    + destruct (step_to_closeParenthesis _ _ _ _ _ _ Hstep) as [es' ->].
      exists es'. by rewrite <- app_assoc.
  - intros [= <- <-]. right. by apply step_Ok in Hstep.
Qed.

Lemma accepted_run_delimited_effects self chunks t rest :
  tokenizeParensMathText self chunks = (t, Accepted, rest) ->
  exists mid, t = mid ++ closing_effects.
Proof.
  unfold tokenizeParensMathText. intros Hrun.
  destruct (run_closing _ _ _ _ _ _ _ Hrun) as [[mid ->]|[[=] _]].
  by exists mid.
Qed.

(** X1. A run of the text recognizer ends in [ok] only on chunks that
    begin with a backslash and a left parenthesis, and its effects are
    then those of the opening sequence, effects for what is between, and
    those of the closing sequence: the last codes consumed are a
    backslash and a right parenthesis. *)
Theorem accepted_run_is_delimited self chunks t rest :
  tokenizeParensMathText self chunks = (t, Accepted, rest) ->
  exists between_chunks mid,
    chunks = Some codes.backslash :: Some codes.leftParenthesis
               :: between_chunks
    /\ t = opening_effects ++ mid ++ closing_effects.
Proof.
  unfold tokenizeParensMathText.
  destruct chunks as [|c0 [|c1 chunks]]; [discriminate| |].
  - cbn [length]. rewrite run_S. unfold step. cbn [call].
    destruct (negb _); [discriminate|].
    destruct (previous _ _) as [[|]|]; cbn; discriminate.
  - cbn [length]. rewrite run_S. unfold step at 1. cbn [call].
    destruct (code_is c0 codes.backslash) eqn:Hc0; cbn [negb];
      [|discriminate].
    destruct c0 as [x0|]; [|discriminate]. apply Z.eqb_eq in Hc0 as ->.
    destruct (previous self (previousCode self)) as [[|]|]; try discriminate.
    change (drop _ (Some codes.backslash :: c1 :: chunks))
      with (c1 :: chunks).
    rewrite run_S. unfold step at 1. cbn [call].
    destruct (code_is c1 codes.leftParenthesis) eqn:Hc1; [|discriminate].
    destruct c1 as [x1|]; [|discriminate]. apply Z.eqb_eq in Hc1 as ->.
    change (drop _ (Some codes.leftParenthesis :: chunks)) with chunks.
    destruct (run _ self between false chunks) as [[t' o'] rest'] eqn:Hrun.
    intros [= <- -> <-].
    destruct (run_closing _ _ _ _ _ _ _ Hrun) as [[mid ->]|[[=] _]].
    by exists chunks, mid.
Qed.

(** The run over [\(a\)]. *)
Lemma accepted_run_is_delimited_witness :
  exists between_chunks mid,
    chunks_of "\(a\)"
    = Some codes.backslash :: Some codes.leftParenthesis :: between_chunks
    /\ (tokenizeParensMathText at_start (chunks_of "\(a\)")).1.1
       = opening_effects ++ mid ++ closing_effects.
Proof.
  apply (accepted_run_is_delimited at_start (chunks_of "\(a\)")
           (tokenizeParensMathText at_start (chunks_of "\(a\)")).1.1
           [codes.eof]).
  vm_compute. reflexivity.
Defined.

(** ** What a run consumes *)

(** A state consumes no code but the one it is called with. *)
Lemma step_consumes_code self s found code es found' next c :
  step self s found code = (es, found', next) ->
  c ∈ consumed_codes es -> c = code.
Proof.
  destruct s, code as [x|]; unfold step; cbn;
    unfold code_is, markdownLineEnding, is_eof; cbn;
    repeat (case_match; cbn in *; try congruence);
    intros; unfold before in *; cbn in *; simplify_eq; cbn in *;
    repeat match goal with
           | H : _ ∈ [] |- _ => by apply elem_of_nil in H
           | H : _ ∈ _ :: _ |- _ => apply elem_of_cons in H as [->|H]
           end; done.
Qed.

Lemma consumed_codes_app es1 es2 :
  consumed_codes (es1 ++ es2) = consumed_codes es1 ++ consumed_codes es2.
Proof.
  induction es1 as [|e es1 IH]; [done|]. destruct e; cbn; by rewrite ?IH.
Qed.

Lemma run_consumes_chunks self fuel :
  forall s found chunks t o rest c,
    run fuel self s found chunks = (t, o, rest) ->
    c ∈ consumed_codes t -> c ∈ chunks.
Proof.
  induction fuel as [|fuel IH]; intros s found chunks t o rest c; cbn [run].
  - intros [= <- <- <-] H. by apply elem_of_nil in H.
  - destruct chunks as [|code chunks].
    { intros [= <- <- <-] H. by apply elem_of_nil in H. }
    destruct (step self s found code) as [[es found'] next] eqn:Hstep.
    assert (c ∈ consumed_codes es -> c ∈ code :: chunks) as Hes.
    { intros H. apply (step_consumes_code _ _ _ _ _ _ _ _ Hstep) in H.
      subst. by left. }
    destruct next as [s'| | |]; try (intros [= <- <- <-]; exact Hes).
    destruct (run fuel self s' found' _) as [[t' o'] rest'] eqn:Hrun.
    intros [= <- <- <-]. rewrite consumed_codes_app, elem_of_app.
    intros [H|H]; [by apply Hes|].
    apply (IH _ _ _ _ _ _ _ Hrun) in H.
    eapply elem_of_sublist; [exact H | apply sublist_drop].
Qed.

(** X2. Without a right parenthesis among the chunks, no run of the text
    recognizer ends in [ok]. *)
Theorem no_right_parenthesis_no_math self chunks :
  Some codes.rightParenthesis ∉ chunks ->
  (tokenizeParensMathText self chunks).1.2 <> Accepted.
Proof.
  intros Hno Hacc.
  destruct (tokenizeParensMathText self chunks) as [[t o] rest] eqn:Hrun.
  cbn in Hacc. subst o.
  destruct (accepted_run_delimited_effects _ _ _ _ Hrun) as [mid ->].
  apply Hno. unfold tokenizeParensMathText in Hrun.
  eapply run_consumes_chunks; [exact Hrun|].
  rewrite consumed_codes_app, elem_of_app. right. cbn.
  apply elem_of_cons. right. apply elem_of_cons. by left.
Qed.

(** The text [\(a b], that ends without a closing sequence. *)
Lemma no_right_parenthesis_no_math_witness :
  (tokenizeParensMathText at_start (chunks_of "\(a b")).1.2 <> Accepted.
Proof.
  apply (no_right_parenthesis_no_math at_start (chunks_of "\(a b")).
  intros H. apply list_elem_of_In in H. vm_compute in H.
  intuition discriminate.
Defined.

(** ** The tokens that are open *)

Lemma step_depth_Ok self s found code es found' base :
  step self s found code = (es, found', Ok) ->
  depth_after es (base + depth s) = Some base.
Proof.
  intros H. apply step_Ok in H as [-> ->]. cbn.
  by rewrite Nat.add_succ_r, Nat.add_1_r.
Qed.

Lemma run_closes_tokens self fuel :
  forall s found chunks t rest base,
    run fuel self s found chunks = (t, Accepted, rest) ->
    depth_after t (base + depth s) = Some base.
Proof.
  induction fuel as [|fuel IH]; intros s found chunks t rest base; cbn [run];
    [congruence|].
  destruct chunks as [|code chunks]; [congruence|].
  destruct (step self s found code) as [[es found'] next] eqn:Hstep.
  destruct next as [s'| | |]; try congruence.
  - apply (step_depth _ _ _ _ _ _ _ base) in Hstep.
    destruct (run fuel self s' found' _) as [[t' o'] rest'] eqn:Hrun.
    intros [= <- -> <-]. rewrite depth_after_app, Hstep.
    eapply IH, Hrun.
  - intros [= <- <-]. exact (step_depth_Ok _ _ _ _ _ _ base Hstep).
Qed.

(** X3. In every run of the text recognizer that ends in [ok], also one
    that takes a backslash for data, each exit finds a token open and the
    last exit closes the last open token: the stack of the host is empty
    when [ok] is returned. *)
Theorem accepted_run_closes_every_token self chunks p prev :
  (tokenizeParensMathText self chunks).1.2 = Accepted ->
  exists c,
    effects (fresh p prev) (tokenizeParensMathText self chunks).1.1 = Some c
    /\ stack c = [].
Proof.
  unfold tokenizeParensMathText.
  destruct (run _ self start false chunks) as [[t o] rest] eqn:Hrun.
  cbn [fst snd]. intros ->.
  pose proof (run_closes_tokens _ _ _ _ _ _ _ 0 Hrun) as Hd.
  destruct (effects_defined t (fresh p prev) 0 Hd) as (c & Hc & Hlen).
  exists c. split; [exact Hc|]. by destruct (stack c).
Qed.

(** The run over [\(\ab\)], in which a backslash is taken for data. *)
Lemma accepted_run_closes_every_token_witness :
  exists c,
    effects (fresh origin None)
      (tokenizeParensMathText at_start (chunks_of "\(\ab\)")).1.1 = Some c
    /\ stack c = [].
Proof.
  apply (accepted_run_closes_every_token at_start (chunks_of "\(\ab\)")).
  reflexivity.
Defined.

(** ** A backslash that is taken for data *)

Lemma closeParenthesis_degrade self found x :
  code_is x codes.rightParenthesis = false ->
  step self closeParenthesis found x
  = before [Enter "mathTextData"; Consume x; Exit "mathTextSequence"]
           (call 2 self data found x).
Proof.
  intros Hx. unfold step.
  replace (call 3 self closeParenthesis found x)
    with (before [Enter "mathTextData"; Consume x; Exit "mathTextSequence"]
                 (call 2 self data found x)); [done|].
  cbn [call]. by rewrite Hx.
Qed.

(** Over content without a backslash, then a backslash and a code that is
    not a right parenthesis. *)
Lemma run_degrade self content x :
  codes.backslash ∉ content ->
  code_is x codes.rightParenthesis = false ->
  forall (in_data : bool) found rest fuel,
    length content + 2 <= fuel ->
    exists t o rest',
      run fuel self (if in_data then data else between) found
          (map Some content ++ Some codes.backslash :: x :: rest)
      = (content_effects in_data content
           ++ [Enter "mathTextSequence"; Consume (Some codes.backslash);
               Enter "mathTextData"; Consume x; Exit "mathTextSequence"]
           ++ t,
         o, rest').
Proof.
  intros Hno Hx.
  induction content as [|y content IH]; intros in_data found rest fuel Hfuel.
  - destruct fuel as [|[|fuel]]; cbn in Hfuel; try lia.
    cbn [map app]. rewrite run_S.
    assert (step self (if in_data then data else between) found
                 (Some codes.backslash)
            = (content_effects in_data []
                 ++ [Enter "mathTextSequence"; Consume (Some codes.backslash)],
               found, Goto closeParenthesis)) as ->
      by (by destruct in_data).
    cbv beta iota zeta.
    replace (consumed _) with 1 by (by destruct in_data).
    change (drop 1 (Some codes.backslash :: x :: rest)) with (x :: rest).
    rewrite run_S, closeParenthesis_degrade by done.
    destruct (call 2 self data found x) as [[es1 f1] n1]. unfold before.
    cbn [fst snd].
    destruct n1 as [s'| | |];
      [match goal with
       | |- context [run fuel self s' f1 ?l] =>
         destruct (run fuel self s' f1 l) as [[t' o'] r']
       end|..];
      eexists _, _, _; rewrite <- !app_assoc; cbn [app]; reflexivity.
  - apply not_elem_of_cons in Hno as [Hy Hno].
    destruct fuel as [|fuel]; cbn in Hfuel; [lia|].
    specialize (IH Hno).
    assert ((y =? codes.backslash)%Z = false) as Hb
      by (apply Z.eqb_neq; congruence).
    clear Hy; rename Hb into Hy.
    cbn [map app run]. unfold step.
    destruct in_data; cbn [call is_eof code_is orb negb before fst snd];
      rewrite Hy; cbn [orb];
      destruct (y =? codes.space)%Z eqn:Hs; cbn [orb].
    all: try destruct (markdownLineEnding (Some y)) eqn:Hle; cbn [orb].
    all: cbn [call is_eof code_is orb negb before fst snd app consumed
              is_consume Nat.add skipn].
    all: try rewrite Hy; try rewrite Hs; try rewrite Hle; cbn [orb].
    all: cbn [call is_eof code_is orb negb before fst snd app consumed
              is_consume Nat.add skipn].
    all: rewrite drop_0.
    all: first [destruct (IH true found rest fuel) as (t & o & r' & ->);
                  [lia|]
               | destruct (IH false found rest fuel) as (t & o & r' & ->);
                  [lia|]].
    all: cbn [content_effects]; rewrite Hs; try rewrite Hle.
    all: eexists _, _, _; rewrite <- ?app_assoc; reflexivity.
Qed.

(** X4. When a backslash in content without an earlier backslash is
    followed by a code that is not a right parenthesis, the recognizer
    asks to exit [mathTextSequence] while the [mathTextData] it has just
    entered is the innermost open token: whatever follows, the effects of
    the run are not well nested. *)
Theorem degrade_is_not_well_nested self content x rest :
  previous self (previousCode self) = Some true ->
  codes.backslash ∉ content ->
  code_is x codes.rightParenthesis = false ->
  well_nested
    (tokenizeParensMathText self
       (Some codes.backslash :: Some codes.leftParenthesis
          :: map Some content ++ Some codes.backslash :: x :: rest)).1.1
  = false.
Proof.
  intros Hprev Hno Hx. unfold tokenizeParensMathText.
  cbn [length].
  erewrite run_Goto; cycle 1.
  { unfold step. cbn. rewrite Hprev. reflexivity. }
  cbn [consumed is_consume Nat.add skipn].
  erewrite run_Goto; cycle 1.
  { reflexivity. }
  cbn [consumed is_consume Nat.add skipn].
  rewrite drop_0.
  match goal with
  | |- context [run ?f self between false _] =>
    destruct (run_degrade self content x Hno Hx false false rest f)
      as (t & o & rest' & Heq)
  end.
  { rewrite length_app, length_map. cbn. lia. }
  cbn [negb] in Heq. rewrite Heq.
  cbn [fst app]. unfold well_nested. cbn [opens].
  rewrite String.eqb_refl, opens_app.
  pose proof (opens_content content false ["mathText"]) as H. cbn in H.
  rewrite H. reflexivity.
Qed.

(** The text [\(a\b\)]. *)
Lemma degrade_is_not_well_nested_witness :
  well_nested
    (tokenizeParensMathText at_start
       (Some codes.backslash :: Some codes.leftParenthesis
          :: map Some (codes_of "a") ++ Some codes.backslash
          :: Some 98%Z :: chunks_of "\)")).1.1
  = false.
Proof.
  apply (degrade_is_not_well_nested at_start (codes_of "a") (Some 98%Z)
           (chunks_of "\)")).
  - reflexivity.
  - intros H. apply list_elem_of_In in H. vm_compute in H.
    intuition discriminate.
  - reflexivity.
Defined.

(** ** How many codes a state consumes *)

(** X5. A state of the text recognizer that returns a state has consumed
    the code it was called with once, but for [closeParenthesis]: when it
    goes on, it has consumed its code twice. A state that returns [ok] has
    consumed its code once. *)
Theorem states_consume self s found code es found' next :
  step self s found code = (es, found', next) ->
  match next with
  | Goto _ =>
    consumed_codes es
    = match s with
      | closeParenthesis => [code; code]
      | _ => [code]
      end
  | Ok => consumed_codes es = [code]
  | _ => True
  end.
Proof.
  destruct s, code as [x|]; unfold step; cbn;
    unfold code_is, markdownLineEnding, is_eof; cbn;
    repeat (case_match; cbn in *; try congruence);
    intros; unfold before in *; cbn in *; simplify_eq; done.
Qed.

(** The states [between], at a space, and [closeParenthesis], at an
    [a]. *)
Lemma states_consume_witness :
  consumed_codes [Enter "space"; Consume (Some 32%Z); Exit "space"]
  = [Some 32%Z]
  /\ consumed_codes
       [Enter "mathTextData"; Consume (Some 97%Z); Exit "mathTextSequence";
        Consume (Some 97%Z)]
     = [Some 97%Z; Some 97%Z].
Proof.
  split.
  - exact (states_consume at_start between false (Some 32%Z) _ _ (Goto between)
             eq_refl).
  - exact (states_consume at_start closeParenthesis false (Some 97%Z) _ _
             (Goto data) eq_refl).
Defined.

(** ** Content without a backslash *)

Lemma consumed_codes_content content :
  forall in_data, consumed_codes (content_effects in_data content)
                  = map Some content.
Proof.
  induction content as [|x content IH]; intros in_data.
  - by destruct in_data.
  - cbn [content_effects].
    destruct (x =? codes.space)%Z; [|destruct (markdownLineEnding (Some x))];
      destruct in_data; cbn; by rewrite IH.
Qed.

(** X6. Over [\(], content without a backslash and [\)], the run ends in
    [ok] with the chunks after the closing sequence left, and has consumed
    every code before them once, in order. *)
Theorem content_is_consumed_once self content rest :
  previous self (previousCode self) = Some true ->
  codes.backslash ∉ content ->
  exists t,
    tokenizeParensMathText self
      (Some codes.backslash :: Some codes.leftParenthesis
         :: map Some content
         ++ Some codes.backslash :: Some codes.rightParenthesis :: rest)
    = (t, Accepted, rest)
    /\ consumed_codes t ++ rest
       = Some codes.backslash :: Some codes.leftParenthesis
           :: map Some content
           ++ Some codes.backslash :: Some codes.rightParenthesis :: rest.
Proof.
  intros Hprev Hno. eexists. split; [by apply tokenize_content|].
  rewrite !consumed_codes_app, consumed_codes_content. cbn.
  by rewrite <- app_assoc.
Qed.

(** The text [\(a b\)]. *)
Lemma content_is_consumed_once_witness :
  exists t,
    tokenizeParensMathText at_start
      (Some codes.backslash :: Some codes.leftParenthesis
         :: map Some (codes_of "a b")
         ++ Some codes.backslash :: Some codes.rightParenthesis
         :: [codes.eof])
    = (t, Accepted, [codes.eof])
    /\ consumed_codes t ++ [codes.eof]
       = Some codes.backslash :: Some codes.leftParenthesis
           :: map Some (codes_of "a b")
           ++ Some codes.backslash :: Some codes.rightParenthesis
           :: [codes.eof].
Proof.
  apply (content_is_consumed_once at_start (codes_of "a b") [codes.eof]).
  - reflexivity.
  - intros H. apply list_elem_of_In in H. vm_compute in H.
    intuition discriminate.
Defined.

(** ** The assertions *)

(** Only [start] asserts, and the bound on the calls from state to state
    is not reached. *)
Lemma step_no_Throw self s found code :
  s <> start -> (step self s found code).2 <> Throw.
Proof.
  intros Hs. destruct s, code as [x|]; try done; unfold step; cbn;
    unfold code_is, markdownLineEnding, is_eof; cbn;
    repeat (case_match; cbn in *; try congruence).
Qed.

Lemma step_not_to_start self s found code :
  (step self s found code).2 <> Goto start.
Proof.
  destruct s, code as [x|]; unfold step; cbn;
    unfold code_is, markdownLineEnding, is_eof; cbn;
    repeat (case_match; cbn in *; try congruence);
    unfold before in *; cbn in *; simplify_eq; done.
Qed.

Lemma run_no_Throw self fuel :
  forall s found chunks,
    s <> start -> (run fuel self s found chunks).1.2 <> Threw.
Proof.
  induction fuel as [|fuel IH]; intros s found chunks Hs; cbn [run]; [done|].
  destruct chunks as [|code chunks]; [done|].
  pose proof (step_no_Throw self s found code Hs) as Hno.
  pose proof (step_not_to_start self s found code) as Hnot.
  destruct (step self s found code) as [[es found'] next]. cbn in Hno, Hnot.
  destruct next as [s'| | |]; try done.
  specialize (IH s' found' (drop (consumed es) (code :: chunks))).
  destruct (run fuel self s' found' _) as [[t o] rest]. cbn in *.
  apply IH. congruence.
Qed.

(** X18. Called at a backslash, where [previous] allows the construct, no
    assertion of the text recognizer fails, whatever the chunks are. *)
Theorem text_assertions_hold self chunks :
  previous self (previousCode self) = Some true ->
  (tokenizeParensMathText self (Some codes.backslash :: chunks)).1.2
  <> Threw.
Proof.
  intros Hprev. unfold tokenizeParensMathText. cbn [length].
  rewrite run_S. unfold step at 1. cbn [call code_is].
  change (codes.backslash =? codes.backslash)%Z with true. cbn [negb].
  rewrite Hprev.
  cbv beta iota zeta.
  match goal with
  | |- context [run ?f self openParenthesis false ?l] =>
    pose proof (run_no_Throw self f openParenthesis false l) as H;
    destruct (run f self openParenthesis false l) as [[t o] rest]
  end.
  cbn [fst snd] in *. by apply H.
Qed.

(** The chunks of [\x\\(]. *)
Lemma text_assertions_hold_witness :
  (tokenizeParensMathText at_start
     (Some codes.backslash :: chunks_of "x\\(")).1.2
  <> Threw.
Proof.
  apply (text_assertions_hold at_start (chunks_of "x\\(")). reflexivity.
Defined.

(** * Further properties of the flow recognizer *)

(** ** Effects that stand *)

Lemma emit_cons e es r : emit (e :: es) r = emit es (emit1 r e).
Proof. reflexivity. Qed.

Lemma emit_app es1 es2 r : emit (es1 ++ es2) r = emit es2 (emit es1 r).
Proof. apply foldl_app. Qed.

Lemma trace_emit es r : trace (emit es r) = trace r ++ es.
Proof.
  revert r. induction es as [|e es IH]; intros r.
  - cbn. by rewrite app_nil_r.
  - rewrite emit_cons, IH.
    destruct e as [ty|[x|]|ty]; cbn; by rewrite <- app_assoc.
Qed.

Lemma found_emit es r :
  foundClosingBracket (emit es r) = foundClosingBracket r.
Proof.
  revert r. induction es as [|e es IH]; intros r; [done|].
  rewrite emit_cons, IH. by destruct e as [ty|[x|]|ty].
Qed.

Lemma found_it_emit es r : found_it (emit es r) = emit es (found_it r).
Proof.
  revert r. induction es as [|e es IH]; intros r; [done|].
  rewrite !emit_cons, IH. by destruct e as [ty|[x|]|ty].
Qed.

Lemma lineNo_emit_consumes cs r :
  one_line cs -> lineNo (emit (consumes cs) r) = lineNo r.
Proof.
  intros Hcs. revert r.
  induction Hcs as [|x cs Hx Hcs IH]; intros r; [done|].
  cbn [consumes map]. fold (consumes cs). rewrite emit_cons, IH.
  cbn. by rewrite Hx.
Qed.

Lemma lineNo_emit_token ty cs r :
  one_line cs -> lineNo (emit (token_effects ty cs) r) = lineNo r.
Proof.
  intros Hcs. destruct cs as [|x cs]; [done|].
  unfold token_effects.
  change (Enter ty :: consumes (x :: cs) ++ [Exit ty])
    with ([Enter ty] ++ consumes (x :: cs) ++ [Exit ty]).
  rewrite !emit_app. cbn [emit foldl emit1 exit lineNo].
  by rewrite lineNo_emit_consumes.
Qed.

(** A token around codes, when there is a first code. *)
Lemma emit_token ty x cs r :
  emit (token_effects ty (x :: cs)) r
  = exit ty (emit (consumes (x :: cs)) (enter ty r)).
Proof.
  unfold token_effects.
  change (Enter ty :: consumes (x :: cs) ++ [Exit ty])
    with ([Enter ty] ++ consumes (x :: cs) ++ [Exit ty]).
  by rewrite !emit_app.
Qed.

(** ** Leading spaces *)

Lemma leading_split limit size cs :
  cs = (leading limit size cs).1 ++ (leading limit size cs).2.
Proof.
  revert size. induction cs as [|x cs IH]; intros size; cbn; [done|].
  destruct (markdownSpace (Some x) && under size limit); cbn; [|done].
  by rewrite <- IH.
Qed.

Lemma at_eol_no_space more :
  at_eol more -> markdownSpace (peek more) = false.
Proof.
  unfold at_eol. destruct more as [|y more]; cbn; [done|].
  apply line_ending_is_no_space.
Qed.

Lemma leading_eol limit size line more :
  at_eol more ->
  leading limit size (line ++ more)
  = ((leading limit size line).1, (leading limit size line).2 ++ more).
Proof.
  intros Hmore. revert size.
  induction line as [|x line IH]; intros size; cbn [app leading].
  - apply at_eol_no_space in Hmore.
    destruct more as [|y more]; [done|]. cbn in *. by rewrite Hmore.
  - destruct (markdownSpace (Some x) && under size limit); [|done].
    by rewrite IH.
Qed.

Lemma leading_spaces limit size sp rest :
  spaces sp ->
  match limit with
  | Some l => size + length sp <= l
  | None => True
  end ->
  markdownSpace (peek rest) = false ->
  leading limit size (sp ++ rest) = (sp, rest).
Proof.
  intros Hsp. revert size.
  induction Hsp as [|x sp Hx Hsp IH]; intros size Hlimit Hrest;
    cbn [app leading].
  - destruct rest as [|y rest]; [done|]. cbn in Hrest |- *. by rewrite Hrest.
  - rewrite Hx.
    assert (under size limit = true) as ->.
    { destruct limit as [l|]; [|done]. cbn [length] in Hlimit.
      apply Nat.ltb_lt. lia. }
    cbn [andb]. rewrite IH; [done| |done].
    destruct limit; [|done]. cbn [length] in Hlimit. lia.
Qed.

Lemma prefix_exact k ty limit size cs r :
  prefix k ty limit size cs r
  = k (leading limit size cs).2
      (exit ty (emit (consumes (leading limit size cs).1) r)).
Proof.
  revert size r. induction cs as [|x cs IH]; intros size r; cbn; [done|].
  destruct (markdownSpace (Some x) && under size limit); [|done].
  by rewrite IH.
Qed.

(** [factorySpace]: a token of the type around the leading spaces, if
    there are any, and on in [ok] at the rest. *)
Lemma factorySpace_exact k ty max cs r :
  max <> Some 1 ->
  let limit := match max with
               | Some (S m) => Some m
               | _ => None
               end in
  factorySpace k ty max cs r
  = k (leading limit 0 cs).2
      (emit (token_effects ty (leading limit 0 cs).1) r).
Proof.
  intros Hmax limit. unfold factorySpace. fold limit.
  destruct cs as [|x cs]; [done|].
  cbn [peek head leading].
  assert (under 0 limit = true) as ->.
  { subst limit. destruct max as [[|[|m]]|]; done. }
  rewrite andb_true_r.
  destruct (markdownSpace (Some x)) eqn:Hx; [|done].
  rewrite prefix_exact. cbn [leading]. rewrite Hx. cbn [andb fst snd].
  assert (under 0 limit = true) as ->.
  { subst limit. destruct max as [[|[|m]]|]; done. }
  cbn [fst snd]. by rewrite emit_token.
Qed.

(** ** The lines of a block *)

Lemma restore_same r r' :
  foundClosingBracket r' = foundClosingBracket r -> restore r r' = r.
Proof. intros H. unfold restore. rewrite H. by destruct r. Qed.

Lemma at_eol_cons e rest :
  markdownLineEnding (Some e) = true -> at_eol (e :: rest).
Proof. intros He. unfold at_eol. cbn. by rewrite He. Qed.

Lemma at_eol_content_lines body tail :
  Forall content_line body -> at_eol tail ->
  at_eol (content_lines body ++ tail).
Proof.
  intros Hbody Htail. destruct Hbody as [|[e line] body [He _] _]; [done|].
  by apply at_eol_cons.
Qed.

(** On a line without a right square bracket the closing fence is not
    found, and [foundClosingBracket] is as it was. *)
Lemma sequenceClose_fails ok nok line more :
  codes.rightSquareBracket ∉ line -> at_eol more ->
  forall foundBackslash r,
    exists i' r',
      sequenceClose ok nok foundBackslash (line ++ more) r = nok i' r'
      /\ foundClosingBracket r' = foundClosingBracket r.
Proof.
  intros Hno Hmore.
  induction line as [|x line IH]; intros fb r; cbn [app].
  - destruct more as [|y more]; cbn [sequenceClose]; [by eauto|].
    unfold at_eol in Hmore. cbn in Hmore.
    assert ((y =? codes.backslash)%Z = false) as ->.
    { unfold markdownLineEnding, codes.horizontalTab in Hmore.
      apply Z.ltb_lt in Hmore. apply Z.eqb_neq. unfold codes.backslash. lia. }
    assert ((y =? codes.rightSquareBracket)%Z = false) as ->.
    { unfold markdownLineEnding, codes.horizontalTab in Hmore.
      apply Z.ltb_lt in Hmore. apply Z.eqb_neq.
      unfold codes.rightSquareBracket. lia. }
    cbn [andb]. eauto.
  - apply not_elem_of_cons in Hno as [Hx Hno]. cbn [sequenceClose].
    destruct ((x =? codes.backslash)%Z && negb fb).
    + destruct (IH Hno true (consume x r)) as (i' & r' & Heq & Hf).
      exists i', r'. by rewrite Heq.
    + assert ((x =? codes.rightSquareBracket)%Z = false) as ->
        by (by apply Z.eqb_neq).
      cbn [andb]. eauto.
Qed.

Lemma closing_fence_fails self d ok nok line more r :
  disable_null self = Some d ->
  codes.rightSquareBracket ∉ line -> at_eol more ->
  exists i' r',
    tokenizeClosingFence self ok nok (line ++ more) r = nok i' r'
    /\ foundClosingBracket r' = foundClosingBracket r.
Proof.
  intros Hd Hno Hmore. unfold tokenizeClosingFence. rewrite Hd.
  rewrite factorySpace_exact by (by destruct (existsb _ d)).
  cbv zeta. rewrite leading_eol by done. cbn [snd].
  unfold beforeSequenceClose.
  match goal with
  | |- context [sequenceClose ok nok false (?l ++ more) ?r1] =>
    destruct (sequenceClose_fails ok nok l more) with (foundBackslash := false)
      (r := r1) as (i' & r' & Heq & Hf); [|done|]
  end.
  - intros Hin. apply Hno.
    rewrite (leading_split
               (match (if existsb (String.eqb "codeIndented") d
                       then None else Some constants.tabSize) with
                | Some (S m) => Some m
                | _ => None
                end) 0 line).
    apply elem_of_app. by right.
  - exists i', r'. split; [exact Heq|].
    rewrite Hf. cbn. by rewrite found_emit.
Qed.

Lemma contentChunk_exact k v more r :
  one_line v -> at_eol more ->
  contentChunk k (v ++ more) r
  = k more (exit "mathFlowValue" (emit (consumes v) r)).
Proof.
  intros Hv Hmore. revert r.
  induction Hv as [|x v Hx Hv IH]; intros r; cbn [app].
  - destruct more as [|y more]; [done|].
    unfold at_eol in Hmore. cbn in Hmore |- *. by rewrite Hmore.
  - cbn [contentChunk]. rewrite Hx. by rewrite IH.
Qed.

(** The codes of a line, up to its end, are one [mathFlowValue] token. *)
Lemma value_step self f v more r :
  one_line v -> at_eol more -> length (v ++ more) < f ->
  exists f',
    beforeContentChunk f self (v ++ more) r
    = beforeContentChunk f' self more
        (emit (token_effects "mathFlowValue" v) r)
    /\ length more < f'.
Proof.
  intros Hv Hmore Hf. destruct v as [|x v]; [by exists f|].
  destruct f as [|f]; [lia|]. exists f. split.
  - cbn [app beforeContentChunk peek head is_eof].
    inversion Hv as [|? ? Hx Hv']; subst. rewrite Hx.
    rewrite (contentChunk_exact _ (x :: v) more) by done.
    by rewrite emit_token.
  - cbn [app length] in Hf. rewrite length_app in Hf. lia.
Qed.

Lemma one_line_leading limit size line :
  one_line line ->
  one_line (leading limit size line).1
  /\ one_line (leading limit size line).2.
Proof.
  intros Hline. unfold one_line in *.
  rewrite (leading_split limit size line) in Hline.
  by apply Forall_app in Hline.
Qed.

Lemma leading_none size line : leading (Some 0) size line = ([], line).
Proof.
  destruct line as [|x line]; [done|]. cbn.
  by rewrite andb_false_r.
Qed.

(** A line of the content, once the closing fence was not found on it. *)
Lemma content_step self f line more r :
  one_line line -> at_eol more -> length (line ++ more) < f ->
  exists f',
    contentStart self (beforeContentChunk f self) (line ++ more) r
    = beforeContentChunk f' self more
        (emit (token_effects types.linePrefix
                 (leading (Some (initialSize self)) 0 line).1
               ++ token_effects "mathFlowValue"
                    (leading (Some (initialSize self)) 0 line).2) r)
    /\ length more < f'.
Proof.
  intros Hline Hmore Hf. unfold contentStart.
  destruct (initialSize self) as [|n].
  - rewrite leading_none. cbn [fst snd token_effects app].
    by apply value_step.
  - rewrite factorySpace_exact by (intros [=]; lia).
    cbv zeta. change (S n + 1) with (S (n + 1)). cbv iota beta.
    rewrite Nat.add_1_r, leading_eol by done. cbn [fst snd].
    destruct (one_line_leading (Some (S n)) 0 line Hline) as [_ Hv].
    destruct (value_step self f (leading (Some (S n)) 0 line).2 more
                (emit (token_effects types.linePrefix
                         (leading (Some (S n)) 0 line).1) r) Hv Hmore)
      as (f' & Heq & Hf').
    + rewrite (leading_split (Some (S n)) 0 line) in Hf.
      rewrite !length_app in *. lia.
    + exists f'. split; [|done]. by rewrite Heq, emit_app.
Qed.

(** From the line ending before a line of the content to the end of the
    line. *)
Lemma line_step self d f e line more r :
  disable_null self = Some d ->
  lazy self (lineNo r + 1) = false ->
  content_line (e, line) -> at_eol more ->
  length (e :: line ++ more) < f ->
  exists f',
    beforeContentChunk f self (e :: line ++ more) r
    = beforeContentChunk f' self more
        (emit (content_line_effects (initialSize self) (e, line)) r)
    /\ length more < f'.
Proof.
  intros Hd Hlazy (He & Hline & Hno) Hmore Hf. cbn [fst snd] in *.
  destruct f as [|f]; [cbn in Hf; lia|].
  cbn [beforeContentChunk peek head is_eof]. rewrite He.
  unfold attempt at 1, tokenizeNonLazyContinuation,
    nonLazyContinuation_start, lineStart.
  rewrite He. cbn [negb consume enter exit lineNo]. rewrite He, Hlazy.
  unfold beforeNonLazyContinuation, attempt.
  match goal with
  | |- context [tokenizeClosingFence self ?ok ?nok (line ++ more) ?r1] =>
    destruct (closing_fence_fails self d ok nok line more r1 Hd Hno Hmore)
      as (i' & r' & Heq & Hfound)
  end.
  rewrite Heq, restore_same by done.
  match goal with
  | |- context [contentStart self _ (line ++ more) ?r1] =>
    destruct (content_step self f line more r1 Hline Hmore) as (f' & Hc & Hf')
  end.
  { cbn [length] in Hf. lia. }
  exists f'. split; [|done]. rewrite Hc. unfold content_line_effects.
  cbn [fst snd]. by rewrite (emit_app (line_ending_effects e)).
Qed.

Lemma lineNo_content_line size l r :
  content_line l ->
  lineNo (emit (content_line_effects size l) r) = (lineNo r + 1)%Z.
Proof.
  intros (He & Hline & _). unfold content_line_effects.
  destruct (one_line_leading (Some size) 0 l.2 Hline) as [Hsp Hv].
  rewrite !emit_app, !lineNo_emit_token by done.
  cbn. by rewrite He.
Qed.

(** The lines of the content, none of them lazy. *)
Lemma body_steps self d body :
  disable_null self = Some d ->
  Forall content_line body ->
  forall f tail r,
    (forall i, i < length body ->
               lazy self (lineNo r + 1 + Z.of_nat i) = false) ->
    at_eol tail ->
    length (content_lines body ++ tail) < f ->
    exists f',
      beforeContentChunk f self (content_lines body ++ tail) r
      = beforeContentChunk f' self tail
          (emit (concat (map (content_line_effects (initialSize self)) body))
                r)
      /\ length tail < f'.
Proof.
  intros Hd Hbody.
  induction Hbody as [|[e line] body Hl Hbody IH]; intros f tail r Hlazy Htail Hf.
  - exists f. by cbn.
  - unfold content_lines in *. cbn [map concat fst snd] in *.
    rewrite <- !app_assoc in *. cbn [app] in *.
    destruct (line_step self d f e line
                (concat (map (fun l : Z * list Z => l.1 :: l.2) body) ++ tail)
                r Hd) as (f1 & Heq & Hf1); auto.
    { specialize (Hlazy 0). rewrite Z.add_0_r in Hlazy. apply Hlazy.
      cbn. lia. }
    { by apply at_eol_content_lines. }
    destruct (IH f1 tail
                (emit (content_line_effects (initialSize self) (e, line)) r))
      as (f' & Heq' & Hf'); auto.
    { intros i Hi. rewrite lineNo_content_line by done.
      specialize (Hlazy (S i)). rewrite <- Hlazy by (cbn; lia).
      f_equal. lia. }
    exists f'. split; [|done]. by rewrite Heq, Heq', emit_app.
Qed.

(** ** The opening and the closing fence *)

Lemma meta_exact k m rest r :
  one_line m -> codes.rightSquareBracket ∉ m -> at_eol rest ->
  meta k (m ++ rest) r
  = k rest (exit "mathFlowFenceMeta"
              (exit types.chunkString (emit (consumes m) r))).
Proof.
  intros Hm. revert r.
  induction Hm as [|x m Hx Hm IH]; intros r Hno Hrest; cbn [app].
  - destruct rest as [|y rest]; [done|].
    unfold at_eol in Hrest. cbn in Hrest |- *. by rewrite Hrest.
  - apply not_elem_of_cons in Hno as [Hne Hno]. cbn [meta]. rewrite Hx.
    assert ((x =? codes.rightSquareBracket)%Z = false) as ->
      by (by apply Z.eqb_neq).
    by rewrite IH.
Qed.

Lemma metaBefore_exact k m rest r :
  one_line m -> codes.rightSquareBracket ∉ m -> at_eol rest ->
  metaBefore k (m ++ rest) r
  = k rest (emit match m with
                 | [] => []
                 | _ =>
                   Enter "mathFlowFenceMeta"
                     :: token_effects types.chunkString m
                     ++ [Exit "mathFlowFenceMeta"]
                 end r).
Proof.
  intros Hm Hno Hrest. unfold metaBefore.
  destruct m as [|x m].
  - cbn [app]. unfold at_eol in Hrest. by rewrite Hrest.
  - inversion Hm as [|? ? Hx Hm']; subst. cbn [app peek head is_eof].
    rewrite Hx. cbn [orb].
    rewrite (meta_exact k (x :: m) rest) by done.
    rewrite emit_cons, emit_app, emit_token. reflexivity.
Qed.

(** The opening fence: the sequence, the spaces after it and the meta
    text, up to the end of the line. *)
Lemma opening_steps k ws m rest r :
  spaces ws -> markdownSpace (peek m) = false ->
  one_line m -> codes.rightSquareBracket ∉ m -> at_eol rest ->
  exists r1,
    flow_start k
      (codes.backslash :: codes.leftSquareBracket :: ws ++ m ++ rest) r
    = k rest r1
    /\ exit "mathFlowFence" r1 = emit (opening_fence_effects ws m) r.
Proof.
  intros Hws Hhead Hm Hno Hrest. unfold flow_start, openBracket.
  cbn [Z.eqb codes.backslash codes.leftSquareBracket Pos.eqb].
  rewrite factorySpace_exact by done. cbv zeta.
  rewrite leading_spaces; [|done|done|].
  - cbn [fst snd]. rewrite metaBefore_exact by done.
    eexists. split; [reflexivity|].
    unfold opening_fence_effects.
    rewrite !emit_app. reflexivity.
  - destruct m as [|x m]; [|done]. by apply at_eol_no_space.
Qed.

(** After the opening fence, at a line ending, the run goes on as in the
    content. *)
Lemma metaAfter_line fuel self e rest r :
  interrupt self = false -> markdownLineEnding (Some e) = true ->
  metaAfter fuel self (e :: rest) r
  = beforeContentChunk (S fuel) self (e :: rest) (exit "mathFlowFence" r).
Proof.
  intros Hint He. unfold metaAfter. rewrite Hint.
  cbn [beforeContentChunk peek head is_eof]. by rewrite He.
Qed.

(** The closing fence: at most three spaces, the sequence, spaces, up to
    the end of the line. *)
Lemma closing_step self d f e pre ws rest r :
  disable_null self = Some d ->
  markdownLineEnding (Some e) = true ->
  lazy self (lineNo r + 1) = false ->
  spaces pre ->
  existsb (String.eqb "codeIndented") d = true
  \/ length pre < constants.tabSize ->
  spaces ws -> at_eol rest ->
  0 < f ->
  exists r',
    beforeContentChunk f self
      (e :: pre ++ codes.backslash :: codes.rightSquareBracket :: ws ++ rest)
      r
    = FOk rest r'
    /\ trace r'
       = trace r ++ closing_fence_effects e pre ws ++ [Exit "mathFlow"]
    /\ foundClosingBracket r' = true.
Proof.
  intros Hd He Hlazy Hpre Hlen Hws Hrest Hf.
  destruct f as [|f]; [lia|].
  cbn [beforeContentChunk peek head is_eof]. rewrite He.
  unfold attempt at 1, tokenizeNonLazyContinuation,
    nonLazyContinuation_start, lineStart.
  rewrite He. cbn [negb consume enter exit lineNo]. rewrite He, Hlazy.
  unfold beforeNonLazyContinuation, attempt, tokenizeClosingFence.
  rewrite Hd. rewrite factorySpace_exact by (by destruct (existsb _ d)).
  cbv zeta. rewrite leading_spaces; [|done| |done].
  2:{ destruct (existsb _ d); [done|]. destruct Hlen as [|Hlen]; [done|].
      unfold constants.tabSize in *. cbn. lia. }
  cbn [fst snd]. unfold beforeSequenceClose.
  cbn [sequenceClose Z.eqb codes.backslash codes.rightSquareBracket Pos.eqb
       andb negb].
  rewrite factorySpace_exact by done. cbv zeta.
  rewrite leading_spaces; [|done|done|by apply at_eol_no_space].
  cbn [fst snd]. unfold afterSequenceClose.
  unfold at_eol in Hrest. rewrite Hrest. unfold after.
  cbn [exit foundClosingBracket]. rewrite found_emit.
  cbn [exit consume found_it foundClosingBracket negb].
  rewrite andb_false_r.
  eexists. split; [reflexivity|]. split.
  - unfold closing_fence_effects, line_ending_effects.
    cbn [exit trace]. rewrite trace_emit.
    cbn [exit consume found_it enter trace]. rewrite trace_emit.
    cbn [exit consume found_it enter trace].
    rewrite <- !app_assoc. reflexivity.
  - cbn [exit foundClosingBracket]. by rewrite found_emit.
Qed.

Lemma spaces_one_line cs : spaces cs -> one_line cs.
Proof.
  unfold spaces, one_line. intros H. eapply Forall_impl; [exact H|].
  cbn. intros x Hx.
  destruct (markdownLineEnding (Some x)) eqn:He; [|done].
  apply line_ending_is_no_space in He. congruence.
Qed.

Lemma lineNo_emit_same es r :
  no_line_ending es -> lineNo (emit es r) = lineNo r.
Proof.
  intros Hes. revert r.
  induction Hes as [|e es He Hes IH]; intros r; [done|].
  rewrite emit_cons, IH. destruct e as [ty|[x|]|ty]; try done.
  cbn. by rewrite He.
Qed.

Lemma no_line_ending_token ty cs :
  one_line cs -> no_line_ending (token_effects ty cs).
Proof.
  intros Hcs. destruct cs as [|x cs]; [constructor|].
  unfold token_effects. constructor; [done|].
  apply Forall_app. split; [|by repeat constructor].
  unfold consumes. apply Forall_fmap.
  eapply Forall_impl; [exact Hcs|]. done.
Qed.

Lemma lineNo_opening ws m r :
  spaces ws -> one_line m ->
  lineNo (emit (opening_fence_effects ws m) r) = lineNo r.
Proof.
  intros Hws Hm. apply lineNo_emit_same. unfold opening_fence_effects.
  repeat apply Forall_app_2.
  - repeat constructor.
  - by apply no_line_ending_token, spaces_one_line.
  - destruct m as [|x m]; [constructor|]. constructor; [done|].
    apply Forall_app_2; [by apply no_line_ending_token|by repeat constructor].
  - by repeat constructor.
Qed.

Lemma lineNo_body size body r :
  Forall content_line body ->
  lineNo (emit (concat (map (content_line_effects size) body)) r)
  = (lineNo r + Z.of_nat (length body))%Z.
Proof.
  intros Hbody. revert r.
  induction Hbody as [|l body Hl Hbody IH]; intros r; cbn [map concat length].
  - cbn. lia.
  - rewrite emit_app, IH, lineNo_content_line by done. lia.
Qed.

(** After the opening fence, at the end of its line, the run goes on as
    in the content. *)
Lemma metaAfter_at_eol fuel self d tail r :
  interrupt self = false -> disable_null self = Some d ->
  at_eol tail -> 0 < fuel ->
  metaAfter fuel self tail r
  = beforeContentChunk (S fuel) self tail (exit "mathFlowFence" r).
Proof.
  intros Hint Hd Htail Hfuel. destruct tail as [|e tail].
  - unfold metaAfter. rewrite Hint.
    cbn [beforeContentChunk peek head is_eof].
    unfold attempt at 1, tokenizeNonLazyContinuation,
      nonLazyContinuation_start.
    unfold beforeNonLazyContinuation, attempt.
    match goal with
    | |- context [tokenizeClosingFence self ?ok ?nok [] ?r1] =>
      destruct (closing_fence_fails self d ok nok [] [] r1 Hd)
        as (i' & r' & Heq & Hfound); [apply not_elem_of_nil|done|]
    end.
    cbn [app] in Heq. rewrite Heq, restore_same by done.
    match goal with
    | |- context [contentStart self _ [] ?r1] =>
      destruct (content_step self fuel [] [] r1) as (f' & Hc & Hf');
        [constructor|done|cbn; lia|]
    end.
    cbn [app] in Hc. rewrite Hc. destruct f' as [|f']; [cbn in Hf'; lia|].
    reflexivity.
  - apply metaAfter_line; [done|]. unfold at_eol in Htail. by cbn in Htail.
Qed.

(** X7. A block that is closed: the opening sequence [\[], spaces, meta
    text without a right square bracket, lines of content without one, and
    a line with spaces (at most three, or any number where indented code
    is disabled), the closing sequence [\]] and spaces. When the construct
    does not interrupt and no line is lazy, the run ends in [ok] at the
    end of the line of the closing fence, with
    [foundClosingBracket] set, and its effects are the opening fence, for
    each line of the content its line ending, a [linePrefix] of at most
    [initialSize] spaces and a [mathFlowValue] of the rest, and the
    closing fence. *)
Theorem closed_block_is_accepted self d ws m body e pre ws' rest :
  interrupt self = false ->
  disable_null self = Some d ->
  (forall n, lazy self n = false) ->
  spaces ws -> markdownSpace (peek m) = false ->
  one_line m -> codes.rightSquareBracket ∉ m ->
  Forall content_line body ->
  markdownLineEnding (Some e) = true ->
  spaces pre ->
  existsb (String.eqb "codeIndented") d = true
  \/ length pre < constants.tabSize ->
  spaces ws' -> at_eol rest ->
  exists r,
    tokenizeMathBracketFlow self
      (codes.backslash :: codes.leftSquareBracket :: ws ++ m
         ++ content_lines body
         ++ e :: pre ++ codes.backslash :: codes.rightSquareBracket
         :: ws' ++ rest)
    = FOk rest r
    /\ trace r
       = opening_fence_effects ws m
           ++ concat (map (content_line_effects (initialSize self)) body)
           ++ closing_fence_effects e pre ws' ++ [Exit "mathFlow"]
    /\ foundClosingBracket r = true.
Proof.
  intros Hint Hd Hlazy Hws Hhead Hm Hno Hbody He Hpre Hlen Hws' Hrest.
  unfold tokenizeMathBracketFlow.
  set (tail := e :: pre ++ codes.backslash :: codes.rightSquareBracket
                 :: ws' ++ rest).
  set (fuel := S (length _)).
  match goal with |- context [flow_start _ _ ?r] => set (r0 := r) end.
  assert (at_eol tail) as Htail by (by apply at_eol_cons).
  destruct (opening_steps (metaAfter fuel self) ws m
              (content_lines body ++ tail) r0)
    as (r1 & -> & Hr1); auto using at_eol_content_lines.
  rewrite (metaAfter_at_eol fuel self d), Hr1;
    auto using at_eol_content_lines; [|subst fuel; lia].
  destruct (body_steps self d body Hd Hbody (S fuel) tail
              (emit (opening_fence_effects ws m) r0))
    as (f' & -> & Hf'); auto.
  { subst fuel. cbn [length]. rewrite !length_app. lia. }
  subst tail.
  destruct (closing_step self d f' e pre ws' rest
              (emit (concat (map (content_line_effects (initialSize self))
                                 body))
                    (emit (opening_fence_effects ws m) r0)))
    as (r' & -> & Htrace & Hfound); auto; [lia|].
  exists r'. split; [done|]. split; [|done].
  rewrite Htrace, !trace_emit. by rewrite <- !app_assoc.
Qed.

(** The lines [\[tex], [x] and [\]]. *)
Lemma closed_block_is_accepted_witness :
  exists r,
    tokenizeMathBracketFlow (flow_at_start false)
      (codes.backslash :: codes.leftSquareBracket :: [] ++ codes_of "tex"
         ++ content_lines [(codes.lineFeed, codes_of "x")]
         ++ codes.lineFeed :: [] ++ codes.backslash
         :: codes.rightSquareBracket :: [] ++ [])
    = FOk [] r
    /\ trace r
       = opening_fence_effects [] (codes_of "tex")
           ++ concat (map (content_line_effects
                             (initialSize (flow_at_start false)))
                          [(codes.lineFeed, codes_of "x")])
           ++ closing_fence_effects codes.lineFeed [] []
           ++ [Exit "mathFlow"]
    /\ foundClosingBracket r = true.
Proof.
  apply (closed_block_is_accepted (flow_at_start false) [] []
           (codes_of "tex") [(codes.lineFeed, codes_of "x")]
           codes.lineFeed [] [] []).
  - reflexivity.
  - reflexivity.
  - reflexivity.
  - constructor.
  - reflexivity.
  - repeat constructor.
  - intros H. apply list_elem_of_In in H. vm_compute in H.
    intuition discriminate.
  - repeat constructor.
    intros H. apply list_elem_of_In in H. vm_compute in H.
    intuition discriminate.
  - reflexivity.
  - constructor.
  - right. vm_compute. lia.
  - constructor.
  - reflexivity.
Defined.

(** ** A lazy line *)

Lemma lazy_step self f e rest r :
  markdownLineEnding (Some e) = true ->
  lazy self (lineNo r + 1) = true -> 0 < f ->
  beforeContentChunk f self (e :: rest) r
  = FOk (e :: rest) (exit "mathFlow" r).
Proof.
  intros He Hlazy Hf. destruct f as [|f]; [lia|].
  cbn [beforeContentChunk peek head is_eof]. rewrite He.
  unfold attempt at 1, tokenizeNonLazyContinuation,
    nonLazyContinuation_start, lineStart.
  rewrite He. cbn [negb consume enter exit lineNo]. rewrite He, Hlazy.
  rewrite restore_same by done. reflexivity.
Qed.

(** X8. When, after the opening fence and any number of lines of content
    that have no right square bracket and are not lazy, the next line is
    lazy, the run ends in [ok] at the line ending before it, which is not
    consumed: the block ends there, with [mathFlow] exited, without a
    closing fence and with [foundClosingBracket] not set. *)
Theorem lazy_line_ends_the_block self d ws m body e rest :
  interrupt self = false ->
  disable_null self = Some d ->
  spaces ws -> markdownSpace (peek m) = false ->
  one_line m -> codes.rightSquareBracket ∉ m ->
  Forall content_line body ->
  (forall i, i < length body ->
             lazy self (line (now (context self)) + 1 + Z.of_nat i) = false) ->
  lazy self (line (now (context self)) + 1 + Z.of_nat (length body)) = true ->
  markdownLineEnding (Some e) = true ->
  exists r,
    tokenizeMathBracketFlow self
      (codes.backslash :: codes.leftSquareBracket :: ws ++ m
         ++ content_lines body ++ e :: rest)
    = FOk (e :: rest) r
    /\ trace r
       = opening_fence_effects ws m
           ++ concat (map (content_line_effects (initialSize self)) body)
           ++ [Exit "mathFlow"]
    /\ foundClosingBracket r = false.
Proof.
  intros Hint Hd Hws Hhead Hm Hno Hbody Hlines Hlazy He.
  unfold tokenizeMathBracketFlow.
  set (fuel := S (length _)).
  match goal with |- context [flow_start _ _ ?r] => set (r0 := r) end.
  assert (at_eol (e :: rest)) as Htail by (by apply at_eol_cons).
  destruct (opening_steps (metaAfter fuel self) ws m
              (content_lines body ++ e :: rest) r0)
    as (r1 & -> & Hr1); auto using at_eol_content_lines.
  rewrite (metaAfter_at_eol fuel self d), Hr1;
    auto using at_eol_content_lines; [|subst fuel; lia].
  destruct (body_steps self d body Hd Hbody (S fuel) (e :: rest)
              (emit (opening_fence_effects ws m) r0))
    as (f' & -> & Hf'); auto.
  { intros i Hi. rewrite lineNo_opening by (by auto using spaces_one_line).
    by apply Hlines. }
  { subst fuel. cbn [length]. rewrite !length_app. lia. }
  rewrite lazy_step; [|done| |lia].
  - eexists. split; [reflexivity|]. split.
    + cbn [exit trace]. rewrite !trace_emit. by rewrite <- !app_assoc.
    + cbn [exit foundClosingBracket]. by rewrite !found_emit.
  - rewrite lineNo_body, lineNo_opening by done.
    rewrite <- Hlazy. f_equal. subst r0. cbn. lia.
Qed.

(** The line [\[] and a lazy line [a]. *)
Lemma lazy_line_ends_the_block_witness :
  exists r,
    tokenizeMathBracketFlow
      {| context := at_start; interrupt := false;
         lazy := fun n => (n =? 2)%Z;
         disable_null := Some []; sliceSerialize := fun _ => "" |}
      (codes.backslash :: codes.leftSquareBracket :: [] ++ []
         ++ content_lines [] ++ codes.lineFeed :: codes_of "a")
    = FOk (codes.lineFeed :: codes_of "a") r
    /\ trace r
       = opening_fence_effects [] []
           ++ concat (map (content_line_effects 0) [])
           ++ [Exit "mathFlow"]
    /\ foundClosingBracket r = false.
Proof.
  apply (lazy_line_ends_the_block
           {| context := at_start; interrupt := false;
              lazy := fun n => (n =? 2)%Z;
              disable_null := Some []; sliceSerialize := fun _ => "" |}
           [] [] [] [] codes.lineFeed (codes_of "a")).
  - reflexivity.
  - reflexivity.
  - constructor.
  - reflexivity.
  - constructor.
  - apply not_elem_of_nil.
  - constructor.
  - cbn. lia.
  - reflexivity.
  - reflexivity.
Defined.

(** ** The end of the input *)

Lemma end_of_input_step self f r :
  0 < f ->
  beforeContentChunk f self [] r
  = if foundClosingBracket r then FOk [] (exit "mathFlow" r) else FNok.
Proof.
  intros Hf. destruct f as [|f]; [lia|]. cbn. unfold after. cbn.
  by destruct (foundClosingBracket r).
Qed.

(** X9. A block that is not closed: after the opening fence, only lines
    without a right square bracket up to the end of the input. When the
    construct does not interrupt and no line is lazy, the run ends in
    [nok]. *)
Theorem unclosed_block_is_rejected self d ws m body :
  interrupt self = false ->
  disable_null self = Some d ->
  (forall n, lazy self n = false) ->
  spaces ws -> markdownSpace (peek m) = false ->
  one_line m -> codes.rightSquareBracket ∉ m ->
  Forall content_line body ->
  tokenizeMathBracketFlow self
    (codes.backslash :: codes.leftSquareBracket :: ws ++ m
       ++ content_lines body)
  = FNok.
Proof.
  intros Hint Hd Hlazy Hws Hhead Hm Hno Hbody.
  unfold tokenizeMathBracketFlow.
  set (fuel := S (length _)).
  match goal with |- context [flow_start _ _ ?r] => set (r0 := r) end.
  rewrite <- (app_nil_r (content_lines body)).
  assert (at_eol (content_lines body ++ [])) as Heol
    by (by apply at_eol_content_lines).
  destruct (opening_steps (metaAfter fuel self) ws m
              (content_lines body ++ []) r0)
    as (r1 & -> & Hr1); auto.
  rewrite (metaAfter_at_eol fuel self d), Hr1; auto; [|subst fuel; lia].
  destruct (body_steps self d body Hd Hbody (S fuel) []
              (emit (opening_fence_effects ws m) r0))
    as (f' & -> & Hf'); auto; [done| |].
  { subst fuel. cbn [length]. rewrite !length_app. cbn [length]. lia. }
  rewrite end_of_input_step by (cbn in Hf'; lia).
  by rewrite !found_emit.
Qed.

(** The lines [\[] and [\frac{1}{2}], and nothing else. *)
Lemma unclosed_block_is_rejected_witness :
  tokenizeMathBracketFlow (flow_at_start false)
    (codes.backslash :: codes.leftSquareBracket :: [] ++ []
       ++ content_lines [(codes.lineFeed, codes_of "\frac{1}{2}")])
  = FNok.
Proof.
  apply (unclosed_block_is_rejected (flow_at_start false) [] [] []
           [(codes.lineFeed, codes_of "\frac{1}{2}")]).
  - reflexivity.
  - reflexivity.
  - reflexivity.
  - constructor.
  - reflexivity.
  - constructor.
  - apply not_elem_of_nil.
  - repeat constructor.
    intros H. apply list_elem_of_In in H. vm_compute in H.
    intuition discriminate.
Defined.

(** ** A closing sequence that is followed by other text *)

(** A line with the closing sequence and then a code that is not a space:
    the closing fence is not found, the line is content, but
    [foundClosingBracket] was set on the way and stays set. *)
Lemma unfinished_fence_step self d f e pre ws j junk more r :
  disable_null self = Some d ->
  markdownLineEnding (Some e) = true ->
  lazy self (lineNo r + 1) = false ->
  spaces pre -> length pre < constants.tabSize -> spaces ws ->
  markdownSpace (Some j) = false -> markdownLineEnding (Some j) = false ->
  one_line junk -> at_eol more ->
  length (e :: (pre ++ codes.backslash :: codes.rightSquareBracket
                  :: ws ++ j :: junk) ++ more) < f ->
  exists f' r',
    beforeContentChunk f self
      (e :: (pre ++ codes.backslash :: codes.rightSquareBracket
               :: ws ++ j :: junk) ++ more) r
    = beforeContentChunk f' self more r'
    /\ foundClosingBracket r' = true
    /\ length more < f'.
Proof.
  intros Hd He Hlazy Hpre Hlen Hws Hj Hj' Hjunk Hmore Hf.
  destruct f as [|f]; [cbn in Hf; lia|].
  cbn [beforeContentChunk peek head is_eof]. rewrite He.
  unfold attempt at 1, tokenizeNonLazyContinuation,
    nonLazyContinuation_start, lineStart.
  rewrite He. cbn [negb consume enter exit lineNo]. rewrite He, Hlazy.
  unfold beforeNonLazyContinuation, attempt, tokenizeClosingFence.
  rewrite Hd. rewrite factorySpace_exact by (by destruct (existsb _ d)).
  cbv zeta. rewrite <- !app_assoc. cbn [app].
  rewrite leading_spaces; [|done| |done].
  2:{ destruct (existsb _ d); [done|]. unfold constants.tabSize in *.
      cbn. lia. }
  cbn [fst snd]. unfold beforeSequenceClose.
  cbn [sequenceClose Z.eqb codes.backslash codes.rightSquareBracket Pos.eqb
       andb negb].
  rewrite factorySpace_exact by done. cbv zeta.
  rewrite <- !app_assoc. cbn [app].
  rewrite leading_spaces; [|done|done|done].
  cbn [fst snd]. unfold afterSequenceClose.
  cbn [peek head is_eof orb]. rewrite Hj'.
  match goal with
  | |- context [contentStart self _ ?l ?r1] =>
    destruct (content_step self f
                (pre ++ codes.backslash :: codes.rightSquareBracket
                   :: ws ++ j :: junk) more r1)
      as (f' & Hc & Hf'); [|done| |]
  end.
  - apply Forall_app. split; [by apply spaces_one_line|].
    repeat (constructor; [done|]).
    apply Forall_app. split; [by apply spaces_one_line|].
    by constructor.
  - cbn [length] in Hf. lia.
  - rewrite <- !app_assoc in Hc. cbn [app] in Hc.
    rewrite <- !app_assoc in Hc. cbn [app] in Hc.
    exists f'. eexists. split; [exact Hc|]. split; [|done].
    rewrite found_emit. cbn. by rewrite found_emit.
Qed.



(** ** What a run of the flow recognizer consumes *)

(** The states preserve any condition on the position and the run that
    entering, exiting, setting [foundClosingBracket] and the taking back
    of a failed attempt preserve, and that consuming the code at the
    position carries to the next position. *)
Section Positions.
Context (self : FlowContext).
Context (I : list Z -> Run -> Prop).
Hypothesis I_enter : forall input ty r, I input r -> I input (enter ty r).
Hypothesis I_exit : forall input ty r, I input r -> I input (exit ty r).
Hypothesis I_consume :
  forall x input r, I (x :: input) r -> I input (consume x r).
Hypothesis I_found_it : forall input r, I input r -> I input (found_it r).
Hypothesis I_restore : forall input r r', I input r -> I input (restore r r').

Lemma kept_after : kept I after.
Proof.
  intros input r input' r' Hr. unfold after.
  destruct (is_eof (peek input) && negb (foundClosingBracket r));
    [discriminate|].
  intros [= <- <-]. auto.
Qed.

Lemma kept_prefix k ty limit size :
  kept I k -> kept I (prefix k ty limit size).
Proof.
  intros Hk input. revert size.
  induction input as [|x input IH]; intros size r input' r' Hr; cbn.
  - goes_on Hk.
  - destruct (markdownSpace (Some x) && under size limit).
    + goes_on IH.
    + goes_on Hk.
Qed.

Lemma kept_factorySpace k ty max :
  kept I k -> kept I (factorySpace k ty max).
Proof.
  intros Hk input r input' r' Hr. unfold factorySpace.
  destruct (markdownSpace (peek input)).
  - goes_on kept_prefix.
  - goes_on Hk.
Qed.

Lemma kept_attempt tokenize returnState bogusState :
  (forall ok nok, kept I ok -> settled I nok -> kept I (tokenize ok nok)) ->
  kept I returnState -> kept I bogusState ->
  kept I (attempt tokenize returnState bogusState).
Proof.
  intros Htok Hret Hbogus input r input' r' Hr. unfold attempt.
  goes_on Htok.
  intros i1 r1 i2 r2. goes_on Hbogus.
Qed.

Lemma kept_tokenizeNonLazyContinuation ok nok :
  kept I ok -> settled I nok ->
  kept I (tokenizeNonLazyContinuation self ok nok).
Proof.
  intros Hok Hnok input r input' r' Hr.
  unfold tokenizeNonLazyContinuation, nonLazyContinuation_start, lineStart.
  destruct input as [|x rest]; [goes_on Hok|].
  destruct (negb (markdownLineEnding (Some x))); [discriminate|].
  destruct (lazy self _).
  - goes_on Hnok.
  - goes_on Hok.
Qed.

Lemma kept_afterSequenceClose ok nok :
  kept I ok -> settled I nok -> kept I (afterSequenceClose ok nok).
Proof.
  intros Hok Hnok input r input' r' Hr. unfold afterSequenceClose.
  destruct (is_eof (peek input) || markdownLineEnding (peek input)).
  - goes_on Hok.
  - goes_on Hnok.
Qed.

Lemma kept_sequenceClose ok nok foundBackslash :
  kept I ok -> settled I nok ->
  kept I (sequenceClose ok nok foundBackslash).
Proof.
  intros Hok Hnok input. revert foundBackslash.
  induction input as [|x input IH]; intros fb r input' r' Hr; cbn.
  - goes_on Hnok.
  - destruct ((x =? codes.backslash)%Z && negb fb).
    + goes_on IH.
    + destruct ((x =? codes.rightSquareBracket)%Z && fb).
      * goes_on kept_factorySpace. apply kept_afterSequenceClose; auto.
      * goes_on Hnok.
Qed.

Lemma kept_tokenizeClosingFence ok nok :
  kept I ok -> settled I nok -> kept I (tokenizeClosingFence self ok nok).
Proof.
  intros Hok Hnok input r input' r' Hr. unfold tokenizeClosingFence.
  destruct (disable_null self) as [disabled|]; [|discriminate].
  goes_on kept_factorySpace.
  intros i1 r1 i2 r2 Hr1. unfold beforeSequenceClose.
  goes_on kept_sequenceClose.
Qed.

Lemma kept_contentChunk k : kept I k -> kept I (contentChunk k).
Proof.
  intros Hk input.
  induction input as [|x input IH]; intros r input' r' Hr; cbn.
  - goes_on Hk.
  - destruct (markdownLineEnding (Some x)).
    + goes_on Hk.
    + goes_on IH.
Qed.

Lemma kept_contentStart k : kept I k -> kept I (contentStart self k).
Proof.
  intros Hk input r input' r' Hr. unfold contentStart.
  destruct (initialSize self).
  - goes_on Hk.
  - goes_on kept_factorySpace.
Qed.

Lemma kept_beforeNonLazyContinuation k :
  kept I k -> kept I (beforeNonLazyContinuation self k).
Proof.
  intros Hk. unfold beforeNonLazyContinuation.
  apply kept_attempt; auto using kept_contentStart, kept_after.
  intros ok nok. apply kept_tokenizeClosingFence.
Qed.

Lemma kept_beforeContentChunk fuel : kept I (beforeContentChunk fuel self).
Proof.
  induction fuel as [|f IH]; intros input r input' r' Hr; cbn; [discriminate|].
  destruct (is_eof (peek input)); [goes_on kept_after|].
  destruct (markdownLineEnding (peek input)).
  - goes_on kept_attempt;
      auto using kept_beforeNonLazyContinuation, kept_after.
    intros ok nok. apply kept_tokenizeNonLazyContinuation.
  - goes_on kept_contentChunk.
Qed.

Lemma kept_metaAfter fuel : kept I (metaAfter fuel self).
Proof.
  intros input r input' r' Hr. unfold metaAfter.
  destruct (interrupt self); [intros [= <- <-]; auto|].
  goes_on kept_attempt;
    auto using kept_beforeNonLazyContinuation, kept_beforeContentChunk,
      kept_after.
  intros ok nok. apply kept_tokenizeNonLazyContinuation.
Qed.

Lemma kept_meta k : kept I k -> kept I (meta k).
Proof.
  intros Hk input.
  induction input as [|x input IH]; intros r input' r' Hr; cbn.
  - goes_on Hk.
  - destruct (markdownLineEnding (Some x)); [goes_on Hk|].
    destruct (x =? codes.rightSquareBracket)%Z; [discriminate|].
    goes_on IH.
Qed.

Lemma kept_metaBefore k : kept I k -> kept I (metaBefore k).
Proof.
  intros Hk input r input' r' Hr. unfold metaBefore.
  destruct (is_eof (peek input) || markdownLineEnding (peek input)).
  - goes_on Hk.
  - goes_on kept_meta.
Qed.

Lemma kept_flow_start k : kept I k -> kept I (flow_start k).
Proof.
  intros Hk input r input' r' Hr. unfold flow_start, openBracket.
  destruct input as [|x input]; [discriminate|].
  destruct (x =? codes.backslash)%Z; [|discriminate].
  destruct input as [|y input]; [discriminate|].
  destruct (y =? codes.leftSquareBracket)%Z; [|discriminate].
  goes_on kept_factorySpace.
  - apply kept_metaBefore, Hk.
  - auto 10.
Qed.

Lemma kept_tokenizeMathBracketFlow input input' r :
  I input {| trace := []; lineNo := line (now (context self));
             foundClosingBracket := false |} ->
  tokenizeMathBracketFlow self input = FOk input' r -> I input' r.
Proof.
  intros H0 Hrun. unfold tokenizeMathBracketFlow in Hrun.
  eapply kept_flow_start; [apply kept_metaAfter | exact H0 | exact Hrun].
Qed.
End Positions.

Lemma consumed_codes_snoc es e :
  consumed_codes (es ++ [e])
  = consumed_codes es ++ match e with
                         | Consume c => [c]
                         | _ => []
                         end.
Proof. rewrite consumed_codes_app. by destruct e. Qed.

(** X11. A run of the flow recognizer that ends in [ok], interrupting or
    not, has consumed, in the effects that stand, the codes of the input
    before the position it ends at, each once and in order: what a failed
    attempt consumed is taken back with it, and no code is passed without
    being consumed. *)
Theorem flow_consumes_what_it_passes self input input' r :
  tokenizeMathBracketFlow self input = FOk input' r ->
  map Some input = consumed_codes (trace r) ++ map Some input'.
Proof.
  apply (kept_tokenizeMathBracketFlow self (consumed_so_far input));
    unfold consumed_so_far; cbn [trace enter exit consume found_it restore].
  - intros i ty r0 H. by rewrite consumed_codes_snoc, app_nil_r.
  - intros i ty r0 H. by rewrite consumed_codes_snoc, app_nil_r.
  - intros x i r0 H. by rewrite consumed_codes_snoc, <- app_assoc.
  - done.
  - done.
  - done.
Qed.

(** The lines [\[], [x] and [\]], and a line [y] after them. *)
Lemma flow_consumes_what_it_passes_witness :
  exists r,
    tokenizeMathBracketFlow (flow_at_start false)
      (three_lines ++ codes.lineFeed :: codes_of "y")
    = FOk (codes.lineFeed :: codes_of "y") r
    /\ map Some (three_lines ++ codes.lineFeed :: codes_of "y")
       = consumed_codes (trace r)
           ++ map Some (codes.lineFeed :: codes_of "y").
Proof.
  eexists. split; [vm_compute; reflexivity|].
  apply (flow_consumes_what_it_passes (flow_at_start false)
           (three_lines ++ codes.lineFeed :: codes_of "y")
           (codes.lineFeed :: codes_of "y")).
  vm_compute. reflexivity.
Defined.

(** ** Where a run ends, and the assertions *)

(** [metaAfter], [after] and [tokenizeNonLazyContinuation] are called at
    the end of a line only, which is what the assertion of the last one
    asks for; [tokenizeClosingFence] asserts [disable.null]. *)
Section Lines.
Context (self : FlowContext) (throws : bool).
Hypothesis may_throw : disable_null self = None -> throws = true.

Lemma after_at_line_end : at_line_end throws after.
Proof.
  intros input r Heol. unfold after.
  by destruct (is_eof (peek input) && negb (foundClosingBracket r)).
Qed.

Lemma anywhere_at_line_end k : anywhere throws k -> at_line_end throws k.
Proof. intros Hk input r _. apply Hk. Qed.

Lemma anywhere_prefix k ty limit size :
  anywhere throws k -> anywhere throws (prefix k ty limit size).
Proof.
  intros Hk input. revert size.
  induction input as [|x input IH]; intros size r; cbn; [apply Hk|].
  destruct (markdownSpace (Some x) && under size limit); [apply IH|apply Hk].
Qed.

Lemma anywhere_factorySpace k ty max :
  anywhere throws k -> anywhere throws (factorySpace k ty max).
Proof.
  intros Hk input r. unfold factorySpace.
  destruct (markdownSpace (peek input)); [by apply anywhere_prefix|apply Hk].
Qed.

Lemma anywhere_afterSequenceClose ok nok :
  at_line_end throws ok -> anywhere throws nok ->
  anywhere throws (afterSequenceClose ok nok).
Proof.
  intros Hok Hnok input r. unfold afterSequenceClose.
  destruct (is_eof (peek input) || markdownLineEnding (peek input)) eqn:Heol;
    [by apply Hok|apply Hnok].
Qed.

Lemma anywhere_sequenceClose ok nok foundBackslash :
  at_line_end throws ok -> anywhere throws nok ->
  anywhere throws (sequenceClose ok nok foundBackslash).
Proof.
  intros Hok Hnok input. revert foundBackslash.
  induction input as [|x input IH]; intros fb r; cbn; [apply Hnok|].
  destruct ((x =? codes.backslash)%Z && negb fb); [apply IH|].
  destruct ((x =? codes.rightSquareBracket)%Z && fb); [|apply Hnok].
  by apply anywhere_factorySpace, anywhere_afterSequenceClose.
Qed.

Lemma anywhere_tokenizeClosingFence ok nok :
  at_line_end throws ok -> anywhere throws nok ->
  anywhere throws (tokenizeClosingFence self ok nok).
Proof.
  intros Hok Hnok input r. unfold tokenizeClosingFence.
  destruct (disable_null self) as [disabled|] eqn:Hd; [|by apply may_throw].
  apply anywhere_factorySpace. intros input' r'. unfold beforeSequenceClose.
  by apply anywhere_sequenceClose.
Qed.

Lemma anywhere_contentChunk k :
  at_line_end throws k -> anywhere throws (contentChunk k).
Proof.
  intros Hk input.
  induction input as [|x input IH]; intros r; cbn; [by apply Hk|].
  destruct (markdownLineEnding (Some x)) eqn:Hx; [|apply IH].
  by apply Hk, at_eol_cons.
Qed.

Lemma anywhere_contentStart k :
  anywhere throws k -> anywhere throws (contentStart self k).
Proof.
  intros Hk input r. unfold contentStart.
  destruct (initialSize self); [apply Hk|by apply anywhere_factorySpace].
Qed.

Lemma anywhere_beforeNonLazyContinuation k :
  anywhere throws k -> anywhere throws (beforeNonLazyContinuation self k).
Proof.
  intros Hk input r. unfold beforeNonLazyContinuation, attempt.
  apply anywhere_tokenizeClosingFence; [apply after_at_line_end|].
  intros i' r'. by apply anywhere_contentStart.
Qed.

(** An attempt of the continuation at the end of a line. *)
Lemma continuation_at_line_end k :
  anywhere throws k ->
  at_line_end throws
    (attempt (tokenizeNonLazyContinuation self)
             (beforeNonLazyContinuation self k) after).
Proof.
  intros Hk input r Heol.
  unfold attempt, tokenizeNonLazyContinuation, nonLazyContinuation_start,
    lineStart.
  destruct input as [|x rest];
    [by apply anywhere_beforeNonLazyContinuation|].
  unfold at_eol in Heol. cbn in Heol. rewrite Heol. cbn [negb].
  destruct (lazy self _).
  - apply after_at_line_end. by apply at_eol_cons.
  - by apply anywhere_beforeNonLazyContinuation.
Qed.

Lemma anywhere_beforeContentChunk fuel :
  anywhere throws (beforeContentChunk fuel self).
Proof.
  induction fuel as [|f IH]; intros input r; cbn; [done|].
  destruct (is_eof (peek input)) eqn:Heof.
  { apply after_at_line_end. unfold at_eol. by rewrite Heof. }
  destruct (markdownLineEnding (peek input)) eqn:Heol.
  - apply continuation_at_line_end; [done|].
    unfold at_eol. by rewrite Heol, orb_true_r.
  - by apply anywhere_contentChunk, anywhere_at_line_end.
Qed.

Lemma metaAfter_at_line_end fuel : at_line_end throws (metaAfter fuel self).
Proof.
  intros input r Heol. unfold metaAfter.
  destruct (interrupt self); [done|].
  by apply continuation_at_line_end; [apply anywhere_beforeContentChunk|].
Qed.

Lemma anywhere_meta k : at_line_end throws k -> anywhere throws (meta k).
Proof.
  intros Hk input.
  induction input as [|x input IH]; intros r; cbn; [by apply Hk|].
  destruct (markdownLineEnding (Some x)) eqn:Hx;
    [by apply Hk, at_eol_cons|].
  by destruct (x =? codes.rightSquareBracket)%Z.
Qed.

Lemma anywhere_metaBefore k :
  at_line_end throws k -> anywhere throws (metaBefore k).
Proof.
  intros Hk input r. unfold metaBefore.
  destruct (is_eof (peek input) || markdownLineEnding (peek input)) eqn:Heol;
    [by apply Hk|by apply anywhere_meta].
Qed.

Lemma anywhere_openBracket k :
  at_line_end throws k -> anywhere throws (openBracket k).
Proof.
  intros Hk input r. unfold openBracket.
  destruct input as [|x input]; [done|].
  destruct (x =? codes.leftSquareBracket)%Z; [|done].
  by apply anywhere_factorySpace, anywhere_metaBefore.
Qed.
End Lines.

(** X19. Called at a backslash, with [disable.null] there, no assertion
    of the flow recognizer fails, whatever follows: [metaAfter] and
    [tokenizeNonLazyContinuation] are reached at a line ending or at the
    end of the input only. *)
Theorem flow_assertions_hold self d rest :
  disable_null self = Some d ->
  tokenizeMathBracketFlow self (codes.backslash :: rest) <> FThrow.
Proof.
  intros Hd. unfold tokenizeMathBracketFlow, flow_start.
  change (codes.backslash =? codes.backslash)%Z with true. cbv iota.
  match goal with
  | |- openBracket ?k ?i ?r <> FThrow =>
    pose proof (anywhere_openBracket false k
                  (metaAfter_at_line_end self false
                     ltac:(intros; congruence) _) i r) as H;
    destruct (openBracket k i r)
  end; cbn in H; congruence.
Qed.

(** The opening line [\[x] and a line [\], at the end of the input. *)
Lemma flow_assertions_hold_witness :
  tokenizeMathBracketFlow (flow_at_start false)
    (codes.backslash :: codes_of "[x" ++ codes.lineFeed :: codes_of "\")
  <> FThrow.
Proof.
  apply (flow_assertions_hold (flow_at_start false) []
           (codes_of "[x" ++ codes.lineFeed :: codes_of "\")).
  reflexivity.
Defined.

(** X20. A run of the flow recognizer that ends in [ok], interrupting or
    not, ends at a line ending or at the end of the input: the block is
    made of whole lines. *)
Theorem accepted_block_ends_a_line self input input' r :
  tokenizeMathBracketFlow self input = FOk input' r -> at_eol input'.
Proof.
  unfold tokenizeMathBracketFlow, flow_start.
  destruct input as [|x input]; [done|].
  destruct (x =? codes.backslash)%Z; [|done].
  match goal with
  | |- openBracket ?k ?i ?r = _ -> _ =>
    pose proof (anywhere_openBracket true k
                  (metaAfter_at_line_end self true ltac:(done) _) i r) as H
  end.
  intros Heq. by rewrite Heq in H.
Qed.

(** The lines [\[], [x] and [\]], and a line [y] after them. *)
Lemma accepted_block_ends_a_line_witness :
  exists r,
    tokenizeMathBracketFlow (flow_at_start false)
      (three_lines ++ codes.lineFeed :: codes_of "y")
    = FOk (codes.lineFeed :: codes_of "y") r
    /\ at_eol (codes.lineFeed :: codes_of "y").
Proof.
  eexists. split; [vm_compute; reflexivity|].
  eapply (accepted_block_ends_a_line (flow_at_start false)
            (three_lines ++ codes.lineFeed :: codes_of "y")).
  vm_compute. reflexivity.
Defined.

(** ** A closing sequence that is indented *)

(** A line that begins with four spaces or more, where indented code is
    not disabled: the closing fence is not looked for past the third
    space, and the line is content. *)
Lemma indented_step self d f e pre line more r :
  disable_null self = Some d ->
  existsb (String.eqb "codeIndented") d = false ->
  markdownLineEnding (Some e) = true ->
  lazy self (lineNo r + 1) = false ->
  spaces pre -> constants.tabSize <= length pre ->
  one_line line -> at_eol more ->
  length (e :: (pre ++ line) ++ more) < f ->
  exists f' r',
    beforeContentChunk f self (e :: (pre ++ line) ++ more) r
    = beforeContentChunk f' self more r'
    /\ foundClosingBracket r' = foundClosingBracket r
    /\ length more < f'.
Proof.
  intros Hd Hcode He Hlazy Hpre Hlen Hline Hmore Hf.
  destruct f as [|f]; [cbn in Hf; lia|].
  cbn [beforeContentChunk peek head is_eof]. rewrite He.
  unfold attempt at 1, tokenizeNonLazyContinuation,
    nonLazyContinuation_start, lineStart.
  rewrite He. cbn [negb consume enter exit lineNo]. rewrite He, Hlazy.
  unfold beforeNonLazyContinuation, attempt, tokenizeClosingFence.
  rewrite Hd, Hcode. rewrite factorySpace_exact by done. cbv zeta.
  destruct pre as [|s1 [|s2 [|s3 [|s4 pre]]]];
    try (unfold constants.tabSize in Hlen; cbn in Hlen; lia).
  assert (one_line (s1 :: s2 :: s3 :: s4 :: pre)) as Hpre'
    by (by apply spaces_one_line).
  inversion Hpre as [|? ? H1 Hp1]; subst.
  inversion Hp1 as [|? ? H2 Hp2]; subst.
  inversion Hp2 as [|? ? H3 Hp3]; subst.
  inversion Hp3 as [|? ? H4 Hp4]; subst.
  cbn [app leading under constants.tabSize Nat.ltb Nat.leb].
  rewrite H1, H2, H3. cbn [andb fst snd].
  rewrite andb_false_r. cbn [fst snd].
  unfold beforeSequenceClose. cbn [sequenceClose].
  assert ((s4 =? codes.backslash)%Z = false) as ->.
  { apply Z.eqb_neq. intros ->. discriminate H4. }
  assert ((s4 =? codes.rightSquareBracket)%Z = false) as ->.
  { apply Z.eqb_neq. intros ->. discriminate H4. }
  cbn [andb].
  match goal with
  | |- context [contentStart self _ _ ?r1] =>
    destruct (content_step self f
                ((s1 :: s2 :: s3 :: s4 :: pre) ++ line) more r1)
      as (f' & Hc & Hf'); [|done| |]
  end.
  - by apply Forall_app.
  - cbn [length app] in Hf |- *. rewrite !length_app in *. lia.
  - cbn [app] in Hc |- *. rewrite <- !app_assoc in Hc |- *.
    exists f'. eexists. split; [exact Hc|]. split; [|done].
    rewrite found_emit. cbn. by rewrite ?found_emit.
Qed.

(** X23. Where indented code is not disabled, a line that has the closing
    sequence [\]] after four spaces or more is no closing fence: when the
    input ends with that line, after the opening fence and lines of content
    that have no right square bracket and are not lazy, the run ends in
    [nok] (the line is content and [foundClosingBracket] is not set). *)
Theorem indented_fence_does_not_close self d ws m body e pre ws' :
  interrupt self = false ->
  disable_null self = Some d ->
  existsb (String.eqb "codeIndented") d = false ->
  (forall n, lazy self n = false) ->
  spaces ws -> markdownSpace (peek m) = false ->
  one_line m -> codes.rightSquareBracket ∉ m ->
  Forall content_line body ->
  markdownLineEnding (Some e) = true ->
  spaces pre -> constants.tabSize <= length pre -> spaces ws' ->
  tokenizeMathBracketFlow self
    (codes.backslash :: codes.leftSquareBracket :: ws ++ m
       ++ content_lines body
       ++ e :: pre ++ codes.backslash :: codes.rightSquareBracket :: ws')
  = FNok.
Proof.
  intros Hint Hd Hcode Hlazy Hws Hhead Hm Hno Hbody He Hpre Hlen Hws'.
  rewrite <- (app_nil_r (pre ++ _)).
  unfold tokenizeMathBracketFlow.
  set (line := codes.backslash :: codes.rightSquareBracket :: ws').
  set (fuel := S (length _)).
  match goal with |- context [flow_start _ _ ?r] => set (r0 := r) end.
  assert (at_eol (e :: (pre ++ line) ++ [])) as Htail
    by (by apply at_eol_cons).
  destruct (opening_steps (metaAfter fuel self) ws m
              (content_lines body ++ e :: (pre ++ line) ++ []) r0)
    as (r1 & -> & Hr1); auto using at_eol_content_lines.
  rewrite (metaAfter_at_eol fuel self d), Hr1;
    auto using at_eol_content_lines; [|subst fuel; lia].
  destruct (body_steps self d body Hd Hbody (S fuel)
              (e :: (pre ++ line) ++ [])
              (emit (opening_fence_effects ws m) r0))
    as (f1 & -> & Hf1); auto.
  { subst fuel. cbn [length]. rewrite !length_app. lia. }
  destruct (indented_step self d f1 e pre line []
              (emit (concat (map (content_line_effects (initialSize self))
                                 body))
                    (emit (opening_fence_effects ws m) r0)) Hd Hcode He)
    as (f2 & r2 & -> & Hfound & Hf2); auto; try done.
  { subst line. repeat (constructor; [done|]). by apply spaces_one_line. }
  rewrite end_of_input_step by (cbn in Hf2; lia).
  by rewrite Hfound, !found_emit.
Qed.

(** The lines [\[], [x] and, after four spaces, [\]]. *)
Lemma indented_fence_does_not_close_witness :
  tokenizeMathBracketFlow (flow_at_start false)
    (codes.backslash :: codes.leftSquareBracket :: [] ++ []
       ++ content_lines [(codes.lineFeed, codes_of "x")]
       ++ codes.lineFeed
       :: codes_of "    " ++ codes.backslash :: codes.rightSquareBracket
       :: [])
  = FNok.
Proof.
  apply (indented_fence_does_not_close (flow_at_start false) [] [] []
           [(codes.lineFeed, codes_of "x")] codes.lineFeed
           (codes_of "    ") []).
  - reflexivity.
  - reflexivity.
  - reflexivity.
  - reflexivity.
  - constructor.
  - reflexivity.
  - constructor.
  - apply not_elem_of_nil.
  - repeat constructor.
    intros H. apply list_elem_of_In in H. vm_compute in H.
    intuition discriminate.
  - reflexivity.
  - repeat constructor.
  - vm_compute. lia.
  - constructor.
Defined.

(** * Further properties of the resolver *)

(** ** What the resolver may change *)

Lemma same_starts_refl heap : same_starts heap heap.
Proof. done. Qed.

Lemma same_starts_trans heap1 heap2 heap3 :
  same_starts heap1 heap2 -> same_starts heap2 heap3 ->
  same_starts heap1 heap3.
Proof. unfold same_starts. congruence. Qed.

Lemma same_starts_insert (heap : list Token) tok t t' :
  heap !! tok = Some t -> start_ t' = start_ t ->
  same_starts heap (<[tok := t']> heap).
Proof.
  intros Ht Hs. unfold same_starts.
  change (map start_ (<[tok := t']> heap))
    with (start_ <$> <[tok := t']> heap).
  rewrite list_fmap_insert, Hs. apply list_insert_id.
  by rewrite list_lookup_fmap, Ht.
Qed.

Lemma token_at_heap events (heap : list Token) i tok t :
  token_at events heap i = Some (tok, t) -> heap !! tok = Some t.
Proof.
  unfold token_at. destruct (event_at events i) as [[ph tok']|]; [|done].
  destruct (heap !! tok') as [t'|] eqn:Ht; [|done]. by intros [= <- <-].
Qed.

Lemma set_type_starts events heap i ty heap' :
  set_type events heap i ty = Some heap' -> same_starts heap heap'.
Proof.
  unfold set_type.
  destruct (token_at events heap i) as [[tok t]|] eqn:Ht; [|done].
  intros [= <-]. apply token_at_heap in Ht.
  by apply same_starts_insert with (t := t).
Qed.

Lemma copy_end_starts events heap i j heap' :
  copy_end events heap i j = Some heap' -> same_starts heap heap'.
Proof.
  unfold copy_end.
  destruct (token_at events heap i) as [[tok t]|] eqn:Ht; [|done].
  destruct (token_at events heap j) as [[tok' u]|]; [|done].
  intros [= <-]. apply token_at_heap in Ht.
  by apply same_starts_insert with (t := t).
Qed.

Lemma splice_sublist events from count :
  splice events from count `sublist_of` events.
Proof.
  unfold splice.
  rewrite <- (take_drop (Z.to_nat from) events) at 3.
  apply sublist_app; [done|].
  rewrite <- drop_drop. apply sublist_drop.
Qed.

Lemma padding_keeps events heap w :
  padding events heap = Done w ->
  w_events w = events /\ same_starts heap (w_heap w).
Proof.
  unfold padding.
  destruct (type_at events heap 3) as [hd|]; [|done].
  destruct (is_line_ending_or_space hd); [|by intros [= <-]].
  destruct (type_at events heap _) as [tl|]; [|done].
  destruct (is_line_ending_or_space tl); [|by intros [= <-]].
  destruct (find_data _ _ _ _ _) as [[|]| |]; try done;
    [|by intros [= <-]].
  destruct (set_type events heap _ _) as [heap1|] eqn:H1; [|done].
  destruct (set_type events heap1 _ _) as [heap2|] eqn:H2; [|done].
  intros [= <-]. cbn. split; [done|].
  eapply same_starts_trans; eauto using set_type_starts.
Qed.

Lemma merge_keeps fuel :
  forall events heap tailExitIndex index enter events' heap',
    merge fuel events heap tailExitIndex index enter = Done (events', heap') ->
    events' `sublist_of` events /\ same_starts heap heap'.
Proof.
  induction fuel as [|f IH];
    intros events heap tl index enter events' heap'; cbn [merge]; [done|].
  destruct (index + 1 <=? tl)%Z; [|by intros [= <- <-]].
  destruct enter as [enter|].
  - destruct (if (index + 1 =? tl)%Z then Some true
              else match type_at events heap (index + 1) with
                   | Some ty => Some (String.eqb ty types.lineEnding)
                   | None => None
                   end) as [[|]|]; [|apply IH|done].
    destruct (set_type events heap enter "mathTextData") as [heap1|] eqn:H1;
      [|done].
    apply set_type_starts in H1.
    destruct (index + 1 =? enter + 2)%Z.
    + intros H. apply IH in H as [Hsub Hst]. split; [done|].
      by eapply same_starts_trans.
    + destruct (copy_end events heap1 _ _) as [heap2|] eqn:H2; [|done].
      apply copy_end_starts in H2.
      intros H. apply IH in H as [Hsub Hst]. split.
      * etrans; [exact Hsub|apply splice_sublist].
      * eapply same_starts_trans; [exact H1|].
        by eapply same_starts_trans.
  - destruct (index + 1 =? tl)%Z; [apply IH|].
    destruct (type_at events heap (index + 1)); [|done].
    destruct (String.eqb _ _); apply IH.
Qed.

(** X12. Whatever events and tokens it is given, when the resolver
    returns, the events it returns are events it was given, in their
    order (it removes events and adds none), and the tokens are as many as
    before and start where they did: it writes only the type and the end
    of a token. *)
Theorem resolver_only_removes_events events heap events' heap' :
  resolveMathText events heap = Done (events', heap') ->
  events' `sublist_of` events
  /\ length heap' = length heap
  /\ map start_ heap' = map start_ heap.
Proof.
  unfold resolveMathText.
  destruct (padding events heap) as [w| |] eqn:Hw; try done.
  apply padding_keeps in Hw as [Hev Hst]. intros H.
  apply merge_keeps in H as [Hsub Hst']. rewrite Hev in Hsub.
  pose proof (same_starts_trans _ _ _ Hst Hst') as Hall.
  split; [done|]. split; [|exact Hall].
  unfold same_starts in Hall.
  by rewrite <- (length_map start_ heap'), Hall, length_map.
Qed.

(** The events of the run over [\(a  b\)], of which four are removed. *)
Lemma resolver_only_removes_events_witness :
  exists events' heap',
    resolveMathText (text_events 0 1 6 (map fst spaced_inner)) spaced_heap
    = Done (events', heap')
    /\ length events' = 8
    /\ events' `sublist_of` text_events 0 1 6 (map fst spaced_inner)
    /\ length heap' = length spaced_heap
    /\ map start_ heap' = map start_ spaced_heap.
Proof.
  eexists _, _. split; [vm_compute; reflexivity|]. split; [reflexivity|].
  apply (resolver_only_removes_events
           (text_events 0 1 6 (map fst spaced_inner)) spaced_heap).
  vm_compute. reflexivity.
Defined.

(** ** Too few events *)

(** X13. Given fewer than four events, the resolver throws a [TypeError]:
    it reads the token of the event at the index [3] before anything
    else. *)
Theorem resolver_needs_four_events events heap :
  length events < 4 -> resolveMathText events heap = TypeError.
Proof.
  intros Hlen. unfold resolveMathText, padding.
  assert (type_at events heap 3 = None) as ->; [|done].
  unfold type_at, token_at, event_at. cbn [Z.ltb Z.compare].
  rewrite lookup_ge_None_2; [done|].
  change (Z.to_nat 3) with 3. lia.
Qed.

(** The three events of one token inside another, left open. *)
Lemma resolver_needs_four_events_witness :
  resolveMathText [(PEnter, 0); (PEnter, 1); (PExit, 1)]
    [token "mathText" 0 2; token "mathTextSequence" 0 2]
  = TypeError.
Proof.
  apply (resolver_needs_four_events [(PEnter, 0); (PEnter, 1); (PExit, 1)]).
  cbn. lia.
Defined.

(** ** The types that the resolver leaves *)

Lemma resolve_spans_types inner :
  Forall (fun s : Span =>
            is_line_ending s.2 = true \/ type s.2 = "mathTextData"
            \/ type s.2 = "mathTextPadding")
         (resolve_spans inner).
Proof.
  assert (forall spans : list Span,
             Forall (fun s : Span =>
                       is_line_ending s.2 = true \/ type s.2 = "mathTextData"
                       \/ type s.2 = "mathTextPadding")
                    (coalesce spans)) as Hco.
  { intros spans. eapply Forall_impl; [apply coalesce_types|].
    cbn. tauto. }
  unfold resolve_spans. destruct (padded inner) eqn:Hp; [|apply Hco].
  apply padded_inv in Hp as (f & mid & z & -> & _).
  cbn [head tail]. rewrite last_snoc.
  constructor; [by right; right|].
  apply Forall_app. split; [apply Hco|].
  constructor; [by right; right|constructor].
Qed.

(** X14. On the events of an accepted run, whatever the types of the
    spans between the two sequences, the resolver leaves no token of
    another type than [mathText], [mathTextSequence], [mathTextData],
    [lineEnding] and [mathTextPadding] among the events it returns: a
    space, also one that stands alone, becomes part of a [mathTextData]
    or a [mathTextPadding]. *)
Theorem resolver_leaves_no_space heap outer opening closing inner :
  shaped heap outer opening closing inner ->
  exists events' heap',
    resolveMathText (text_events outer opening closing (map fst inner)) heap
    = Done (events', heap')
    /\ forall ph i t,
         (ph, i) ∈ events' -> heap' !! i = Some t ->
         type t = "mathText" \/ type t = "mathTextSequence"
         \/ type t = "mathTextData" \/ type t = types.lineEnding
         \/ type t = "mathTextPadding".
Proof.
  intros Hshaped. eexists _, _.
  split; [by apply resolveMathText_shaped|].
  pose proof (shaped_resolve _ _ _ _ _ Hshaped) as Hres.
  destruct Hres as [Hnodup Ho Ha Hc Hinner].
  intros ph i t Hin Ht.
  apply elem_of_text_events in Hin as [->|[->|[->|Hin]]].
  - rewrite Ht in Ho. cbn in Ho. left. congruence.
  - rewrite Ht in Ha. cbn in Ha. right; left. congruence.
  - rewrite Ht in Hc. cbn in Hc. right; left. congruence.
  - apply list_elem_of_fmap in Hin as (s & -> & Hs).
    pose proof (proj1 (Forall_forall _ _) Hinner s Hs) as Hlook.
    cbn in Hlook. rewrite Ht in Hlook. injection Hlook as ->.
    pose proof (proj1 (Forall_forall _ _) (resolve_spans_types inner) s Hs)
      as [Hle|[Hd|Hp]].
    + right; right; right; left. unfold is_line_ending in Hle.
      by apply String.eqb_eq in Hle.
    + right; right; left. done.
    + right; right; right; right. done.
Qed.

(** The events of the run over [\(a  b\)]. *)
Lemma resolver_leaves_no_space_witness :
  exists events' heap',
    resolveMathText (text_events 0 1 6 (map fst spaced_inner)) spaced_heap
    = Done (events', heap')
    /\ forall ph i t,
         (ph, i) ∈ events' -> heap' !! i = Some t ->
         type t = "mathText" \/ type t = "mathTextSequence"
         \/ type t = "mathTextData" \/ type t = types.lineEnding
         \/ type t = "mathTextPadding".
Proof.
  apply (resolver_leaves_no_space spaced_heap 0 1 6 spaced_inner).
  split; [|reflexivity|reflexivity|reflexivity|by repeat constructor].
  apply NoDup_ListNoDup. repeat constructor; cbn; intuition discriminate.
Defined.

(** ** Only line endings *)

Lemma coalesce_line_endings (spans : list Span) :
  Forall (fun s : Span => is_line_ending s.2 = true) spans ->
  coalesce spans = spans.
Proof.
  induction 1 as [|s spans Hs Hspans IH]; [done|].
  by rewrite coalesce_line_ending, IH.
Qed.

Lemma line_endings_not_padded (inner : list Span) :
  Forall (fun s : Span => is_line_ending s.2 = true) inner ->
  padded inner = false.
Proof.
  intros Hinner.
  destruct (padded inner) eqn:Hp; [|done]. exfalso.
  apply padded_inv in Hp as (f & mid & z & -> & _ & _ & Hdata).
  apply existsb_exists in Hdata as (s & Hs & Hd).
  apply list_elem_of_In in Hs.
  assert (is_line_ending s.2 = true) as Hle.
  { eapply (proj1 (Forall_forall _ _) Hinner).
    apply elem_of_cons. right. apply elem_of_app. by left. }
  unfold is_data, is_line_ending in *.
  apply String.eqb_eq in Hd, Hle. rewrite Hd in Hle. discriminate.
Qed.

(** X15. On the events of an accepted run with nothing between the two
    sequences, or with line endings only, the resolver returns the events
    and leaves the tokens as they were. *)
Theorem line_endings_only_unchanged heap outer opening closing inner :
  shaped heap outer opening closing inner ->
  Forall (fun s : Span => is_line_ending s.2 = true) inner ->
  resolveMathText (text_events outer opening closing (map fst inner)) heap
  = Done (text_events outer opening closing (map fst inner), heap).
Proof.
  intros Hshaped Hinner.
  rewrite (resolveMathText_shaped _ _ _ _ _ Hshaped).
  unfold resolve_spans, resolve_heap.
  rewrite (line_endings_not_padded inner Hinner).
  rewrite (coalesce_line_endings inner Hinner).
  by rewrite (write_all_id inner heap (shaped_inner _ _ _ _ _ Hshaped)).
Qed.

(** The events of the run over [\(], a line feed and [\)]. *)
Lemma line_endings_only_unchanged_witness :
  resolveMathText
    (text_events 0 1 3 (map fst [(2, token "lineEnding" 2 3)]))
    [token "mathText" 0 5; token "mathTextSequence" 0 2;
     token "lineEnding" 2 3; token "mathTextSequence" 3 5]
  = Done (text_events 0 1 3 (map fst [(2, token "lineEnding" 2 3)]),
          [token "mathText" 0 5; token "mathTextSequence" 0 2;
           token "lineEnding" 2 3; token "mathTextSequence" 3 5]).
Proof.
  apply (line_endings_only_unchanged
           [token "mathText" 0 5; token "mathTextSequence" 0 2;
            token "lineEnding" 2 3; token "mathTextSequence" 3 5]
           0 1 3 [(2, token "lineEnding" 2 3)]).
  - split; [|reflexivity|reflexivity|reflexivity|by repeat constructor].
    apply NoDup_ListNoDup. repeat constructor; cbn; intuition discriminate.
  - by repeat constructor.
Defined.

(** ** From the recognizer to the resolver *)

(** X16. The resolver returns, without a [TypeError], on the events of
    every run of the text recognizer over [\(], content without a
    backslash and [\)]: every event it reads is there, with its token. *)
Theorem resolver_returns_on_accepted_runs self content rest p prev :
  previous self (previousCode self) = Some true ->
  codes.backslash ∉ content ->
  exists c result,
    effects (fresh p prev)
      (tokenizeParensMathText self
         (Some codes.backslash :: Some codes.leftParenthesis
            :: map Some content
            ++ Some codes.backslash :: Some codes.rightParenthesis :: rest)).1.1
    = Some c
    /\ resolveMathText (events c) (heap c) = Done result.
Proof.
  intros Hprev Hno.
  destruct (accepted_run_resolves self content rest p prev Hprev Hno)
    as (c & inner & Hc & Hres).
  eexists c, _. split; [exact Hc|exact Hres].
Qed.

(** The run over [\( a  b \)]. *)
Lemma resolver_returns_on_accepted_runs_witness :
  exists c result,
    effects (fresh origin None)
      (tokenizeParensMathText at_start
         (Some codes.backslash :: Some codes.leftParenthesis
            :: map Some (codes_of " a  b ")
            ++ Some codes.backslash :: Some codes.rightParenthesis
            :: [codes.eof])).1.1
    = Some c
    /\ resolveMathText (events c) (heap c) = Done result.
Proof.
  apply (resolver_returns_on_accepted_runs at_start (codes_of " a  b ")
           [codes.eof] origin None).
  - reflexivity.
  - intros H. apply list_elem_of_In in H. vm_compute in H.
    intuition discriminate.
Defined.

(** ** The loops of the resolver *)

(** X17. Whatever events and tokens it is given, also ones that no run of
    the recognizer gives, both loops of the resolver end: it returns or
    throws a [TypeError]. *)
Theorem resolver_loops_end events heap :
  resolveMathText events heap = TypeError
  \/ exists events' heap', resolveMathText events heap = Done (events', heap').
Proof.
  pose proof (resolveMathText_finishes events heap) as H.
  destruct (resolveMathText events heap) as [[events' heap']| |].
  - right. by exists events', heap'.
  - by left.
  - done.
Qed.

(** * The tokens of a run of the text recognizer *)

Lemma point_after_cons p x content :
  point_after p (x :: content) = point_after (advance (Some x) p) content.
Proof. reflexivity. Qed.

(** The effects over the content leave the tokens of [content_tokens],
    one span after the other, and the point after the content. *)
Lemma effects_content_tokens content :
  forall t0 t1 toks (open : option Token) p prev,
    exists prev',
      effects (content_context t0 t1 toks open p prev)
              (content_effects match open with Some _ => true | None => false end
                               content)
      = Some (content_context t0 t1 (toks ++ content_tokens open p content)
                None (point_after p content) prev').
Proof.
  induction content as [|x content IH]; intros t0 t1 toks open p prev;
    cbn [content_effects content_tokens].
  - destruct open as [d|]; cbn [effects].
    + rewrite leave_data. by eexists.
    + rewrite app_nil_r. by eexists.
  - rewrite point_after_cons.
    destruct (x =? codes.space)%Z; [|destruct (markdownLineEnding (Some x))].
    + rewrite effects_app.
      destruct open as [d|]; cbn [effects]; [rewrite leave_data|];
        cbv beta iota; rewrite (effects_app [_; _; _]), whole_span;
        cbv beta iota.
      * destruct (IH t0 t1 ((toks ++ [close_at p d]) ++ [
                      {| type := "space"; start_ := p;
                         end_ := Some (advance (Some x) p) |}]) None
                    (advance (Some x) p) (Some x)) as [prev' Heq].
        rewrite Heq, <- !app_assoc. by eexists.
      * destruct (IH t0 t1 (toks ++ [
                      {| type := "space"; start_ := p;
                         end_ := Some (advance (Some x) p) |}]) None
                    (advance (Some x) p) (Some x)) as [prev' Heq].
        rewrite Heq, <- !app_assoc. by eexists.
    + rewrite effects_app.
      destruct open as [d|]; cbn [effects]; [rewrite leave_data|];
        cbv beta iota; rewrite (effects_app [_; _; _]), whole_span;
        cbv beta iota.
      * destruct (IH t0 t1 ((toks ++ [close_at p d]) ++ [
                      {| type := types.lineEnding; start_ := p;
                         end_ := Some (advance (Some x) p) |}]) None
                    (advance (Some x) p) (Some x)) as [prev' Heq].
        rewrite Heq, <- !app_assoc. by eexists.
      * destruct (IH t0 t1 (toks ++ [
                      {| type := types.lineEnding; start_ := p;
                         end_ := Some (advance (Some x) p) |}]) None
                    (advance (Some x) p) (Some x)) as [prev' Heq].
        rewrite Heq, <- !app_assoc. by eexists.
    + destruct open as [d|]; cbn [app effects].
      * rewrite consume_in_content.
        apply (IH t0 t1 toks (Some d)).
      * rewrite enter_data, consume_in_content.
        apply (IH t0 t1 toks (Some _)).
Qed.

Lemma shaped_run t0 t1 t2 (toks : list Token) :
  type t0 = "mathText" -> type t1 = "mathTextSequence" ->
  type t2 = "mathTextSequence" ->
  shaped (t0 :: t1 :: toks ++ [t2]) 0 1 (2 + length toks) (spans_at 2 toks).
Proof.
  intros H0 H1 H2. split.
  - rewrite fst_spans_at.
    apply NoDup_cons; split.
    { rewrite !elem_of_cons, elem_of_seq. lia. }
    apply NoDup_cons; split.
    { rewrite !elem_of_cons, elem_of_seq. lia. }
    apply NoDup_cons; split; [|apply NoDup_seq].
    rewrite elem_of_seq. lia.
  - cbn. by rewrite H0.
  - cbn. by rewrite H1.
  - change (2 + length toks) with (S (S (length toks))).
    rewrite !lookup_cons, list_lookup_middle by done. cbn. by rewrite H2.
  - apply (spans_at_lookup toks 2 [_; _] [_]). reflexivity.
Qed.

(** The context after a run over [\(], content without a backslash and
    [\)]. *)
Lemma run_context self content rest p prev :
  previous self (previousCode self) = Some true ->
  codes.backslash ∉ content ->
  effects (fresh p prev)
    (tokenizeParensMathText self
       (Some codes.backslash :: Some codes.leftParenthesis
          :: map Some content
          ++ Some codes.backslash :: Some codes.rightParenthesis :: rest)).1.1
  = let p2 := advance (Some codes.leftParenthesis)
                (advance (Some codes.backslash) p) in
    let p3 := point_after p2 content in
    let q := advance (Some codes.rightParenthesis)
               (advance (Some codes.backslash) p3) in
    let toks := content_tokens None p2 content in
    Some {| events := text_events 0 1 (2 + length toks)
                        (map fst (spans_at 2 toks));
            heap := {| type := "mathText"; start_ := p; end_ := Some q |}
                      :: {| type := "mathTextSequence"; start_ := p;
                            end_ := Some p2 |}
                      :: toks
                      ++ [{| type := "mathTextSequence"; start_ := p3;
                             end_ := Some q |}];
            stack := [];
            now := q;
            previousCode := Some codes.rightParenthesis |}.
Proof.
  intros Hprev Hno. rewrite (tokenize_content self content rest Hprev Hno).
  cbn [fst]. rewrite effects_app.
  change (effects (fresh p prev) opening_effects)
    with (Some (content_context
                  {| type := "mathText"; start_ := p; end_ := None |}
                  {| type := "mathTextSequence"; start_ := p;
                     end_ := Some (advance (Some codes.leftParenthesis)
                                     (advance (Some codes.backslash) p)) |}
                  [] None
                  (advance (Some codes.leftParenthesis)
                     (advance (Some codes.backslash) p))
                  (Some codes.leftParenthesis))).
  cbv beta iota. rewrite effects_app.
  match goal with
  | |- context [effects (content_context ?t0 ?t1 [] None ?q ?pv)
                        (content_effects false content)] =>
    destruct (effects_content_tokens content t0 t1 [] None q pv)
      as (prev' & Heq)
  end.
  cbv beta iota in Heq. rewrite Heq, effects_closing. reflexivity.
Qed.

(** X21. The events and the tokens of the run over [\(], content without
    a backslash and [\)]: [mathText] around the opening sequence, the
    tokens of the content and the closing sequence; in the content a token
    for each space and each line ending and one [mathTextData] token for
    the codes between them ([content_tokens]), each from the point before
    its first code to the point after its last. *)
Theorem text_run_tokens self content rest p prev :
  previous self (previousCode self) = Some true ->
  codes.backslash ∉ content ->
  let p2 := advance (Some codes.leftParenthesis)
              (advance (Some codes.backslash) p) in
  let p3 := point_after p2 content in
  let q := advance (Some codes.rightParenthesis)
             (advance (Some codes.backslash) p3) in
  let toks := content_tokens None p2 content in
  exists c,
    effects (fresh p prev)
      (tokenizeParensMathText self
         (Some codes.backslash :: Some codes.leftParenthesis
            :: map Some content
            ++ Some codes.backslash :: Some codes.rightParenthesis :: rest)).1.1
    = Some c
    /\ events c
       = text_events 0 1 (2 + length toks) (seq 2 (length toks))
    /\ heap c
       = {| type := "mathText"; start_ := p; end_ := Some q |}
           :: {| type := "mathTextSequence"; start_ := p; end_ := Some p2 |}
           :: toks
           ++ [{| type := "mathTextSequence"; start_ := p3;
                  end_ := Some q |}].
Proof.
  intros Hprev Hno p2 p3 q toks.
  rewrite (run_context self content rest p prev Hprev Hno).
  eexists. split; [reflexivity|]. cbn [events heap].
  by rewrite fst_spans_at.
Qed.

(** The run over [\(a b\)]: the tokens of [a], of the space and of [b]. *)
Lemma text_run_tokens_witness :
  exists c,
    effects (fresh origin None)
      (tokenizeParensMathText at_start
         (Some codes.backslash :: Some codes.leftParenthesis
            :: map Some (codes_of "a b")
            ++ Some codes.backslash :: Some codes.rightParenthesis
            :: [codes.eof])).1.1
    = Some c
    /\ events c = text_events 0 1 5 [2; 3; 4]
    /\ heap c
       = [token "mathText" 0 7; token "mathTextSequence" 0 2;
          token "mathTextData" 2 3; token "space" 3 4;
          token "mathTextData" 4 5; token "mathTextSequence" 5 7].
Proof.
  apply (text_run_tokens at_start (codes_of "a b") [codes.eof] origin None).
  - reflexivity.
  - intros H. apply list_elem_of_In in H. vm_compute in H.
    intuition discriminate.
Defined.

(** ** Content of one line, from the recognizer through the resolver *)

Lemma last_app_cons {A} (l T : list A) a :
  last (l ++ a :: T) = Some (default a (last T)).
Proof.
  rewrite last_app, last_cons. by destruct (last T).
Qed.

Lemma content_tokens_last content :
  forall open p fallback,
    one_line content ->
    (open = None -> end_ fallback = Some p) ->
    end_ (default fallback (last (content_tokens open p content)))
    = Some (point_after p content).
Proof.
  induction content as [|x content IH]; intros open p fallback Hline Hopen;
    cbn [content_tokens].
  - destruct open as [d|]; [done|]. by apply Hopen.
  - inversion Hline as [|? ? Hx Hline']; subst. rewrite Hx.
    rewrite point_after_cons.
    destruct (x =? codes.space)%Z.
    + rewrite last_app_cons. cbn [default].
      by apply (IH None).
    + by apply IH.
Qed.

Lemma content_tokens_types content :
  forall open p,
    one_line content ->
    (forall d, open = Some d -> is_line_ending d = false) ->
    Forall (fun t => is_line_ending t = false)
           (content_tokens open p content).
Proof.
  induction content as [|x content IH]; intros open p Hline Hopen;
    cbn [content_tokens].
  - destruct open as [d|]; [|constructor].
    constructor; [|constructor].
    change (is_line_ending d = false). by apply Hopen.
  - inversion Hline as [|? ? Hx Hline']; subst. rewrite Hx.
    destruct (x =? codes.space)%Z.
    + apply Forall_app. split.
      * destruct open as [d|]; [|constructor].
        constructor; [|constructor].
        change (is_line_ending d = false). by apply Hopen.
      * constructor; [done|]. by apply IH.
    + apply IH; [done|]. intros d [= <-].
      destruct open as [d|]; [by apply Hopen|done].
Qed.

Lemma content_tokens_head content :
  forall d p,
    exists q others,
      content_tokens (Some d) p content = close_at q d :: others.
Proof.
  induction content as [|x content IH]; intros d p; cbn [content_tokens].
  - by eexists _, _.
  - destruct (x =? codes.space)%Z; [by eexists _, _|].
    destruct (markdownLineEnding (Some x)); [by eexists _, _|].
    apply IH.
Qed.

Lemma not_edge_not_padded (f : Span) (l : list Span) :
  is_edge f.2 = false -> padded (f :: l) = false.
Proof.
  intros Hf. unfold padded. cbn [head tail].
  destruct (last l); [|done]. by rewrite Hf.
Qed.

(** X22. Content of one line that does not begin with a space and has no
    backslash, between [\(] and [\)]: the recognizer and then the resolver
    leave, between the two sequences, one token, of type [mathTextData],
    from the point after the opening sequence to the point before the
    closing sequence; the spaces inside the content are part of it. *)
Theorem one_line_content_is_one_token self x content rest p prev :
  previous self (previousCode self) = Some true ->
  codes.backslash ∉ x :: content ->
  one_line (x :: content) -> x <> codes.space ->
  let p2 := advance (Some codes.leftParenthesis)
              (advance (Some codes.backslash) p) in
  exists c closing events' heap',
    effects (fresh p prev)
      (tokenizeParensMathText self
         (Some codes.backslash :: Some codes.leftParenthesis
            :: map Some (x :: content)
            ++ Some codes.backslash :: Some codes.rightParenthesis :: rest)).1.1
    = Some c
    /\ resolveMathText (events c) (heap c) = Done (events', heap')
    /\ events' = text_events 0 1 closing [2]
    /\ heap' !! 2
       = Some {| type := "mathTextData"; start_ := p2;
                 end_ := Some (point_after p2 (x :: content)) |}.
Proof.
  intros Hprev Hno Hline Hx p2.
  rewrite (run_context self (x :: content) rest p prev Hprev Hno).
  cbv zeta. fold p2.
  set (toks := content_tokens None p2 (x :: content)).
  assert (shaped
            ({| type := "mathText"; start_ := p;
                end_ := Some (advance (Some codes.rightParenthesis)
                                (advance (Some codes.backslash)
                                   (point_after p2 (x :: content)))) |}
               :: {| type := "mathTextSequence"; start_ := p;
                     end_ := Some p2 |}
               :: toks
               ++ [{| type := "mathTextSequence";
                      start_ := point_after p2 (x :: content);
                      end_ := Some (advance (Some codes.rightParenthesis)
                                      (advance (Some codes.backslash)
                                         (point_after p2 (x :: content)))) |}])
            0 1 (2 + length toks) (spans_at 2 toks)) as Hshaped
    by (by apply shaped_run).
  pose proof (resolveMathText_shaped _ _ _ _ _ Hshaped) as Hresolved.
  pose proof (resolve_heap_lookup _ _ _ _ _ Hshaped) as Hlook.
  (* the tokens of the content: a first one, of data, and others *)
  assert ((x =? codes.space)%Z = false) as Hsp by (by apply Z.eqb_neq).
  inversion Hline as [|? ? Hle Hline']; subst.
  pose proof (content_tokens_types (x :: content) None p2 Hline
                ltac:(discriminate)) as Htypes.
  pose proof (content_tokens_last (x :: content) None p2
                {| type := ""; start_ := p2; end_ := Some p2 |} Hline
                ltac:(done)) as Hlast.
  fold toks in Htypes, Hlast.
  assert (exists q others,
             toks = close_at q {| type := "mathTextData"; start_ := p2;
                                  end_ := None |} :: others)
    as (q & others & Htoks).
  { subst toks. cbn [content_tokens]. rewrite Hsp, Hle.
    apply content_tokens_head. }
  rewrite Htoks in *. clear Htoks toks.
  set (first := close_at q _) in *.
  cbn [spans_at] in *.
  assert (resolve_spans ((2, first) :: spans_at 3 others)
          = [(2, merged first others)]) as Hres.
  { unfold resolve_spans. rewrite not_edge_not_padded by reflexivity.
    rewrite <- (app_nil_r (spans_at 3 others)), coalesce_run.
    - by rewrite snd_spans_at.
    - apply Forall_forall. intros s Hs.
      assert (s.2 ∈ first :: others) as Hin.
      { apply elem_of_cons in Hs as [->|Hs]; [by left|right].
        apply (list_elem_of_fmap_2 snd) in Hs.
        by rewrite snd_spans_at in Hs. }
      by apply (proj1 (Forall_forall _ _) Htypes).
    - done. }
  rewrite Hres in *.
  eexists _, _, _, _. split; [reflexivity|]. cbn [events heap].
  split; [exact Hresolved|]. split; [reflexivity|].
  inversion Hlook as [|? ? H2 _]; subst. cbn [fst snd] in H2.
  rewrite H2. f_equal. unfold merged. f_equal.
  rewrite <- Hlast, last_cons. by destruct (last others).
Qed.

(** The run over [\(a  b\)]: one token from [a] to [b]. *)
Lemma one_line_content_is_one_token_witness :
  exists c closing events' heap',
    effects (fresh origin None)
      (tokenizeParensMathText at_start
         (Some codes.backslash :: Some codes.leftParenthesis
            :: map Some (97%Z :: codes_of "  b")
            ++ Some codes.backslash :: Some codes.rightParenthesis
            :: [codes.eof])).1.1
    = Some c
    /\ resolveMathText (events c) (heap c) = Done (events', heap')
    /\ events' = text_events 0 1 closing [2]
    /\ heap' !! 2 = Some (token "mathTextData" 2 6).
Proof.
  apply (one_line_content_is_one_token at_start 97%Z (codes_of "  b")
           [codes.eof] origin None).
  - reflexivity.
  - intros H. apply list_elem_of_In in H. vm_compute in H.
    intuition discriminate.
  - repeat constructor.
  - discriminate.
Defined.

(** ** Content of one line with a space on each side *)

(** The tokens of content of one line that does not begin with a space
    are merged into one. *)
Lemma coalesce_one_line n p x content :
  one_line (x :: content) -> x <> codes.space ->
  coalesce (spans_at n (content_tokens None p (x :: content)))
  = [(n, {| type := "mathTextData"; start_ := p;
            end_ := Some (point_after p (x :: content)) |})].
Proof.
  intros Hline Hx.
  assert ((x =? codes.space)%Z = false) as Hsp by (by apply Z.eqb_neq).
  pose proof (content_tokens_types (x :: content) None p Hline
                ltac:(discriminate)) as Htypes.
  pose proof (content_tokens_last (x :: content) None p
                {| type := ""; start_ := p; end_ := Some p |} Hline
                ltac:(done)) as Hlast.
  inversion Hline as [|? ? Hle Hline']; subst.
  assert (exists q others,
             content_tokens None p (x :: content)
             = close_at q {| type := "mathTextData"; start_ := p;
                             end_ := None |} :: others)
    as (q & others & Htoks).
  { cbn [content_tokens]. rewrite Hsp, Hle. apply content_tokens_head. }
  rewrite Htoks in *. cbn [spans_at].
  rewrite <- (app_nil_r (spans_at (S n) others)), coalesce_run.
  - rewrite snd_spans_at. unfold merged. cbn [fst snd coalesce coalesce_from
      run_of close_at type start_]. do 3 f_equal.
    rewrite <- Hlast, last_cons. by destruct (last others).
  - apply Forall_forall. intros s Hs.
    assert (s.2 ∈ close_at q {| type := "mathTextData"; start_ := p;
                                end_ := None |} :: others) as Hin.
    { apply elem_of_cons in Hs as [->|Hs]; [by left|right].
      apply (list_elem_of_fmap_2 snd) in Hs.
      by rewrite snd_spans_at in Hs. }
    by apply (proj1 (Forall_forall _ _) Htypes).
  - done.
Qed.

Lemma content_tokens_snoc_space content :
  forall open p,
    content_tokens open p (content ++ [codes.space])
    = content_tokens open p content
        ++ [{| type := "space"; start_ := point_after p content;
               end_ := Some (advance (Some codes.space)
                               (point_after p content)) |}].
Proof.
  induction content as [|x content IH]; intros open p;
    cbn [app content_tokens].
  - change (codes.space =? codes.space)%Z with true. cbv iota.
    by destruct open.
  - rewrite point_after_cons.
    destruct (x =? codes.space)%Z; [|destruct (markdownLineEnding (Some x))].
    + rewrite IH. by rewrite <- !app_assoc.
    + rewrite IH. by rewrite <- !app_assoc.
    + by rewrite IH.
Qed.

Lemma middle_ends {A} (f z : A) mid : middle (f :: mid ++ [z]) = mid.
Proof. unfold middle. cbn [tail]. apply removelast_last. Qed.

(** X24. Content of one line that does not begin with a space and has
    no backslash, with a space before it and a space after it, between
    [\(] and [\)]: the recognizer and then the resolver leave three
    tokens between the two sequences, a [mathTextPadding] for the
    first space, one [mathTextData] from the point after that space to
    the point before the last space, and a [mathTextPadding] for the last
    space. *)
Theorem padded_content_is_three_tokens self x content rest p prev :
  previous self (previousCode self) = Some true ->
  codes.backslash ∉ x :: content ->
  one_line (x :: content) -> x <> codes.space ->
  let p2 := advance (Some codes.leftParenthesis)
              (advance (Some codes.backslash) p) in
  let p3 := advance (Some codes.space) p2 in
  let p4 := point_after p3 (x :: content) in
  exists c last_span closing events' heap',
    effects (fresh p prev)
      (tokenizeParensMathText self
         (Some codes.backslash :: Some codes.leftParenthesis
            :: map Some (codes.space :: (x :: content) ++ [codes.space])
            ++ Some codes.backslash :: Some codes.rightParenthesis :: rest)).1.1
    = Some c
    /\ resolveMathText (events c) (heap c) = Done (events', heap')
    /\ events' = text_events 0 1 closing [2; 3; last_span]
    /\ heap' !! 2
       = Some {| type := "mathTextPadding"; start_ := p2; end_ := Some p3 |}
    /\ heap' !! 3
       = Some {| type := "mathTextData"; start_ := p3; end_ := Some p4 |}
    /\ heap' !! last_span
       = Some {| type := "mathTextPadding"; start_ := p4;
                 end_ := Some (advance (Some codes.space) p4) |}.
Proof.
  intros Hprev Hno Hline Hx p2 p3 p4.
  assert (codes.backslash
          ∉ codes.space :: (x :: content) ++ [codes.space]) as Hno'.
  { apply not_elem_of_cons. split; [done|].
    apply not_elem_of_app. split; [done|].
    apply not_elem_of_cons. split; [done|apply not_elem_of_nil]. }
  rewrite (run_context self _ rest p prev Hprev Hno').
  cbv zeta. fold p2.
  set (toks := content_tokens None p2 _).
  set (T := content_tokens None p3 (x :: content)).
  set (sp1 := {| type := "space"; start_ := p2; end_ := Some p3 |}).
  set (sp2 := {| type := "space"; start_ := p4;
                 end_ := Some (advance (Some codes.space) p4) |}).
  assert (toks = sp1 :: T ++ [sp2]) as Htoks.
  { subst toks.
    change (content_tokens None p2
              (codes.space :: (x :: content) ++ [codes.space]))
      with (sp1 :: content_tokens None p3 ((x :: content) ++ [codes.space])).
    by rewrite content_tokens_snoc_space. }
  clearbody toks. subst toks.
  match goal with
  | |- context [Build_TokenizeContext _ ?h _ _ _] =>
    assert (shaped h 0 1 (2 + length (sp1 :: T ++ [sp2]))
              (spans_at 2 (sp1 :: T ++ [sp2]))) as Hshaped
      by (by apply shaped_run)
  end.
  pose proof (resolveMathText_shaped _ _ _ _ _ Hshaped) as Hresolved.
  pose proof (resolve_heap_lookup _ _ _ _ _ Hshaped) as Hlook.
  assert (resolve_spans (spans_at 2 (sp1 :: T ++ [sp2]))
          = [(2, with_type "mathTextPadding" sp1);
             (3, {| type := "mathTextData"; start_ := p3;
                    end_ := Some p4 |});
             (3 + length T, with_type "mathTextPadding" sp2)]) as Hres.
  { cbn [spans_at]. rewrite spans_at_app. cbn [spans_at].
    unfold resolve_spans. rewrite padded_ends.
    cbn [head tail]. rewrite last_snoc, middle_ends.
    subst T. rewrite coalesce_one_line by done.
    assert (existsb (fun s : Span => is_data s.2)
              (spans_at 3 (content_tokens None p3 (x :: content))) = true)
      as ->.
    { destruct (content_tokens_head content
                  {| type := "mathTextData"; start_ := p3; end_ := None |}
                  (advance (Some x) p3)) as (q & others & Hq).
      inversion Hline as [|? ? Hle _]; subst.
      cbn [content_tokens].
      replace (x =? codes.space)%Z with false
        by (symmetry; by apply Z.eqb_neq).
      rewrite Hle, Hq. reflexivity. }
    reflexivity. }
  rewrite Hres in *.
  eexists _, _, _, _, _. split; [reflexivity|]. cbn [events heap].
  split; [exact Hresolved|]. split; [reflexivity|].
  inversion Hlook as [|? ? H2 Hlook1]; subst.
  inversion Hlook1 as [|? ? H3 Hlook2]; subst.
  inversion Hlook2 as [|? ? H4 _]; subst.
  split; [exact H2|]. split; [exact H3|exact H4].
Qed.

(** The run over [\( a+b \)]. *)
Lemma padded_content_is_three_tokens_witness :
  exists c last_span closing events' heap',
    effects (fresh origin None)
      (tokenizeParensMathText at_start
         (Some codes.backslash :: Some codes.leftParenthesis
            :: map Some (codes.space :: (97%Z :: codes_of "+b")
                           ++ [codes.space])
            ++ Some codes.backslash :: Some codes.rightParenthesis
            :: [codes.eof])).1.1
    = Some c
    /\ resolveMathText (events c) (heap c) = Done (events', heap')
    /\ events' = text_events 0 1 closing [2; 3; last_span]
    /\ heap' !! 2 = Some (token "mathTextPadding" 2 3)
    /\ heap' !! 3 = Some (token "mathTextData" 3 6)
    /\ heap' !! last_span = Some (token "mathTextPadding" 6 7).
Proof.
  apply (padded_content_is_three_tokens at_start 97%Z (codes_of "+b")
           [codes.eof] origin None).
  - reflexivity.
  - intros H. apply list_elem_of_In in H. vm_compute in H.
    intuition discriminate.
  - repeat constructor.
  - discriminate.
Defined.
